(** * Remodal: the modal-dialog lifecycle controller

    A shallow embedding of [src/index.js] (state machine, animation barrier,
    singleton coordination, screen lock) and of the helpers it imports
    ([parseOptions], class and listener utilities), followed by the
    properties of the specification that were checked against it.

    Conventions of the embedding:
    - a JavaScript string is a [string]; its characters stand for UTF-16
      code units below 256;
    - a JavaScript number is a binary64 value, with the arithmetic of
      IEEE 754 (round to nearest, ties to even) computed on integers;
    - the page is an explicit [World] threaded through every operation;
    - the listeners a page adds for the notifications only observe,
      except in the operations named [_notify], which run a listener
      that may call back into the library. *)

From stdpp Require Import gmap strings list.
From Stdlib Require Import ZArith Ascii String SpecFloat.

Open Scope string_scope.
Open Scope Z_scope.

(** ** JavaScript strings and numbers *)

Module JS.

(** The characters matched by [\s] (and trimmed by [ToNumber],
    [parseFloat], [parseInt], [String.prototype.trim]) below U+0100:
    TAB, LF, VT, FF, CR, SPACE and NBSP. *)
Definition is_ws (c : ascii) : bool :=
  let n := nat_of_ascii c in
  ((9 <=? n)%nat && (n <=? 13)%nat) || (n =? 32)%nat || (n =? 160)%nat.

Definition is_digit (c : ascii) : bool :=
  let n := nat_of_ascii c in (48 <=? n)%nat && (n <=? 57)%nat.

Definition digit_val (c : ascii) : Z := Z.of_nat (nat_of_ascii c) - 48.

(** Value of a hexadecimal digit, if it is one. *)
Definition hex_val (c : ascii) : option Z :=
  let n := nat_of_ascii c in
  if is_digit c then Some (Z.of_nat n - 48)
  else if (65 <=? n)%nat && (n <=? 70)%nat then Some (Z.of_nat n - 55)
  else if (97 <=? n)%nat && (n <=? 102)%nat then Some (Z.of_nat n - 87)
  else None.

Definition ascii_eqb (a b : ascii) : bool := Ascii.eqb a b.

Fixpoint drop_ws (s : string) : string :=
  match s with
  | String c r => if is_ws c then drop_ws r else s
  | EmptyString => EmptyString
  end.

Fixpoint rev_string (acc s : string) : string :=
  match s with
  | EmptyString => acc
  | String c r => rev_string (String c acc) r
  end.

(** [str.trim()]. *)
Definition trim (s : string) : string :=
  rev_string "" (drop_ws (rev_string "" (drop_ws s))).

(** Longest prefix of decimal digits, and what follows it. *)
Fixpoint span_digits (s : string) : string * string :=
  match s with
  | String c r =>
      if is_digit c then let '(d, t) := span_digits r in (String c d, t)
      else (EmptyString, s)
  | EmptyString => (EmptyString, EmptyString)
  end.

Fixpoint digits_val (acc : Z) (s : string) : Z :=
  match s with
  | String c r => digits_val (10 * acc + digit_val c) r
  | EmptyString => acc
  end.

Definition strlen (s : string) : Z := Z.of_nat (String.length s).

(** A JavaScript number is a binary64 value: a signed zero, a signed
    infinity, NaN, or [(-1)^s * m * 2^e] with a mantissa of at most 53
    bits. The arithmetic is the one of IEEE 754 with rounding to nearest,
    ties to even. *)
Definition number : Type := spec_float.

Definition prec : Z := 53.
Definition emax : Z := 1024.

Definition NaN : number := S754_nan.
Definition Inf (negative : bool) : number := S754_infinity negative.

(** The number value of [m * 10^e] for a positive [m]: the integer
    itself rounded when the exponent is not negative, the correctly
    rounded quotient by the power of ten otherwise. *)
Definition of_decimal (negative : bool) (m : positive) (e : Z) : number :=
  if 0 <=? e
  then binary_round prec emax negative (Z.to_pos (Zpos m * 10 ^ e)) 0
  else SFdiv prec emax (S754_finite negative m 0)
         (S754_finite false (Z.to_pos (10 ^ (- e))) 0).

(** [Dec m e] is the number value of [m * 10^e], as a numeric literal
    denotes it. *)
Definition Dec (m e : Z) : number :=
  match m with
  | Z0 => S754_zero false
  | Zpos p => of_decimal false p e
  | Zneg p => of_decimal true p e
  end.

Definition is_nan (x : number) : bool :=
  match x with S754_nan => true | _ => false end.

(** [- x]. *)
Definition num_neg (x : number) : number := SFopp x.

(** [x * y] on numbers. *)
Definition num_mul (x y : number) : number := SFmul prec emax x y.

(** [x + y] on numbers. *)
Definition num_add (x y : number) : number := SFadd prec emax x y.

(** [x > y] on numbers; false as soon as one side is NaN. *)
Definition num_gt (x y : number) : bool := SFltb y x.

(** [x === 0] on numbers: true of both zeros. *)
Definition num_is0 (x : number) : bool := SFeqb x (Dec 0 0).

(** The exponent part [e[+-]?digits] at the head of [s], when there is a
    complete one: its value and the rest. *)
Definition scan_exponent (s : string) : option (Z * string) :=
  match s with
  | String c r =>
      if ascii_eqb c "e" || ascii_eqb c "E" then
        let '(neg, r') :=
          match r with
          | String sg t =>
              if ascii_eqb sg "-" then (true, t)
              else if ascii_eqb sg "+" then (false, t)
              else (false, r)
          | EmptyString => (false, r)
          end in
        let '(d, t) := span_digits r' in
        match d with
        | EmptyString => None
        | _ => Some (if neg then - digits_val 0 d else digits_val 0 d, t)
        end
      else None
  | EmptyString => None
  end.

(** The longest prefix of [s] that is an unsigned decimal literal
    ([digits], [digits.], [digits.digits], [.digits], each with an optional
    exponent): mantissa, exponent and the rest of [s]. *)
Definition scan_decimal (s : string) : option (Z * Z * string) :=
  let '(ip, r1) := span_digits s in
  let '(fp, r2, dot) :=
    match r1 with
    | String c r =>
        if ascii_eqb c "." then
          let '(fp, r2) := span_digits r in (fp, r2, true)
        else (EmptyString, r1, false)
    | EmptyString => (EmptyString, r1, false)
    end in
  match ip, fp with
  | EmptyString, EmptyString => None
  | _, _ =>
      let m := digits_val (digits_val 0 ip) fp in
      let e := - strlen fp in
      match scan_exponent r2 with
      | Some (x, r3) => Some (m, e + x, r3)
      | None => Some (m, e, r2)
      end
  end.

(** An optional sign at the head of [s]. *)
Definition scan_sign (s : string) : bool * string :=
  match s with
  | String c r =>
      if ascii_eqb c "-" then (true, r)
      else if ascii_eqb c "+" then (false, r)
      else (false, s)
  | EmptyString => (false, s)
  end.

Definition apply_sign (neg : bool) (x : number) : number :=
  if neg then num_neg x else x.

Fixpoint radix_val (radix : Z) (acc : Z) (s : string) : option Z :=
  match s with
  | EmptyString => Some acc
  | String c r =>
      match hex_val c with
      | Some d => if d <? radix then radix_val radix (radix * acc + d) r
                  else None
      | None => None
      end
  end.

(** [0x], [0o] and [0b] literals (no sign allowed). *)
Definition scan_radix (s : string) : option number :=
  match s with
  | String z (String p (String c r)) =>
      if ascii_eqb z "0" then
        let radix :=
          if ascii_eqb p "x" || ascii_eqb p "X" then Some 16
          else if ascii_eqb p "o" || ascii_eqb p "O" then Some 8
          else if ascii_eqb p "b" || ascii_eqb p "B" then Some 2
          else None in
        match radix with
        | Some b =>
            match radix_val b 0 (String c r) with
            | Some n => Some (Dec n 0)
            | None => None
            end
        | None => None
        end
      else None
  | _ => None
  end.

(** [ToNumber] applied to a string (what [isNaN(str)] and [+str] do). *)
Definition string_to_number (s : string) : number :=
  let t := trim s in
  match t with
  | EmptyString => Dec 0 0
  | _ =>
      match scan_radix t with
      | Some n => n
      | None =>
          let '(neg, r) := scan_sign t in
          if String.eqb r "Infinity" then Inf neg
          else match scan_decimal r with
               | Some (m, e, EmptyString) => apply_sign neg (Dec m e)
               | _ => NaN
               end
      end
  end.

Definition has_prefix (p s : string) : bool := String.prefix p s.

(** [parseFloat(str)]. *)
Definition parseFloat (s : string) : number :=
  let '(neg, r) := scan_sign (drop_ws s) in
  if has_prefix "Infinity" r then Inf neg
  else match scan_decimal r with
       | Some (m, e, _) => apply_sign neg (Dec m e)
       | None => NaN
       end.

(** [parseInt(str, 10)]. *)
Definition parseInt10 (s : string) : number :=
  let '(neg, r) := scan_sign (drop_ws s) in
  let '(d, _) := span_digits r in
  match d with
  | EmptyString => NaN
  | _ => apply_sign neg (Dec (digits_val 0 d) 0)
  end.

(** [str.split(sep)] for a one-character separator: never empty. *)
Fixpoint split (sep : ascii) (s : string) : list string :=
  match s with
  | EmptyString => [EmptyString]
  | String c r =>
      if ascii_eqb c sep then EmptyString :: split sep r
      else match split sep r with
           | h :: t => String c h :: t
           | [] => [String c EmptyString]
           end
  end.

(** The values the options object and the settings hold. *)
Inductive value : Type :=
  | VUndefined : value
  | VNull : value
  | VBool (b : bool) : value
  | VNumber (n : number) : value
  | VString (s : string) : value.

(** JavaScript truthiness ([if (v)], [v && ...]). *)
Definition truthy (v : value) : bool :=
  match v with
  | VUndefined | VNull => false
  | VBool b => b
  | VNumber n => negb (is_nan n || num_is0 n)
  | VString s => negb (String.eqb s "")
  end.

(** A plain object with primitive values is a [gmap string value]. *)

(** [obj[k] = v] on a plain object: the key [__proto__] reaches the
    prototype setter, which ignores a primitive, and creates no property. *)
Definition obj_set (k : string) (v : value) (o : gmap string value) :
    gmap string value :=
  if String.eqb k "__proto__" then o else <[k := v]> o.

(** [Object.assign(target, source)]: every own property of [source] is
    assigned on [target]. *)
Definition assign (target source : gmap string value) : gmap string value :=
  delete "__proto__" source ∪ target.

End JS.

(** ** The helpers of [remodal-helpers] *)

Module Helpers.
Import JS.

(** [str.replace(/\s*d\s*/g, d)] for a delimiter character [d]: every
    run of white space that touches a [d] goes, other white space stays.
    [pending] holds, in reverse, a run of white space not yet known to
    precede a delimiter; [after] tells that the last match ended just
    before the current position, so white space here belongs to it. *)
Fixpoint strip_go (d : ascii) (after : bool) (pending : string)
    (s : string) : string :=
  match s with
  | EmptyString => rev_string "" pending
  | String c r =>
      if ascii_eqb c d then String d (strip_go d true "" r)
      else if is_ws c then
        if after then strip_go d true "" r
        else strip_go d false (String c pending) r
      else rev_string "" pending ++ String c (strip_go d false "" r)
  end.

Definition strip_around (d : ascii) (s : string) : string :=
  strip_go d false "" s.

(** The two-step coercion of [parseOptions]: first the words [true] and
    [false], then, when the value is still a string, [isNaN] and unary
    plus. *)
Definition coerce_bool (val : value) : value :=
  match val with
  | VString s =>
      if String.eqb s "true" then VBool true
      else if String.eqb s "false" then VBool false else val
  | _ => val
  end.

Definition coerce_number (val : value) : value :=
  match val with
  | VString s =>
      let n := string_to_number s in
      if is_nan n then val else VNumber n
  | _ => val
  end.

(** [arr[i][1]]: the second field, [undefined] when there is none. *)
Definition second_field (fields : list string) : value :=
  match fields !! 1%nat with
  | Some s => VString s
  | None => VUndefined
  end.

(** [arr[i][0]]; [split] never returns an empty array. *)
Definition first_field (fields : list string) : string :=
  match fields with
  | k :: _ => k
  | [] => ""
  end.

(** One turn of the loop of [parseOptions]. *)
Definition parse_token (obj : gmap string value) (tok : string) :
    gmap string value :=
  let fields := split ":" tok in
  let val := coerce_number (coerce_bool (second_field fields)) in
  obj_set (first_field fields) val obj.

(** The tokens the loop of [parseOptions] runs over. *)
Definition tokens (str : string) : list string :=
  split "," (strip_around "," (strip_around ":" str)).

Definition parseOptions (str : string) : gmap string value :=
  foldl parse_token ∅ (tokens str).

(** The class names [addClasses] and [removeClasses] get out of one
    argument: [trim] then [split(/\s*,\s*|\s+/)], empty pieces skipped,
    that is the maximal runs of characters that are neither white space
    nor a comma. *)
Fixpoint class_names_go (cur : string) (s : string) : list string :=
  let flush :=
    match cur with EmptyString => [] | _ => [rev_string "" cur] end in
  match s with
  | EmptyString => flush
  | String c r =>
      if is_ws c || ascii_eqb c "," then flush ++ class_names_go "" r
      else class_names_go (String c cur) r
  end.

Definition class_names (classes : string) : list string :=
  class_names_go "" classes.

End Helpers.


(** ** The page and the module state of [src/index.js] *)

Module Remodal.
Import JS Helpers.

Inductive STATES : Type := CLOSING | CLOSED | OPENING | OPENED.

Inductive STATE_CHANGE_REASONS : Type := CONFIRMATION | CANCELLATION.

#[global] Instance STATES_eq_dec : EqDecision STATES.
Proof. solve_decision. Defined.

#[global] Instance REASONS_eq_dec : EqDecision STATE_CHANGE_REASONS.
Proof. solve_decision. Defined.

Definition state_name (s : STATES) : string :=
  match s with
  | CLOSING => "closing"
  | CLOSED => "closed"
  | OPENING => "opening"
  | OPENED => "opened"
  end.

(** [Object.values(STATES)], in declaration order. *)
Definition all_states : list STATES := [CLOSING; CLOSED; OPENING; OPENED].

Definition NAMESPACE : string := "remodal".

Definition namespacify (args : list string) : string :=
  foldl (fun result a => result ++ "-" ++ a) NAMESPACE args.

(** The animation events, each under four vendor spellings. *)
Inductive Phase : Type := AnimStart | AnimEnd.
Inductive Vendor : Type := Std | Webkit | MS | Opera.
Definition AnimEvent : Type := Phase * Vendor.

#[global] Instance Phase_eq_dec : EqDecision Phase.
Proof. solve_decision. Defined.

#[global] Instance Vendor_eq_dec : EqDecision Vendor.
Proof. solve_decision. Defined.

Definition vendors : list Vendor := [Std; Webkit; MS; Opera].
Definition ANIMATIONSTART_EVENTS : list AnimEvent := pair AnimStart <$> vendors.
Definition ANIMATIONEND_EVENTS : list AnimEvent := pair AnimEnd <$> vendors.

(** The closures [syncWithAnimation] registers: the start and the end
    handler of the barrier run number [b]. *)
Inductive Handler : Type :=
  | handleAnimationStart (b : nat)
  | handleAnimationEnd (b : nat).

#[global] Instance Handler_eq_dec : EqDecision Handler.
Proof. solve_decision. Defined.

(** What the model keeps of a DOM element: its class list, its inline
    [display], the listeners [addEventListener] holds for the animation
    events, and the [namespaces] table the helpers keep on the element. *)
Record Element : Type := mkElement {
  classList : gset string;
  display : string;
  listeners : list (AnimEvent * Handler);
  namespaces : list (AnimEvent * Handler)
}.

Definition blank : Element :=
  {| classList := ∅; display := ""; listeners := []; namespaces := [] |}.

(** The four surfaces of an instance, as [syncWithAnimation] names them. *)
Inductive Surface : Type := Bg | Overlay | Wrapper | Modal.

Definition surfaces : list Surface := [Bg; Overlay; Wrapper; Modal].

(** The elements of the page: the background and the overlay are shared by
    all instances, each instance has a wrapper and a dialog of its own. *)
Inductive Elem : Type :=
  | EBg | EOverlay | EWrapper (i : nat) | EModal (i : nat).

#[global] Instance Elem_eq_dec : EqDecision Elem.
Proof. solve_decision. Defined.

(** [instance[elemName]]. *)
Definition surface_elem (i : nat) (s : Surface) : Elem :=
  match s with
  | Bg => EBg
  | Overlay => EOverlay
  | Wrapper => EWrapper i
  | Modal => EModal i
  end.

(** Where an event comes from: a surface itself, or some element below it
    that is not a surface. *)
Inductive Node : Type :=
  | Self (e : Elem)
  | Inside (e : Elem).

#[global] Instance Node_eq_dec : EqDecision Node.
Proof. solve_decision. Defined.

(** The elements with listeners on the bubbling path of an event, target
    first: the wrapper contains the dialog, the other surfaces do not
    contain one another. *)
Definition path (target : Node) : list Elem :=
  match target with
  | Self (EModal i) | Inside (EModal i) => [EModal i; EWrapper i]
  | Self e | Inside e => [e]
  end.

(** The continuations [open] and [close] hand to [syncWithAnimation]. *)
Inductive Action : Type :=
  | SetOpening
  | SetOpened
  | SetClosing (reason : option STATE_CHANGE_REASONS)
  | FinishClose (reason : option STATE_CHANGE_REASONS).

(** The closure record of one call of [syncWithAnimation]. *)
Record Barrier : Type := mkBarrier {
  runningAnimationsCount : Z;
  doAfterAnimation : Action;
  owner : nat
}.

Record Instance : Type := mkInstance {
  state : STATES;
  remodal_id : option string;
  wrapper : Element;
  modal : Element
}.

(** What the page shows of what happened, oldest first. [Assigned] and
    [AfterAnimation] are ghost entries: the assignment of
    [instance.state] and a call of a barrier's [doAfterAnimation]. *)
Inductive Event : Type :=
  | Assigned (i : nat) (s : STATES)
  | Triggered (i : nat) (s : STATES) (reason : option STATE_CHANGE_REASONS)
  | ReasonTriggered (i : nat) (reason : STATE_CHANGE_REASONS)
  | AfterAnimation (b : nat)
  | Focused (i : nat)
  | WrapperScrolled (i : nat)
  | HashWritten (h : string)
  | WindowScrolled (y : Z).

#[global] Instance Event_eq_dec : EqDecision Event.
Proof. solve_decision. Defined.

Record World : Type := mkWorld {
  bg : Element;
  overlay : Element;
  html : gset string;
  body_padding_right : Z;
  hash : string;
  pageYOffset : Z;
  lookup : list Instance;
  DEFAULTS : gmap string value;
  current : option nat;
  scrollTop : option Z;
  barriers : list Barrier;
  log : list Event
}.

(** What the code reads from the browser and cannot change: the two
    feature tests, the computed animation styles, and the scrollbar
    probe. *)
Record Env : Type := mkEnv {
  IS_IOS : bool;
  IS_ANIMATION : bool;
  getStyle : World -> Elem -> string -> string;
  getScrollbarWidth : World -> Z
}.

Definition set_bg (f : Element -> Element) (w : World) : World :=
  mkWorld (f (bg w)) (overlay w) (html w) (body_padding_right w) (hash w)
    (pageYOffset w) (lookup w) (DEFAULTS w) (current w) (scrollTop w)
    (barriers w) (log w).

Definition set_overlay (f : Element -> Element) (w : World) : World :=
  mkWorld (bg w) (f (overlay w)) (html w) (body_padding_right w) (hash w)
    (pageYOffset w) (lookup w) (DEFAULTS w) (current w) (scrollTop w)
    (barriers w) (log w).

Definition set_screen (h : gset string) (p : Z) (w : World) : World :=
  mkWorld (bg w) (overlay w) h p (hash w)
    (pageYOffset w) (lookup w) (DEFAULTS w) (current w) (scrollTop w)
    (barriers w) (log w).

Definition set_hash (h : string) (w : World) : World :=
  mkWorld (bg w) (overlay w) (html w) (body_padding_right w) h
    (pageYOffset w) (lookup w) (DEFAULTS w) (current w) (scrollTop w)
    (barriers w) (log w).

Definition set_pageYOffset (y : Z) (w : World) : World :=
  mkWorld (bg w) (overlay w) (html w) (body_padding_right w) (hash w)
    y (lookup w) (DEFAULTS w) (current w) (scrollTop w)
    (barriers w) (log w).

Definition set_lookup (f : list Instance -> list Instance) (w : World) :
    World :=
  mkWorld (bg w) (overlay w) (html w) (body_padding_right w) (hash w)
    (pageYOffset w) (f (lookup w)) (DEFAULTS w) (current w) (scrollTop w)
    (barriers w) (log w).

Definition set_DEFAULTS (d : gmap string value) (w : World) : World :=
  mkWorld (bg w) (overlay w) (html w) (body_padding_right w) (hash w)
    (pageYOffset w) (lookup w) d (current w) (scrollTop w)
    (barriers w) (log w).

Definition set_current (c : option nat) (w : World) : World :=
  mkWorld (bg w) (overlay w) (html w) (body_padding_right w) (hash w)
    (pageYOffset w) (lookup w) (DEFAULTS w) c (scrollTop w)
    (barriers w) (log w).

Definition set_scrollTop (y : option Z) (w : World) : World :=
  mkWorld (bg w) (overlay w) (html w) (body_padding_right w) (hash w)
    (pageYOffset w) (lookup w) (DEFAULTS w) (current w) y
    (barriers w) (log w).

Definition set_barriers (f : list Barrier -> list Barrier) (w : World) :
    World :=
  mkWorld (bg w) (overlay w) (html w) (body_padding_right w) (hash w)
    (pageYOffset w) (lookup w) (DEFAULTS w) (current w) (scrollTop w)
    (f (barriers w)) (log w).

Definition emit (e : Event) (w : World) : World :=
  mkWorld (bg w) (overlay w) (html w) (body_padding_right w) (hash w)
    (pageYOffset w) (lookup w) (DEFAULTS w) (current w) (scrollTop w)
    (barriers w) (log w ++ [e]).

Definition set_state (s : STATES) (x : Instance) : Instance :=
  mkInstance s (remodal_id x) (wrapper x) (modal x).

Definition set_wrapper (f : Element -> Element) (x : Instance) : Instance :=
  mkInstance (state x) (remodal_id x) (f (wrapper x)) (modal x).

Definition set_modal (f : Element -> Element) (x : Instance) : Instance :=
  mkInstance (state x) (remodal_id x) (wrapper x) (f (modal x)).

(** Reading and updating an element of the page. An element of an
    instance that was never constructed reads as [blank] and cannot be
    updated. *)
Definition elem (e : Elem) (w : World) : Element :=
  match e with
  | EBg => bg w
  | EOverlay => overlay w
  | EWrapper i => from_option wrapper blank (lookup w !! i)
  | EModal i => from_option modal blank (lookup w !! i)
  end.

Definition update (e : Elem) (f : Element -> Element) (w : World) : World :=
  match e with
  | EBg => set_bg f w
  | EOverlay => set_overlay f w
  | EWrapper i => set_lookup (alter (set_wrapper f) i) w
  | EModal i => set_lookup (alter (set_modal f) i) w
  end.

(** [instance.state], [CLOSED] standing for an instance that does not
    exist. *)
Definition state_of (i : nat) (w : World) : STATES :=
  from_option state CLOSED (lookup w !! i).

(** [instance.settings] is the module's [DEFAULTS] object itself: the
    constructor assigns [Object.assign(DEFAULTS, options)], which returns
    its first argument. Reading a setting of any instance reads
    [DEFAULTS]. *)
Definition setting (k : string) (w : World) : value :=
  default VUndefined (DEFAULTS w !! k).

(** *** Class and style helpers *)

Definition addClasses (classes : string) (el : Element) : Element :=
  mkElement (classList el ∪ list_to_set (class_names classes))
    (display el) (listeners el) (namespaces el).

Definition removeClasses (classes : string) (el : Element) : Element :=
  mkElement (classList el ∖ list_to_set (class_names classes))
    (display el) (listeners el) (namespaces el).

Definition hasClass (el : gset string) (className : string) : bool :=
  bool_decide (className ∈ el).

Definition set_display (d : string) (el : Element) : Element :=
  mkElement (classList el) d (listeners el) (namespaces el).

Definition hide (el : Element) : Element := set_display "none" el.

(** *** Namespaced listeners ([events.on] and [events.off]) *)

Definition addEventListener (ev : AnimEvent) (cb : Handler)
    (l : list (AnimEvent * Handler)) : list (AnimEvent * Handler) :=
  if bool_decide ((ev, cb) ∈ l) then l else l ++ [(ev, cb)].

Definition removeEventListener (ev : AnimEvent) (cb : Handler)
    (l : list (AnimEvent * Handler)) : list (AnimEvent * Handler) :=
  filter (fun p => p ≠ (ev, cb)) l.

Fixpoint ns_get (ev : AnimEvent) (ns : list (AnimEvent * Handler)) :
    option Handler :=
  match ns with
  | [] => None
  | (e, cb) :: rest => if decide (e = ev) then Some cb else ns_get ev rest
  end.

Definition ns_delete (ev : AnimEvent) (ns : list (AnimEvent * Handler)) :
    list (AnimEvent * Handler) :=
  filter (fun p => p.1 ≠ ev) ns.

Definition ns_set (ev : AnimEvent) (cb : Handler)
    (ns : list (AnimEvent * Handler)) : list (AnimEvent * Handler) :=
  ns_delete ev ns ++ [(ev, cb)].

Definition addSingleNSEvent (cb : Handler) (el : Element) (ev : AnimEvent) :
    Element :=
  mkElement (classList el) (display el)
    (addEventListener ev cb (listeners el))
    (ns_set ev cb (namespaces el)).

(** [removeEventListener] with an [undefined] callback removes nothing. *)
Definition removeSingleNSEvent (el : Element) (ev : AnimEvent) : Element :=
  mkElement (classList el) (display el)
    (match ns_get ev (namespaces el) with
     | Some cb => removeEventListener ev cb (listeners el)
     | None => listeners el
     end)
    (ns_delete ev (namespaces el)).

Definition addNSEventListener (events : list AnimEvent) (cb : Handler)
    (el : Element) : Element :=
  foldl (addSingleNSEvent cb) el events.

Definition removeNSEventListener (events : list AnimEvent) (el : Element) :
    Element :=
  foldl removeSingleNSEvent el events.

(** The loop that closes a barrier, in the handler, in the probe branch
    and in [halt]: all eight animation names off the four surfaces. *)
Definition detach (i : nat) (w : World) : World :=
  foldl (fun w elemName =>
           update (surface_elem i elemName)
             (removeNSEventListener
                (ANIMATIONSTART_EVENTS ++ ANIMATIONEND_EVENTS)) w)
        w surfaces.

(** The loop that opens a barrier. *)
Definition attach (b i : nat) (w : World) : World :=
  foldl (fun w elemName =>
           update (surface_elem i elemName)
             (fun el =>
                addNSEventListener ANIMATIONEND_EVENTS (handleAnimationEnd b)
                  (addNSEventListener ANIMATIONSTART_EVENTS
                     (handleAnimationStart b) el)) w)
        w surfaces.

(** *** The duration probe *)

(** [str.split(', ')]. *)
Fixpoint split_comma_space (s : string) : list string :=
  match s with
  | EmptyString => [EmptyString]
  | String c r =>
      let keep :=
        match split_comma_space r with
        | h :: t => String c h :: t
        | [] => [String c EmptyString]
        end in
      match r with
      | String c' r' =>
          if ascii_eqb c "," && ascii_eqb c' " "
          then EmptyString :: split_comma_space r'
          else keep
      | EmptyString => keep
      end
  end.

Section Probe.
Context (env : Env).

Definition prefixes : list string := [""; "-webkit-"; "-moz-"; "-o-"; "-ms-"].

(** The last prefix with a non-empty value wins; [None] is [undefined]. *)
Definition getPrefixedStyles (w : World) (el : Elem) (styleName : string) :
    option string :=
  foldl (fun matchingStyle prefix =>
           let style := getStyle env w el (prefix ++ styleName) in
           if String.eqb style "" then matchingStyle else Some style)
        None prefixes.

(** [x || dflt] on a string that may be [undefined] or empty. *)
Definition or_default (x : option string) (dflt : string) : string :=
  match x with
  | Some s => if String.eqb s "" then dflt else s
  | None => dflt
  end.

(** [parseFloat(arr[i])] and [parseInt(arr[i], 10)], an index past the
    end giving [undefined], hence NaN. *)
Definition float_at (arr : list string) (i : nat) : number :=
  from_option parseFloat NaN (arr !! i).

Definition int_at (arr : list string) (i : nat) : number :=
  from_option parseInt10 NaN (arr !! i).

Definition getAnimationDuration (w : World) (el : Elem) : number :=
  if IS_ANIMATION env
     && bool_decide (getPrefixedStyles w el "animation-name" = Some "none")
  then Dec 0 0
  else
    let duration :=
      split_comma_space
        (or_default (getPrefixedStyles w el "animation-duration") "0s") in
    let delay :=
      split_comma_space
        (or_default (Some (getStyle env w el "animation-delay")) "0s") in
    let iterationCount :=
      split_comma_space
        (or_default (Some (getStyle env w el "animation-iteration-count"))
           "1") in
    foldl (fun max i =>
             let num :=
               num_add (num_mul (float_at duration i)
                                (int_at iterationCount i))
                       (float_at delay i) in
             if num_gt num max then num else max)
          (Inf true) (seq 0 (List.length duration)).

(** The condition of the probe branch of [syncWithAnimation]. *)
Definition no_animation (i : nat) (w : World) : bool :=
  forallb (fun elemName =>
             num_is0 (getAnimationDuration w (surface_elem i elemName)))
          surfaces.

End Probe.

(** *** The state machine *)

Section Operations.
Context (env : Env).

Definition lockedClass : string := namespacify ["is-locked"].

(** [screenLockToggle(action)]: one test of the marker guards both
    directions. *)
Definition screenLockToggle (action : string) (w : World) : World :=
  if IS_IOS env then w
  else if hasClass (html w) lockedClass then
    let bodyPaddingRight := body_padding_right w in
    let scrollBarWidth := getScrollbarWidth env w in
    let paddingRight :=
      if String.eqb action "lock"
      then bodyPaddingRight - scrollBarWidth
      else bodyPaddingRight + scrollBarWidth in
    set_screen
      (if String.eqb action "lock"
       then html w ∪ list_to_set (class_names lockedClass)
       else html w ∖ list_to_set (class_names lockedClass))
      paddingRight w
  else w.

Definition allStates : string :=
  String.concat " "
    ((fun thisState => namespacify ["is"; state_name thisState])
       <$> all_states).

(** [setState(instance, state, isSilent, reason)]. *)
Definition setState (i : nat) (st : STATES) (isSilent : bool)
    (reason : option STATE_CHANGE_REASONS) (w : World) : World :=
  let newState := namespacify ["is"; state_name st] in
  let w :=
    foldl (fun w elemName =>
             update (surface_elem i elemName)
               (fun element =>
                  addClasses newState (removeClasses allStates element)) w)
          w surfaces in
  let w := emit (Assigned i st) (set_lookup (alter (set_state st) i) w) in
  if isSilent then w else emit (Triggered i st reason) w.

(** [settings.modifier] as the class helpers use it; the model covers
    string modifiers (any other value reads as no class). *)
Definition modifier (w : World) : string :=
  match setting "modifier" w with
  | VString s => s
  | _ => ""
  end.

(** The four closures [open] and [close] pass to [syncWithAnimation]. *)
Definition run_action (a : Action) (i : nat) (w : World) : World :=
  match a with
  | SetOpening => setState i OPENING false None w
  | SetOpened => setState i OPENED false None w
  | SetClosing reason => setState i CLOSING false reason w
  | FinishClose reason =>
      let w := update EBg (removeClasses (modifier w)) w in
      let w := update EOverlay (removeClasses (modifier w)) w in
      let w := update EOverlay hide w in
      let w := update (EWrapper i) hide w in
      let w := screenLockToggle "unlock" w in
      setState i CLOSED false reason w
  end.

(** [syncWithAnimation(doBeforeAnimation, doAfterAnimation, instance)].
    The fresh closure is the next entry of [barriers]. *)
Definition syncWithAnimation (doBefore doAfter : Action) (i : nat)
    (w : World) : World :=
  let b := List.length (barriers w) in
  let w := set_barriers (fun bs => (bs ++ [mkBarrier 0 doAfter i])%list) w in
  let w := attach b i w in
  let w := run_action doBefore i w in
  if no_animation env i w
  then run_action doAfter i (emit (AfterAnimation b) (detach i w))
  else w.

Definition add_count (d : Z) (br : Barrier) : Barrier :=
  mkBarrier (runningAnimationsCount br + d) (doAfterAnimation br) (owner br).

(** A call of one of the two handlers, with [this] and [e.target]. *)
Definition run_handler (h : Handler) (this : Elem) (target : Node)
    (w : World) : World :=
  if bool_decide (target ≠ Self this) then w
  else match h with
       | handleAnimationStart b => set_barriers (alter (add_count 1) b) w
       | handleAnimationEnd b =>
           let w := set_barriers (alter (add_count (-1)) b) w in
           match barriers w !! b with
           | Some br =>
               if runningAnimationsCount br =? 0
               then run_action (doAfterAnimation br) (owner br)
                      (emit (AfterAnimation b) (detach (owner br) w))
               else w
           | None => w
           end
       end.

(** The browser delivers an animation event: along the bubbling path,
    every listener registered for its type when the element is reached
    runs, unless it was removed in between. *)
Definition dispatch (ev : AnimEvent) (target : Node) (w : World) : World :=
  foldl (fun w this =>
           foldl (fun w p =>
                    if bool_decide (p ∈ listeners (elem this w))
                    then run_handler p.2 this target w
                    else w)
                 w (filter (fun p => p.1 = ev) (listeners (elem this w))))
        w (path target).

(** [halt(instance)]. *)
Definition halt (i : nat) (w : World) : World :=
  if decide (state_of i w = CLOSED) then w
  else
    let w := detach i w in
    let w := update EBg (removeClasses (modifier w)) w in
    let w := update EOverlay (removeClasses (modifier w)) w in
    let w := update EOverlay hide w in
    let w := update (EWrapper i) hide w in
    let w := screenLockToggle "unlock" w in
    setState i CLOSED true None w.

(** [id && ...] on the result of [getAttribute]. *)
Definition attr_truthy (a : option string) : bool :=
  match a with
  | Some s => negb (String.eqb s "")
  | None => false
  end.

(** [Remodal.prototype.open]. *)
Definition open (i : nat) (w : World) : World :=
  match lookup w !! i with
  | None => w
  | Some this =>
      if decide (state this = OPENING ∨ state this = CLOSING) then w
      else
        let w :=
          match remodal_id this with
          | Some id =>
              if attr_truthy (Some id) && truthy (setting "hashTracking" w)
              then emit (HashWritten id)
                     (set_hash id (set_scrollTop (Some (pageYOffset w)) w))
              else w
          | None => w
          end in
        let w :=
          match current w with
          | Some c => if decide (c ≠ i) then halt c w else w
          | None => w
          end in
        let w := set_current (Some i) w in
        let w := screenLockToggle "lock" w in
        let w := update EBg (addClasses (modifier w)) w in
        let w := update EOverlay (addClasses (modifier w)) w in
        let w := update EOverlay (set_display "block") w in
        let w := update (EWrapper i) (set_display "block") w in
        let w := emit (WrapperScrolled i) w in
        let w := emit (Focused i) w in
        syncWithAnimation SetOpening SetOpened i w
  end.

(** [Remodal.prototype.close]. *)
Definition close (i : nat) (reason : option STATE_CHANGE_REASONS)
    (w : World) : World :=
  match lookup w !! i with
  | None => w
  | Some this =>
      if decide (state this = OPENING ∨ state this = CLOSING
                 ∨ state this = CLOSED) then w
      else
        let w :=
          if truthy (setting "hashTracking" w)
             && bool_decide (remodal_id this = Some (hash w))
          then emit (WindowScrolled 0)
                 (set_pageYOffset 0 (emit (HashWritten "") (set_hash "" w)))
          else w in
        syncWithAnimation (SetClosing reason) (FinishClose reason) i w
  end.

(** [new Remodal(modal, options)] for a dialog element whose
    [data-remodal-id] is [id]. The options are merged into [DEFAULTS]
    itself. The overlay is made on first use; the background is taken to
    be on the page. The click listeners wired here are the four
    [click_*] operations below. *)
Definition construct (id : option string) (options : gmap string value)
    (w : World) : World :=
  let w := set_DEFAULTS (assign (DEFAULTS w) options) w in
  let closed := namespacify ["is"; state_name CLOSED] in
  let w :=
    if hasClass (classList (overlay w)) (namespacify ["overlay"]) then w
    else update EOverlay
           (fun _ =>
              hide (addClasses (namespacify ["overlay"] ++ " " ++ closed)
                      blank)) w in
  let w := update EBg (addClasses closed) w in
  let this :=
    {| state := CLOSED;
       remodal_id := id;
       wrapper :=
         hide (addClasses
                 (namespacify ["wrapper"] ++ " " ++ modifier w ++ " "
                    ++ closed) blank);
       modal :=
         addClasses
           (NAMESPACE ++ " " ++ namespacify ["is-initialized"] ++ " "
              ++ modifier w ++ " " ++ closed) blank |} in
  set_lookup (fun l => (l ++ [this])%list) w.

(** [remodal(element, opts)] on an element not yet initialised. *)
Definition remodal (id : option string) (opts : gmap string value)
    (w : World) : World :=
  let index := List.length (lookup w) in
  let w := construct id opts w in
  if truthy (setting "hashTracking" w) && bool_decide (id = Some (hash w))
  then open index w
  else w.

(** The delegated click listeners of the constructor. *)
Definition click_close (i : nat) (w : World) : World := close i None w.

Definition click_cancel (i : nat) (w : World) : World :=
  let w := emit (ReasonTriggered i CANCELLATION) w in
  if truthy (setting "closeOnCancel" w)
  then close i (Some CANCELLATION) w else w.

Definition click_confirm (i : nat) (w : World) : World :=
  let w := emit (ReasonTriggered i CONFIRMATION) w in
  if truthy (setting "closeOnConfirm" w)
  then close i (Some CONFIRMATION) w else w.

(** The listener on the wrapper, for a click whose target is the wrapper
    itself ([onWrapper]) or something inside. *)
Definition click_wrapper (i : nat) (onWrapper : bool) (w : World) : World :=
  if negb onWrapper then w
  else if truthy (setting "closeOnOutsideClick" w) then close i None w
  else w.

(** The [keydown] listener of [init]. *)
Definition keydown (keyCode : Z) (w : World) : World :=
  match current w with
  | Some c =>
      if truthy (setting "closeOnEscape" w)
         && bool_decide (state_of c w = OPENED) && (keyCode =? 27)
      then close c None w else w
  | None => w
  end.

(** The index of the first instance whose dialog carries [id]. *)
Fixpoint find_id (id : string) (l : list Instance) : option nat :=
  match l with
  | [] => None
  | x :: r =>
      if bool_decide (remodal_id x = Some id) then Some 0%nat
      else S <$> find_id id r
  end.

(** [handleHashChangeEvent], run after the fragment became [h]. *)
Definition handleHashChangeEvent (h : string) (w : World) : World :=
  let w := set_hash h w in
  if String.eqb h "" then
    match current w with
    | Some c =>
        if bool_decide (state_of c w = OPENED)
           && truthy (setting "hashTracking" w)
        then close c None w else w
    | None => w
    end
  else
    match find_id h (lookup w) with
    | Some i => if truthy (setting "hashTracking" w) then open i w else w
    | None => w
    end.

(** What can happen to a page. *)
Inductive Op : Type :=
  | OpRemodal (id : option string) (opts : gmap string value)
  | OpOpen (i : nat)
  | OpClose (i : nat) (reason : option STATE_CHANGE_REASONS)
  | OpClickClose (i : nat)
  | OpClickCancel (i : nat)
  | OpClickConfirm (i : nat)
  | OpClickWrapper (i : nat) (onWrapper : bool)
  | OpKeydown (keyCode : Z)
  | OpHashChange (h : string)
  | OpAnimation (ev : AnimEvent) (target : Node).

Definition run_op (o : Op) (w : World) : World :=
  match o with
  | OpRemodal id opts => remodal id opts w
  | OpOpen i => open i w
  | OpClose i reason => close i reason w
  | OpClickClose i => click_close i w
  | OpClickCancel i => click_cancel i w
  | OpClickConfirm i => click_confirm i w
  | OpClickWrapper i t => click_wrapper i t w
  | OpKeydown k => keydown k w
  | OpHashChange h => handleHashChangeEvent h w
  | OpAnimation ev target => dispatch ev target w
  end.

Definition run_ops (ops : list Op) (w : World) : World :=
  foldl (fun w o => run_op o w) w ops.

End Operations.

(** *** Listeners of the notifications

    [triggerEvent] hands its event to [dispatchEvent], which runs the
    listeners the page has added to the dialog before it returns, and
    such a listener may call back into the library. In the operations
    above the listeners only observe. The operations below run them:
    [notify ev w] is the page after the listeners of the notification
    [ev] have run on the page [w]. [halt] notifies nothing, and is the
    same in both. *)
Section Listeners.
Context (env : Env) (notify : Event -> World -> World).

(** [setState]: the notification is its last statement. *)
Definition setState_notify (i : nat) (st : STATES) (isSilent : bool)
    (reason : option STATE_CHANGE_REASONS) (w : World) : World :=
  let w := setState i st isSilent reason w in
  if isSilent then w else notify (Triggered i st reason) w.

Definition run_action_notify (a : Action) (i : nat) (w : World) : World :=
  match a with
  | SetOpening => setState_notify i OPENING false None w
  | SetOpened => setState_notify i OPENED false None w
  | SetClosing reason => setState_notify i CLOSING false reason w
  | FinishClose reason =>
      let w := update EBg (removeClasses (modifier w)) w in
      let w := update EOverlay (removeClasses (modifier w)) w in
      let w := update EOverlay hide w in
      let w := update (EWrapper i) hide w in
      let w := screenLockToggle env "unlock" w in
      setState_notify i CLOSED false reason w
  end.

(** [syncWithAnimation]: the probe reads the page the listeners of
    [doBeforeAnimation] have left. *)
Definition syncWithAnimation_notify (doBefore doAfter : Action) (i : nat)
    (w : World) : World :=
  let b := List.length (barriers w) in
  let w := set_barriers (fun bs => (bs ++ [mkBarrier 0 doAfter i])%list) w in
  let w := attach b i w in
  let w := run_action_notify doBefore i w in
  if no_animation env i w
  then run_action_notify doAfter i (emit (AfterAnimation b) (detach i w))
  else w.

Definition open_notify (i : nat) (w : World) : World :=
  match lookup w !! i with
  | None => w
  | Some this =>
      if decide (state this = OPENING ∨ state this = CLOSING) then w
      else
        let w :=
          match remodal_id this with
          | Some id =>
              if attr_truthy (Some id) && truthy (setting "hashTracking" w)
              then emit (HashWritten id)
                     (set_hash id (set_scrollTop (Some (pageYOffset w)) w))
              else w
          | None => w
          end in
        let w :=
          match current w with
          | Some c => if decide (c ≠ i) then halt env c w else w
          | None => w
          end in
        let w := set_current (Some i) w in
        let w := screenLockToggle env "lock" w in
        let w := update EBg (addClasses (modifier w)) w in
        let w := update EOverlay (addClasses (modifier w)) w in
        let w := update EOverlay (set_display "block") w in
        let w := update (EWrapper i) (set_display "block") w in
        let w := emit (WrapperScrolled i) w in
        let w := emit (Focused i) w in
        syncWithAnimation_notify SetOpening SetOpened i w
  end.

Definition close_notify (i : nat) (reason : option STATE_CHANGE_REASONS)
    (w : World) : World :=
  match lookup w !! i with
  | None => w
  | Some this =>
      if decide (state this = OPENING ∨ state this = CLOSING
                 ∨ state this = CLOSED) then w
      else
        let w :=
          if truthy (setting "hashTracking" w)
             && bool_decide (remodal_id this = Some (hash w))
          then emit (WindowScrolled 0)
                 (set_pageYOffset 0 (emit (HashWritten "") (set_hash "" w)))
          else w in
        syncWithAnimation_notify (SetClosing reason) (FinishClose reason) i w
  end.

End Listeners.

(** The defaults as the module declares them. *)
Definition DEFAULTS0 : gmap string value :=
  <["hashTracking" := VBool true]>
  (<["closeOnConfirm" := VBool true]>
  (<["closeOnCancel" := VBool true]>
  (<["closeOnEscape" := VBool true]>
  (<["closeOnOutsideClick" := VBool true]>
  (<["modifier" := VString ""]>
  (<["appendTo" := VNull]> ∅)))))).

(** The page when the module has been loaded: no instance yet, the marker
    class absent or present, some padding, fragment and scroll offset. *)
Definition initial (locked : bool) (padding : Z) (h : string) (y : Z) :
    World :=
  {| bg := blank; overlay := blank;
     html := if locked then {[lockedClass]} else ∅;
     body_padding_right := padding; hash := h; pageYOffset := y;
     lookup := []; DEFAULTS := DEFAULTS0; current := None;
     scrollTop := None; barriers := []; log := [] |}.

End Remodal.

(** ** Notions the properties are stated with *)

Module Spec.
Import JS Helpers Remodal.

(** The coercion rule as the specification words it: the two boolean
    words first, otherwise a number when the text parses as one,
    otherwise the text itself. *)
Definition coerce_spec (text : string) : value :=
  if String.eqb text "true" then VBool true
  else if String.eqb text "false" then VBool false
  else if is_nan (string_to_number text) then VString text
       else VNumber (string_to_number text).

(** The key of a token. *)
Definition token_key (tok : string) : string :=
  first_field (split ":" tok).

(** The page at the moment [syncWithAnimation] probes the durations:
    the closure is allocated, the handlers are attached and
    [doBeforeAnimation] has run. *)
Definition at_probe (env : Env) (doBefore doAfter : Action) (i : nat)
    (w : World) : World :=
  run_action env doBefore i
    (attach (List.length (barriers w)) i
       (set_barriers (fun bs => (bs ++ [mkBarrier 0 doAfter i])%list) w)).

(** The eight names every barrier subscribes to and unsubscribes from. *)
Definition all_events : list AnimEvent :=
  (ANIMATIONSTART_EVENTS ++ ANIMATIONEND_EVENTS)%list.

(** What [syncWithAnimation] registers on an element for barrier [b]. *)
Definition armed_list (b : nat) : list (AnimEvent * Handler) :=
  (((fun ev => (ev, handleAnimationStart b)) <$> ANIMATIONSTART_EVENTS)
   ++ ((fun ev => (ev, handleAnimationEnd b)) <$> ANIMATIONEND_EVENTS))%list.

(** An element without animation listeners, and one that holds exactly
    the listeners of barrier [b]. *)
Definition quiet_element (el : Element) : Prop :=
  listeners el = [] ∧ namespaces el = [].

Definition armed_element (b : nat) (el : Element) : Prop :=
  listeners el = armed_list b ∧ namespaces el = armed_list b.

(** An element whose listeners are the entries of its table, one per
    name: the shape both helpers maintain. *)
Definition tidy (el : Element) : Prop :=
  listeners el = namespaces el ∧ NoDup (namespaces el).*1.

Definition quiet (e : Elem) (w : World) : Prop := quiet_element (elem e w).

Definition armed (b : nat) (e : Elem) (w : World) : Prop :=
  armed_element b (elem e w).

(** [e] is one of the four surfaces of instance [i]. *)
Definition surface_of (i : nat) (e : Elem) : Prop :=
  ∃ s : Surface, e = surface_elem i s.

Definition is_surface (i : nat) (e : Elem) : bool :=
  match e with
  | EBg | EOverlay => true
  | EWrapper j | EModal j => bool_decide (j = i)
  end.

(** The element belongs to the page: the shared ones always do, the
    others once their instance was constructed. *)
Definition present (e : Elem) (w : World) : Prop :=
  match e with
  | EBg | EOverlay => True
  | EWrapper i | EModal i => is_Some (lookup w !! i)
  end.

(** Instance [i] was constructed. *)
Definition alive (i : nat) (w : World) : Prop :=
  (i < List.length (lookup w))%nat.

(** The class changes of [setState] on one element. *)
Definition restyle (st : STATES) (element : Element) : Element :=
  addClasses (namespacify ["is"; state_name st])
    (removeClasses allStates element).

(** The loop over [['bg', 'overlay', 'wrapper', 'modal']]. *)
Definition on_surfaces (i : nat) (f : Element -> Element) (w : World) :
    World :=
  foldl (fun w elemName => update (surface_elem i elemName) f w) w surfaces.

(** The two worlds have the same listeners on every element. *)
Definition same_listeners (w w' : World) : Prop :=
  ∀ e, listeners (elem e w') = listeners (elem e w)
       ∧ namespaces (elem e w') = namespaces (elem e w).

(** What a continuation writes to the log. *)
Definition action_events (a : Action) (i : nat) : list Event :=
  match a with
  | SetOpening => [Assigned i OPENING; Triggered i OPENING None]
  | SetOpened => [Assigned i OPENED; Triggered i OPENED None]
  | SetClosing r => [Assigned i CLOSING; Triggered i CLOSING r]
  | FinishClose r => [Assigned i CLOSED; Triggered i CLOSED r]
  end.

(** The state a continuation leaves the instance in. *)
Definition action_state (a : Action) : STATES :=
  match a with
  | SetOpening => OPENING
  | SetOpened => OPENED
  | SetClosing _ => CLOSING
  | FinishClose _ => CLOSED
  end.

(** The part of the module and page state that only [open], [close] and
    the constructor write. *)
Definition page (w : World) : string * Z * option Z * gmap string value
                              * option nat :=
  (hash w, pageYOffset w, scrollTop w, DEFAULTS w, current w).

Definition screen (w : World) : gset string * Z :=
  (html w, body_padding_right w).

Ltac split_ifs :=
  repeat match goal with
         | |- context [if ?b then _ else _] => destruct b
         | |- context [match ?x with Some _ => _ | None => _ end] =>
             destruct x
         end.

(** An operation that is not a construction with an option [k]. *)
Definition leaves_option (k : string) (o : Op) : Prop :=
  match o with
  | OpRemodal _ opts => opts !! k = None
  | _ => True
  end.

(** The page of the scenario: one dialog [m] with hash tracking, no
    animation on any surface, the window scrolled to 500. *)
Definition still : Env := mkEnv false true (fun _ _ _ => "") (fun _ => 15).

Definition scrolled_page : World :=
  remodal still (Some "m") ∅ (initial false 0 "" 500).

(** A change of classes or of [display] on one element. *)
Definition keeps_listeners (f : Element → Element) : Prop :=
  ∀ el, listeners (f el) = listeners el ∧ namespaces (f el) = namespaces el.

(** No element of the page has an animation listener. *)
Definition idle (w : World) : Prop := ∀ e, quiet e w.

(** Barrier [b] of instance [c] is waiting with [n] running animations
    and continuation [a]: its handlers are on the four surfaces of [c]
    and nothing else listens. *)
Definition engaged (b c : nat) (n : Z) (a : Action) (w : World) : Prop :=
  alive c w
  ∧ barriers w !! b = Some (mkBarrier n a c)
  ∧ ∀ e, if is_surface c e then armed b e w else quiet e w.

(** The handlers' two effects on the page. *)
Definition counted (b : nat) (d : Z) (w : World) : World :=
  set_barriers (alter (add_count d) b) w.

Definition fire (env : Env) (b c : nat) (a : Action) (w : World) : World :=
  run_action env a c (emit (AfterAnimation b) (detach c w)).

(** An event qualifies for the barrier of instance [c] when it comes
    from one of the four surfaces itself. *)
Definition qualifies (c : nat) (target : Node) : bool :=
  match target with
  | Self e => is_surface c e
  | Inside _ => false
  end.

Definition handler_for (ph : Phase) (b : nat) : Handler :=
  match ph with
  | AnimStart => handleAnimationStart b
  | AnimEnd => handleAnimationEnd b
  end.

(** What a qualifying event does to a barrier that counts [n]. *)
Definition barrier_step (env : Env) (b c : nat) (a : Action) (n : Z)
    (ph : Phase) (w : World) : World :=
  match ph with
  | AnimStart => counted b 1 w
  | AnimEnd =>
      if n - 1 =? 0 then fire env b c a (counted b (-1) w)
      else counted b (-1) w
  end.

(** The delivery of an event to the listeners of one element of its
    path: the inner loop of [dispatch]. *)
Definition deliver (env : Env) (ev : AnimEvent) (target : Node)
    (this : Elem) (w : World) : World :=
  foldl (fun w p =>
           if bool_decide (p ∈ listeners (elem this w))
           then run_handler env p.2 this target w
           else w)
        w (filter (fun p => p.1 = ev) (listeners (elem this w))).

(** An animation event as the browser reports it: its type and the
    element it comes from. *)
Definition Signal : Type := AnimEvent * Node.

(** The browser delivers the events of a trace one after the other. *)
Definition animate (env : Env) (tr : list Signal) (w : World) : World :=
  foldl (fun w s => dispatch env s.1 s.2 w) w tr.

(** The change a trace makes to the count of running animations of the
    barrier of instance [c]: qualifying starts minus qualifying ends. *)
Fixpoint net (c : nat) (tr : list Signal) : Z :=
  match tr with
  | [] => 0
  | (ph, _, target) :: rest =>
      (if qualifies c target
       then match ph with AnimStart => 1 | AnimEnd => -1 end
       else 0) + net c rest
  end.

(** The position in the trace of the first qualifying end event whose
    decrement brings a count that starts at [n] to zero. *)
Fixpoint closing_signal (c : nat) (n : Z) (tr : list Signal) : option nat :=
  match tr with
  | [] => None
  | (ph, _, target) :: rest =>
      if qualifies c target then
        match ph with
        | AnimStart => S <$> closing_signal c (n + 1) rest
        | AnimEnd =>
            if n - 1 =? 0 then Some 0%nat
            else S <$> closing_signal c (n - 1) rest
        end
      else S <$> closing_signal c n rest
  end.

(** What was logged between two moments. *)
Definition since (w w' : World) : list Event :=
  drop (List.length (log w)) (log w').

(** How many times the continuation of barrier [b] was called. *)
Definition calls (b : nat) (l : list Event) : nat :=
  List.length (filter (fun e => e = AfterAnimation b) l).

(** A browser in which the dialog surface fades for 0.3s and no other
    surface is animated. *)
Definition fading : Env :=
  mkEnv false true
    (fun _ e p =>
       match e with
       | EModal _ =>
           if String.eqb p "animation-duration" then "0.3s"
           else if String.eqb p "animation-name" then "fade" else ""
       | _ => ""
       end)
    (fun _ => 15).

(** A page with one dialog [m], closed. *)
Definition one_dialog : World :=
  construct (Some "m") ∅ (initial false 0 "" 0).

(** Barrier [b] of the current instance [c] is waiting: the instance is
    in transit, the barrier is its own, and the only animation listeners
    of the page are those of [b], on surfaces of [c]. *)
Definition waiting (b c : nat) (w : World) : Prop :=
  current w = Some c
  ∧ alive c w
  ∧ (state_of c w = OPENING ∨ state_of c w = CLOSING)
  ∧ (∃ br, barriers w !! b = Some br ∧ owner br = c)
  ∧ ∀ e, if is_surface c e then armed b e w ∨ quiet e w else quiet e w.

(** The invariant of the page: every instance but the current one is
    closed, and either nothing listens to animations or the barrier of
    the current instance does. *)
Definition Inv (w : World) : Prop :=
  (∀ i, current w ≠ Some i → state_of i w = CLOSED)
  ∧ (idle w ∨ ∃ b c, waiting b c w).

(** The pages that a sequence of operations produces, every operation
    issued from the top level: the listeners of the notifications only
    observe (for listeners that call back see [open_notify]), and
    [destroy] is not among the operations. *)
Definition reachable (env : Env) (w : World) : Prop :=
  ∃ (locked : bool) (padding y : Z) (h : string) (ops : list Op),
    w = run_ops env ops (initial locked padding h y).


(** The stages of [open] before its barrier: the fragment and the scroll
    offset are noted, another current instance is halted, the dialog is
    shown. *)
Definition note_fragment (this : Instance) (w : World) : World :=
  match remodal_id this with
  | Some id =>
      if attr_truthy (Some id) && truthy (setting "hashTracking" w)
      then emit (HashWritten id)
             (set_hash id (set_scrollTop (Some (pageYOffset w)) w))
      else w
  | None => w
  end.

Definition displace (env : Env) (i : nat) (w : World) : World :=
  match current w with
  | Some c => if decide (c ≠ i) then halt env c w else w
  | None => w
  end.

Definition show (env : Env) (i : nat) (w : World) : World :=
  let w := set_current (Some i) w in
  let w := screenLockToggle env "lock" w in
  let w := update EBg (addClasses (modifier w)) w in
  let w := update EOverlay (addClasses (modifier w)) w in
  let w := update EOverlay (set_display "block") w in
  let w := update (EWrapper i) (set_display "block") w in
  let w := emit (WrapperScrolled i) w in
  emit (Focused i) w.

(** The stage of [close] before its barrier. *)
Definition clear_fragment (this : Instance) (w : World) : World :=
  if truthy (setting "hashTracking" w)
     && bool_decide (remodal_id this = Some (hash w))
  then emit (WindowScrolled 0)
         (set_pageYOffset 0 (emit (HashWritten "") (set_hash "" w)))
  else w.

(** What [halt] does to an instance that is not closed, after the
    listeners are gone. *)
Definition put_away (env : Env) (i : nat) (w : World) : World :=
  let w := update EBg (removeClasses (modifier w)) w in
  let w := update EOverlay (removeClasses (modifier w)) w in
  let w := update EOverlay hide w in
  let w := update (EWrapper i) hide w in
  screenLockToggle env "unlock" w.

(** The state notifications of instance [i] for state [st] in a piece of
    the log. *)
Definition is_trigger (i : nat) (st : STATES) (e : Event) : bool :=
  match e with
  | Triggered j s _ => bool_decide (j = i) && bool_decide (s = st)
  | _ => false
  end.

Definition notified (i : nat) (st : STATES) (l : list Event) : nat :=
  List.length (filter (fun e => is_trigger i st e = true) l).


(** One dialog, opened without animation. *)
Definition opened_dialog : World :=
  run_ops still [OpRemodal (Some "m") ∅; OpOpen 0%nat]
    (initial false 0 "" 0).

(** The options string after the two replacements of [parseOptions]. *)
Definition normalise (str : string) : string :=
  strip_around "," (strip_around ":" str).

(** No white space stands next to the delimiter [d] in [s]. *)
Fixpoint clean (d : ascii) (s : string) : bool :=
  match s with
  | String a t =>
      match t with
      | String b _ =>
          negb ((is_ws a && ascii_eqb b d) || (ascii_eqb a d && is_ws b))
          && clean d t
      | EmptyString => true
      end
  | EmptyString => true
  end.

Fixpoint all_ws (s : string) : bool :=
  match s with
  | String c t => is_ws c && all_ws t
  | EmptyString => true
  end.

Definition head_ws (s : string) : bool :=
  match s with
  | String c _ => is_ws c
  | EmptyString => false
  end.

(** The character [d] does not occur in [s]. *)
Fixpoint lacks (d : ascii) (s : string) : bool :=
  match s with
  | String c t => negb (ascii_eqb c d) && lacks d t
  | EmptyString => true
  end.

(** The value [parseOptions] stores for a token. *)
Definition token_value (tok : string) : value :=
  coerce_number (coerce_bool (second_field (split ":" tok))).

(** A class name as [classList] accepts it: not empty, without white
    space; the helpers also split at commas. *)
Fixpoint plain (s : string) : bool :=
  match s with
  | String c t => negb (is_ws c || ascii_eqb c ",") && plain t
  | EmptyString => true
  end.

Definition class_name_ok (s : string) : Prop :=
  s ≠ "" ∧ plain s = true.

(** The class of a state. *)
Definition state_class (st : STATES) : string :=
  namespacify ["is"; state_name st].

(** The class of the closed state. *)
Definition closedClass : string := namespacify ["is"; state_name CLOSED].

(** The count a barrier holds, when it exists. *)
Definition count_of (b : nat) (w : World) : option Z :=
  runningAnimationsCount <$> barriers w !! b.

(** The numbers [getAnimationDuration] compares, one for each entry of
    the duration list: duration times iteration count plus delay. *)
Definition animation_times (env : Env) (w : World) (el : Elem) :
    list number :=
  let duration :=
    split_comma_space
      (or_default (getPrefixedStyles env w el "animation-duration") "0s") in
  let delay :=
    split_comma_space
      (or_default (Some (getStyle env w el "animation-delay")) "0s") in
  let iterationCount :=
    split_comma_space
      (or_default (Some (getStyle env w el "animation-iteration-count"))
         "1") in
  (fun i => num_add (num_mul (float_at duration i)
                             (int_at iterationCount i))
                    (float_at delay i))
  <$> seq 0 (List.length duration).

(** A page whose root element does not carry the marker of the screen
    lock. *)
Definition unlocked (w : World) : Prop :=
  hasClass (html w) lockedClass = false.

(** Listeners that only observe. *)
Definition observers : Event → World → World := fun _ w => w.





(** A start and then an end of an animation of the dialog, and the same
    two signals the other way round. *)
Definition start_end : list Signal :=
  [((AnimStart, Std), Self (EModal 0)); ((AnimEnd, Std), Self (EModal 0))].

Definition end_start : list Signal :=
  [((AnimEnd, Std), Self (EModal 0)); ((AnimStart, Std), Self (EModal 0))].

(** *** The options string as the specification words it *)

(** White space off the left end and off the right end of a text. *)
Definition ltrim (s : string) : string := drop_ws s.

Fixpoint rtrim (s : string) : string :=
  match s with
  | String c t => if is_ws c && all_ws t then "" else String c (rtrim t)
  | EmptyString => ""
  end.

Definition trim_sides (l r : bool) (s : string) : string :=
  (if r then rtrim else id) ((if l then ltrim else id) s).

(** The pieces between the occurrences of a delimiter, without the white
    space that touches a delimiter: [l] tells whether a delimiter stands
    before the first piece, [r] whether one stands after the last. *)
Fixpoint trim_pieces (l r : bool) (pieces : list string) : list string :=
  match pieces with
  | [] => []
  | x :: rest =>
      match rest with
      | [] => [trim_sides l r x]
      | _ :: _ => trim_sides l true x :: trim_pieces true r rest
      end
  end.

(** [pieces.join(d)]. *)
Definition join (d : ascii) (pieces : list string) : string :=
  String.concat (String d "") pieces.

(** The tokens between the commas, each cut at its colons, the white
    space around commas and colons removed. *)
Fixpoint token_fields (l : bool) (toks : list string) : list (list string) :=
  match toks with
  | [] => []
  | t :: rest =>
      match rest with
      | [] => [trim_pieces l false (split ":" t)]
      | _ :: _ => trim_pieces l true (split ":" t) :: token_fields true rest
      end
  end.

Definition option_fields (str : string) : list (list string) :=
  token_fields false (split "," str).

(** The value of a token by the coercion rule; a token without a colon
    has none. *)
Definition field_value (fields : list string) : value :=
  match fields !! 1%nat with
  | Some text => coerce_spec text
  | None => VUndefined
  end.

(** A browser in which the background pulses three times for 0.1s,
    0.3s before the start. *)
Definition pulsing : Env :=
  mkEnv false true
    (fun _ e p =>
       match e with
       | EBg =>
           if String.eqb p "animation-duration" then "0.1s"
           else if String.eqb p "animation-iteration-count" then "3"
           else if String.eqb p "animation-delay" then "-0.3s"
           else if String.eqb p "animation-name" then "pulse" else ""
       | _ => ""
       end)
    (fun _ => 15).

End Spec.

(** * Properties *)

(** ** The options string *)

Module OptionsProps.
Import JS Helpers Remodal Spec.
Local Open Scope list_scope.

Lemma coerce_refines (text : string) :
  coerce_number (coerce_bool (VString text)) = coerce_spec text.
Proof.
  unfold coerce_spec; cbn.
  destruct (String.eqb text "true"); [reflexivity|].
  destruct (String.eqb text "false"); reflexivity.
Qed.

Lemma obj_set_other (k k' : string) (v : value) (o : gmap string value) :
  k ≠ k' → obj_set k v o !! k' = o !! k'.
Proof.
  intros Hne. unfold obj_set.
  destruct (String.eqb k "__proto__"); [reflexivity|].
  by rewrite lookup_insert_ne.
Qed.

Lemma obj_set_same (k : string) (v : value) (o : gmap string value) :
  k ≠ "__proto__" → obj_set k v o !! k = Some v.
Proof.
  intros Hk. unfold obj_set.
  destruct (String.eqb_spec k "__proto__") as [->|_]; [done|].
  apply lookup_insert_eq.
Qed.

Lemma parse_token_other (obj : gmap string value) (tok k : string) :
  token_key tok ≠ k → parse_token obj tok !! k = obj !! k.
Proof. intros Hne. unfold parse_token. by apply obj_set_other. Qed.

Lemma foldl_parse_other (toks : list string) (obj : gmap string value)
    (k : string) :
  Forall (fun t => token_key t ≠ k) toks →
  foldl parse_token obj toks !! k = obj !! k.
Proof.
  intros H. revert obj.
  induction H as [|t toks Ht _ IH]; intros obj; cbn; [reflexivity|].
  rewrite IH. by apply parse_token_other.
Qed.

End OptionsProps.

(** ** What each operation leaves alone *)

Module Frames.
Import JS Helpers Remodal Spec.
Local Open Scope list_scope.

Section WithEnv.
Context (env : Env).

Lemma page_update e f w : page (update e f w) = page w.
Proof. by destruct e. Qed.

Lemma page_detach i w : page (detach i w) = page w.
Proof. reflexivity. Qed.

Lemma page_attach b i w : page (attach b i w) = page w.
Proof. reflexivity. Qed.

Lemma page_screenLockToggle a w : page (screenLockToggle env a w) = page w.
Proof. unfold screenLockToggle. by split_ifs. Qed.

Lemma page_setState i st silent r w :
  page (setState i st silent r w) = page w.
Proof. unfold setState. by destruct silent. Qed.

Lemma page_run_action a i w : page (run_action env a i w) = page w.
Proof.
  destruct a; cbn [run_action]; rewrite ?page_setState; try reflexivity.
  by rewrite page_screenLockToggle.
Qed.

Lemma syncWithAnimation_eq a1 a2 i w :
  syncWithAnimation env a1 a2 i w =
  let w' := at_probe env a1 a2 i w in
  if no_animation env i w'
  then run_action env a2 i
         (emit (AfterAnimation (List.length (barriers w))) (detach i w'))
  else w'.
Proof. reflexivity. Qed.

Lemma page_at_probe a1 a2 i w : page (at_probe env a1 a2 i w) = page w.
Proof. unfold at_probe. by rewrite page_run_action. Qed.

Lemma page_syncWithAnimation a1 a2 i w :
  page (syncWithAnimation env a1 a2 i w) = page w.
Proof.
  rewrite syncWithAnimation_eq. cbv zeta.
  destruct (no_animation env i _); [|apply page_at_probe].
  rewrite page_run_action. apply page_at_probe.
Qed.

Lemma page_halt i w : page (halt env i w) = page w.
Proof.
  unfold halt. split_ifs; [reflexivity|].
  by rewrite page_setState, page_screenLockToggle.
Qed.

Lemma page_run_handler h this target w :
  page (run_handler env h this target w) = page w.
Proof.
  unfold run_handler. destruct h; split_ifs; try reflexivity.
  by rewrite page_run_action.
Qed.

Lemma page_dispatch ev target w :
  page (dispatch env ev target w) = page w.
Proof.
  unfold dispatch. revert w.
  induction (path target) as [|this l IH]; intros w; [reflexivity|].
  cbn [foldl]. rewrite IH. clear IH.
  generalize (filter (λ p : AnimEvent * Handler, p.1 = ev)
                (listeners (elem this w))).
  intros hs. revert w. induction hs as [|p hs IH]; intros w; [reflexivity|].
  cbn [foldl]. rewrite IH. split_ifs; [|reflexivity].
  apply page_run_handler.
Qed.

End WithEnv.

End Frames.

(** ** The shared defaults *)

Module DefaultsProps.
Import JS Helpers Remodal Spec Frames.
Local Open Scope list_scope.

Section WithEnv.
Context (env : Env).

Lemma DEFAULTS_page w w' : page w' = page w → DEFAULTS w' = DEFAULTS w.
Proof. unfold page. congruence. Qed.

Lemma DEFAULTS_open i w : DEFAULTS (open env i w) = DEFAULTS w.
Proof.
  unfold open. destruct (lookup w !! i) as [this|]; [|reflexivity].
  destruct (decide _); [reflexivity|].
  cbv zeta. erewrite DEFAULTS_page by apply page_syncWithAnimation.
  cbn. erewrite DEFAULTS_page by apply page_screenLockToggle.
  cbn. destruct (current _) as [c|].
  - destruct (decide (c ≠ i)).
    + erewrite DEFAULTS_page by apply page_halt.
      destruct (remodal_id this); [|reflexivity].
      by destruct (_ && _).
    + destruct (remodal_id this); [|reflexivity].
      by destruct (_ && _).
  - destruct (remodal_id this); [|reflexivity].
    by destruct (_ && _).
Qed.

Lemma DEFAULTS_close i r w : DEFAULTS (close env i r w) = DEFAULTS w.
Proof.
  unfold close. destruct (lookup w !! i) as [this|]; [|reflexivity].
  destruct (decide _); [reflexivity|].
  cbv zeta. erewrite DEFAULTS_page by apply page_syncWithAnimation.
  by destruct (_ && _).
Qed.

Lemma DEFAULTS_construct id opts w :
  DEFAULTS (construct id opts w) = assign (DEFAULTS w) opts.
Proof. unfold construct. cbv zeta. by destruct (hasClass _ _). Qed.

Lemma DEFAULTS_remodal id opts w :
  DEFAULTS (remodal env id opts w) = assign (DEFAULTS w) opts.
Proof.
  unfold remodal. cbv zeta. destruct (_ && _).
  - by rewrite DEFAULTS_open, DEFAULTS_construct.
  - apply DEFAULTS_construct.
Qed.

Lemma assign_lookup_Some (target source : gmap string value) k v :
  source !! k = Some v → k ≠ "__proto__" → assign target source !! k = Some v.
Proof.
  intros Hs Hk. unfold assign. apply lookup_union_Some_l.
  by rewrite lookup_delete_ne.
Qed.

Lemma assign_lookup_None (target source : gmap string value) k :
  source !! k = None → assign target source !! k = target !! k.
Proof.
  intros Hs. unfold assign. apply lookup_union_r.
  destruct (decide ("__proto__" = k)) as [->|Hne].
  - apply lookup_delete_eq.
  - by rewrite lookup_delete_ne.
Qed.

Lemma DEFAULTS_run_op o k w :
  leaves_option k o → DEFAULTS (run_op env o w) !! k = DEFAULTS w !! k.
Proof.
  destruct o; cbn [run_op leaves_option]; intros Hk.
  - rewrite DEFAULTS_remodal. by apply assign_lookup_None.
  - by rewrite DEFAULTS_open.
  - by rewrite DEFAULTS_close.
  - unfold click_close. by rewrite DEFAULTS_close.
  - unfold click_cancel. cbv zeta. destruct (truthy _); [|reflexivity].
    by rewrite DEFAULTS_close.
  - unfold click_confirm. cbv zeta. destruct (truthy _); [|reflexivity].
    by rewrite DEFAULTS_close.
  - unfold click_wrapper. destruct (negb _); [reflexivity|].
    destruct (truthy _); [|reflexivity]. by rewrite DEFAULTS_close.
  - unfold keydown. destruct (current w); [|reflexivity].
    destruct (_ && _); [|reflexivity]. by rewrite DEFAULTS_close.
  - unfold handleHashChangeEvent. cbv zeta.
    destruct (String.eqb h "").
    + cbn [current set_hash]. destruct (current w); [|reflexivity].
      destruct (_ && _); [|reflexivity]. by rewrite DEFAULTS_close.
    + destruct (find_id _ _); [|reflexivity].
      destruct (truthy _); [|reflexivity]. by rewrite DEFAULTS_open.
  - apply (f_equal (fun d => d !! k)).
    apply DEFAULTS_page, page_dispatch.
Qed.

Lemma DEFAULTS_run_ops ops k w :
  Forall (leaves_option k) ops →
  DEFAULTS (run_ops env ops w) !! k = DEFAULTS w !! k.
Proof.
  intros H. revert w. unfold run_ops.
  induction H as [|o ops Ho _ IH]; intros w; [reflexivity|].
  cbn [foldl]. rewrite IH. by apply DEFAULTS_run_op.
Qed.

End WithEnv.

(** C10. The constructor merges the options into the module's [DEFAULTS]
    object itself, and the settings of every instance are that object: an
    option given to one construction is in the settings read by an
    instance constructed later without it, whatever happens in between
    short of a construction that gives the option again. With the
    module's own defaults, a first dialog made with a modifier leaves the
    second one, made with no option, with that modifier and not with the
    default empty one. *)
Theorem defaults_mutated_by_construction :
  (∀ (env : Env) (w : World) (id1 id2 : option string)
     (options1 options2 : gmap string value) (between : list Op)
     (k : string) (v : value),
      options1 !! k = Some v →
      k ≠ "__proto__" →
      options2 !! k = None →
      Forall (leaves_option k) between →
      DEFAULTS (remodal env id1 options1 w) !! k = Some v
      ∧ setting k
          (remodal env id2 options2
             (run_ops env between (remodal env id1 options1 w))) = v)
  ∧ (∀ env : Env,
       let w2 :=
         remodal env None ∅
           (remodal env None {["modifier" := VString "dark"]}
              (initial false 0 "" 0)) in
       setting "modifier" w2 = VString "dark"
       ∧ assign DEFAULTS0 ∅ !! "modifier" = Some (VString "")).
Proof.
  split.
  - intros env w id1 id2 o1 o2 between k v H1 Hk H2 Hbetween.
    split.
    + rewrite DEFAULTS_remodal. by apply assign_lookup_Some.
    + unfold setting. rewrite DEFAULTS_remodal.
      rewrite assign_lookup_None by done.
      rewrite DEFAULTS_run_ops by done.
      rewrite DEFAULTS_remodal.
      by rewrite (assign_lookup_Some _ _ k v).
  - intros env w2. split; [|reflexivity].
    unfold setting, w2. rewrite !DEFAULTS_remodal. reflexivity.
Qed.

Lemma defaults_mutated_by_construction_witness :
  setting "modifier"
    (remodal (mkEnv false true (fun _ _ _ => "") (fun _ => 0)) None ∅
       (run_ops (mkEnv false true (fun _ _ _ => "") (fun _ => 0))
          [OpOpen 0%nat]
          (remodal (mkEnv false true (fun _ _ _ => "") (fun _ => 0)) None
             {["modifier" := VString "dark"]} (initial false 0 "" 0))))
  = VString "dark".
Proof.
  apply (proj1 defaults_mutated_by_construction
           (mkEnv false true (fun _ _ _ => "") (fun _ => 0))
           (initial false 0 "" 0) None None
           {["modifier" := VString "dark"]} ∅ [OpOpen 0%nat]
           "modifier" (VString "dark")).
  - reflexivity.
  - discriminate.
  - reflexivity.
  - repeat constructor.
Defined.

End DefaultsProps.

(** ** The screen lock, the fragment and the scroll offset *)

Module ScreenProps.
Import JS Helpers Remodal Spec Frames.
Local Open Scope list_scope.

Lemma class_names_lockedClass : class_names lockedClass = [lockedClass].
Proof. reflexivity. Qed.

Lemma hasClass_false (s : gset string) c : hasClass s c = false ↔ c ∉ s.
Proof.
  unfold hasClass. rewrite bool_decide_eq_false. reflexivity.
Qed.

Lemma ios_skips_the_lock env action w :
  IS_IOS env = true → screenLockToggle env action w = w.
Proof. intros H. unfold screenLockToggle. by rewrite H. Qed.

Lemma unlock_without_marker env action w :
  hasClass (html w) lockedClass = false → screenLockToggle env action w = w.
Proof.
  intros H. unfold screenLockToggle. rewrite H. by destruct (IS_IOS env).
Qed.

Lemma unlock_removes_marker env w :
  IS_IOS env = false →
  hasClass (html (screenLockToggle env "unlock" w)) lockedClass = false.
Proof.
  intros Hios. unfold screenLockToggle. rewrite Hios.
  destruct (hasClass (html w) lockedClass) eqn:Hm; [|exact Hm].
  cbn -[lockedClass class_names]. rewrite class_names_lockedClass.
  apply hasClass_false. rewrite elem_of_difference. intros [_ Hn].
  apply Hn, elem_of_list_to_set, list_elem_of_here.
Qed.

Lemma unlock_idempotent env w :
  screenLockToggle env "unlock" (screenLockToggle env "unlock" w)
  = screenLockToggle env "unlock" w.
Proof.
  destruct (IS_IOS env) eqn:Hios.
  - by rewrite !ios_skips_the_lock.
  - apply unlock_without_marker. by apply unlock_removes_marker.
Qed.

(** C7. On a page that is not locked, [screenLockToggle('lock')] does
    nothing: the test that guards both directions asks for the marker to
    be there. On a page that carries the marker each further
    [screenLockToggle('lock')] takes the scrollbar width off the padding
    again. *)
Theorem lock_needs_the_marker :
  ∀ (anim : bool) (style : World → Elem → string → string) (width p y : Z)
    (h : string),
    let env := mkEnv false anim style (fun _ => width) in
    let locked := initial true p h y in
    screenLockToggle env "lock" (initial false p h y) = initial false p h y
    ∧ body_padding_right (screenLockToggle env "lock" locked) = p - width
    ∧ body_padding_right
        (screenLockToggle env "lock" (screenLockToggle env "lock" locked))
      = p - width - width.
Proof.
  intros anim style width p y h env locked.
  split; [reflexivity|]. split; reflexivity.
Qed.

Section Close.
Context (env : Env).

Lemma hash_page w w' : page w' = page w → hash w' = hash w.
Proof. unfold page. congruence. Qed.

Lemma pageYOffset_page w w' :
  page w' = page w → pageYOffset w' = pageYOffset w.
Proof. unfold page. congruence. Qed.

Lemma scrollTop_page w w' : page w' = page w → scrollTop w' = scrollTop w.
Proof. unfold page. congruence. Qed.

(** What [close] does to the fragment and to the scroll offset of the
    window: with hash tracking and the fragment on this dialog, the
    fragment is cleared and the window goes to the top; otherwise both
    stay. *)
Lemma close_fragment_and_scroll i reason w this :
  lookup w !! i = Some this →
  state this = OPENED →
  let w' := close env i reason w in
  if truthy (setting "hashTracking" w)
     && bool_decide (remodal_id this = Some (hash w))
  then hash w' = "" ∧ pageYOffset w' = 0
  else hash w' = hash w ∧ pageYOffset w' = pageYOffset w.
Proof.
  intros Hi Hst w'. unfold w', close. rewrite Hi.
  destruct (decide _) as [[H|[H|H]]|_]; try congruence.
  cbv zeta.
  rewrite (hash_page _ _ (page_syncWithAnimation env _ _ _ _)).
  rewrite (pageYOffset_page _ _ (page_syncWithAnimation env _ _ _ _)).
  by destruct (_ && _).
Qed.

End Close.

(** C6. A dialog with hash tracking is opened while the window is at
    offset 500 and closed again: [open] records 500 in [scrollTop] and
    writes the fragment; [close] finds the fragment on the dialog, clears
    it, and sends the window to offset 0. The recorded 500 is never read. *)
Theorem close_scrolls_to_top :
  let opened := open still 0 scrolled_page in
  let closed := close still 0 None opened in
  state_of 0 opened = OPENED
  ∧ scrollTop opened = Some 500 ∧ hash opened = "m"
  ∧ pageYOffset opened = 500
  ∧ state_of 0 closed = CLOSED
  ∧ hash closed = "" ∧ scrollTop closed = Some 500
  ∧ pageYOffset closed = 0.
Proof. vm_compute. repeat split; reflexivity. Qed.

End ScreenProps.

(** ** Listeners of one element *)

Module ListenerProps.
Import JS Helpers Remodal Spec Frames.
Local Open Scope list_scope.

Lemma every_event (ev : AnimEvent) : ev ∈ all_events.
Proof.
  destruct ev as [[] []]; unfold all_events; cbn;
    repeat first [apply list_elem_of_here | apply list_elem_of_further].
Qed.

Lemma classList_removeNS evs el :
  classList (removeNSEventListener evs el) = classList el
  ∧ display (removeNSEventListener evs el) = display el.
Proof.
  unfold removeNSEventListener. revert el.
  induction evs as [|ev evs IH]; intros el; [done|].
  cbn [foldl]. destruct (IH (removeSingleNSEvent el ev)) as [-> ->]. done.
Qed.

Lemma classList_addNS evs cb el :
  classList (addNSEventListener evs cb el) = classList el
  ∧ display (addNSEventListener evs cb el) = display el.
Proof.
  unfold addNSEventListener. revert el.
  induction evs as [|ev evs IH]; intros el; [done|].
  cbn [foldl]. destruct (IH (addSingleNSEvent cb el ev)) as [-> ->]. done.
Qed.

Lemma filter_all {A} (P : A → Prop) `{∀ x, Decision (P x)} (l : list A) :
  (∀ x, x ∈ l → P x) → filter P l = l.
Proof.
  induction l as [|x l IH]; intros Hall; [reflexivity|].
  rewrite filter_cons_True by (apply Hall, list_elem_of_here).
  f_equal. apply IH. intros y Hy. by apply Hall, list_elem_of_further.
Qed.

Lemma filter_none {A} (P : A → Prop) `{∀ x, Decision (P x)} (l : list A) :
  (∀ x, x ∈ l → ¬ P x) → filter P l = [].
Proof.
  induction l as [|x l IH]; intros Hall; [reflexivity|].
  rewrite filter_cons_False by (apply Hall, list_elem_of_here).
  apply IH. intros y Hy. by apply Hall, list_elem_of_further.
Qed.

Lemma filter_agree {A} (P Q : A → Prop) `{∀ x, Decision (P x)}
    `{∀ x, Decision (Q x)} (l : list A) :
  (∀ x, x ∈ l → P x ↔ Q x) → filter P l = filter Q l.
Proof.
  induction l as [|x l IH]; intros Hall; [reflexivity|].
  rewrite !filter_cons.
  rewrite IH by (intros y Hy; by apply Hall, list_elem_of_further).
  pose proof (Hall x (list_elem_of_here _ _)) as Hx.
  destruct (decide (P x)) as [HP|HP], (decide (Q x)) as [HQ|HQ];
    first [reflexivity | tauto].
Qed.

Lemma unique_key {A B} (l : list (A * B)) x y1 y2 :
  NoDup l.*1 → (x, y1) ∈ l → (x, y2) ∈ l → y1 = y2.
Proof.
  induction l as [|[a b] l IH]; cbn; [intros _ H; by inversion H|].
  intros [Hnot Hnd]%NoDup_cons H1 H2.
  apply elem_of_cons in H1 as [H1|H1]; apply elem_of_cons in H2 as [H2|H2].
  - congruence.
  - exfalso. apply Hnot. apply list_elem_of_fmap. exists (x, y2).
    split; [cbn; congruence|done].
  - exfalso. apply Hnot. apply list_elem_of_fmap. exists (x, y1).
    split; [cbn; congruence|done].
  - by apply IH.
Qed.

Lemma NoDup_keys_filter {A B} (P : A * B → Prop) `{∀ x, Decision (P x)}
    (l : list (A * B)) :
  NoDup l.*1 → NoDup (filter P l).*1.
Proof.
  intros Hnd. eapply sublist_NoDup; [exact Hnd|].
  apply fmap_sublist, sublist_filter.
Qed.

(** After [removeNSEventListener] the table holds the names that were not
    asked for. *)
Lemma namespaces_removeNS evs el :
  namespaces (removeNSEventListener evs el)
  = filter (fun p => p.1 ∉ evs) (namespaces el).
Proof.
  unfold removeNSEventListener. revert el.
  induction evs as [|ev evs IH]; intros el.
  - cbn. symmetry. apply filter_all. intros p _. apply not_elem_of_nil.
  - cbn [foldl]. rewrite IH. cbn [removeSingleNSEvent namespaces].
    unfold ns_delete. rewrite list_filter_filter.
    apply list_filter_iff. intros p. rewrite not_elem_of_cons. tauto.
Qed.

Lemma ns_get_Some ev cb ns : ns_get ev ns = Some cb → (ev, cb) ∈ ns.
Proof.
  induction ns as [|[e c] ns IH]; cbn; [done|].
  destruct (decide (e = ev)) as [->|_].
  - intros [= ->]. apply list_elem_of_here.
  - intros H. apply list_elem_of_further. auto.
Qed.

Lemma ns_get_None ev ns : ns_get ev ns = None → ∀ p, p ∈ ns → p.1 ≠ ev.
Proof.
  induction ns as [|[e c] ns IH]; cbn; [intros _ p Hp; by inversion Hp|].
  destruct (decide (e = ev)) as [->|Hne]; [done|].
  intros H p [->|Hp]%elem_of_cons; [done|]. by apply IH.
Qed.

Lemma tidy_removeSingle el ev : tidy el → tidy (removeSingleNSEvent el ev).
Proof.
  intros [Heq Hnd]. split; cbn [removeSingleNSEvent listeners namespaces].
  - rewrite Heq. unfold ns_delete.
    destruct (ns_get ev (namespaces el)) as [cb|] eqn:Hget.
    + unfold removeEventListener. apply filter_agree. intros [e c] Hp. cbn.
      split; [|intros H [= -> ->]; done].
      intros Hne ->. apply Hne. f_equal.
      eapply unique_key; [exact Hnd|exact Hp|]. by apply ns_get_Some.
    + symmetry. apply filter_all. intros p Hp.
      by apply (ns_get_None ev (namespaces el)).
  - by apply NoDup_keys_filter.
Qed.

Lemma tidy_removeNS evs el : tidy el → tidy (removeNSEventListener evs el).
Proof.
  unfold removeNSEventListener. revert el.
  induction evs as [|ev evs IH]; intros el Hel; [exact Hel|].
  cbn [foldl]. by apply IH, tidy_removeSingle.
Qed.

(** Unsubscribing the eight names from a tidy element leaves it without
    animation listeners. *)
Lemma removeNS_all_quiet el :
  tidy el → quiet_element (removeNSEventListener all_events el).
Proof.
  intros Hel. destruct (tidy_removeNS all_events el Hel) as [Heq _].
  assert (namespaces (removeNSEventListener all_events el) = []) as Hns.
  { rewrite namespaces_removeNS. apply filter_none.
    intros p _ Hp. apply Hp, every_event. }
  split; [by rewrite Heq|exact Hns].
Qed.

Lemma quiet_tidy el : quiet_element el → tidy el.
Proof. intros [Hl Hn]. split; rewrite ?Hl, Hn; [done|constructor]. Qed.

Lemma armed_tidy b el : armed_element b el → tidy el.
Proof.
  intros [Hl Hn]. split; rewrite ?Hl, Hn; [done|].
  apply (bool_decide_unpack _). by vm_compute.
Qed.

(** Subscribing barrier [b] on an element without listeners. *)
Lemma addNS_quiet_armed b el :
  quiet_element el →
  armed_element b
    (addNSEventListener ANIMATIONEND_EVENTS (handleAnimationEnd b)
       (addNSEventListener ANIMATIONSTART_EVENTS (handleAnimationStart b)
          el)).
Proof.
  destruct el as [c d l n]. intros [Hl Hn]; cbn in Hl, Hn; subst.
  split; reflexivity.
Qed.

End ListenerProps.

(** ** Elements and instances through the operations *)

Module WorldProps.
Import JS Helpers Remodal Spec Frames ListenerProps.
Local Open Scope list_scope.

Lemma is_surface_spec i e : is_surface i e = true ↔ surface_of i e.
Proof.
  split.
  - destruct e as [| |j|j]; cbn; intros H.
    + by exists Bg.
    + by exists Overlay.
    + apply bool_decide_eq_true in H as ->. by exists Wrapper.
    + apply bool_decide_eq_true in H as ->. by exists Modal.
  - intros [[] ->]; cbn; try reflexivity; by apply bool_decide_eq_true.
Qed.

Lemma state_of_update j e f w : state_of j (update e f w) = state_of j w.
Proof.
  unfold state_of. destruct e as [| |i|i]; try reflexivity; cbn;
    (destruct (decide (i = j)) as [->|Hne];
     [rewrite list_lookup_alter_eq; by destruct (lookup w !! j)
     |by rewrite list_lookup_alter_ne]).
Qed.

Lemma remodal_id_update j e f w :
  remodal_id <$> lookup (update e f w) !! j = remodal_id <$> lookup w !! j.
Proof.
  destruct e as [| |i|i]; try reflexivity; cbn;
    (destruct (decide (i = j)) as [->|Hne];
     [rewrite list_lookup_alter_eq; by destruct (lookup w !! j)
     |by rewrite list_lookup_alter_ne]).
Qed.

Lemma length_lookup_update e f w :
  List.length (lookup (update e f w)) = List.length (lookup w).
Proof. destruct e; try reflexivity; cbn; apply length_alter. Qed.

Lemma present_length e w w' :
  List.length (lookup w') = List.length (lookup w) →
  present e w → present e w'.
Proof.
  intros Hlen. destruct e as [| |i|i]; cbn; try done;
    rewrite !lookup_lt_is_Some; lia.
Qed.

Lemma barriers_update e f w : barriers (update e f w) = barriers w.
Proof. by destruct e. Qed.

Lemma log_update e f w : log (update e f w) = log w.
Proof. by destruct e. Qed.

Lemma screen_update e f w : screen (update e f w) = screen w.
Proof. by destruct e. Qed.

Lemma elem_update_same e f w :
  present e w → elem e (update e f w) = f (elem e w).
Proof.
  destruct e as [| |i|i]; cbn; try reflexivity;
    intros [x Hx]; rewrite list_lookup_alter_eq, Hx; reflexivity.
Qed.

Lemma elem_update_other e e' f w :
  e ≠ e' → elem e (update e' f w) = elem e w.
Proof.
  intros Hne. destruct e as [| |i|i], e' as [| |j|j]; try reflexivity;
    try congruence; cbn.
  - destruct (decide (j = i)) as [->|Hji]; [congruence|].
    by rewrite list_lookup_alter_ne.
  - destruct (decide (j = i)) as [->|Hji].
    + rewrite list_lookup_alter_eq. by destruct (lookup w !! i).
    + by rewrite list_lookup_alter_ne.
  - destruct (decide (j = i)) as [->|Hji].
    + rewrite list_lookup_alter_eq. by destruct (lookup w !! i).
    + by rewrite list_lookup_alter_ne.
  - destruct (decide (j = i)) as [->|Hji]; [congruence|].
    by rewrite list_lookup_alter_ne.
Qed.

(** *** The loop over the four surfaces *)

Section Loop.
Context (i : nat) (f : Element → Element).

Lemma state_of_on_surfaces j w :
  state_of j (on_surfaces i f w) = state_of j w.
Proof.
  unfold on_surfaces, surfaces. cbn [foldl]. by rewrite !state_of_update.
Qed.

Lemma length_lookup_on_surfaces w :
  List.length (lookup (on_surfaces i f w)) = List.length (lookup w).
Proof.
  unfold on_surfaces, surfaces. cbn [foldl].
  by rewrite !length_lookup_update.
Qed.

Lemma remodal_id_on_surfaces j w :
  remodal_id <$> lookup (on_surfaces i f w) !! j
  = remodal_id <$> lookup w !! j.
Proof.
  unfold on_surfaces, surfaces. cbn [foldl]. by rewrite !remodal_id_update.
Qed.

Lemma page_on_surfaces w : page (on_surfaces i f w) = page w.
Proof. reflexivity. Qed.

Lemma screen_on_surfaces w : screen (on_surfaces i f w) = screen w.
Proof. reflexivity. Qed.

Lemma barriers_on_surfaces w : barriers (on_surfaces i f w) = barriers w.
Proof. reflexivity. Qed.

Lemma log_on_surfaces w : log (on_surfaces i f w) = log w.
Proof. reflexivity. Qed.

Lemma elem_on_surfaces_other e w :
  is_surface i e = false → elem e (on_surfaces i f w) = elem e w.
Proof.
  intros He. unfold on_surfaces, surfaces. cbn [foldl].
  rewrite !elem_update_other; [reflexivity|..];
    intros ->; cbn in He; try discriminate;
    by rewrite bool_decide_eq_false in He.
Qed.

Lemma elem_on_surfaces e w :
  is_surface i e = true → present e w →
  elem e (on_surfaces i f w) = f (elem e w).
Proof.
  intros He Hp. unfold on_surfaces, surfaces. cbn [foldl surface_elem].
  destruct e as [| |j|j]; cbn in He;
    try (apply bool_decide_eq_true in He as ->).
  - rewrite !elem_update_other by discriminate.
    by rewrite elem_update_same.
  - rewrite !elem_update_other by discriminate.
    rewrite elem_update_same by done.
    by rewrite elem_update_other by discriminate.
  - rewrite elem_update_other by discriminate.
    rewrite elem_update_same.
    + by rewrite !elem_update_other by discriminate.
    + eapply present_length; [|exact Hp]. reflexivity.
  - rewrite elem_update_same.
    + by rewrite !elem_update_other by discriminate.
    + eapply present_length; [|exact Hp]. cbn. by rewrite length_alter.
Qed.

End Loop.

End WorldProps.

(** ** The building blocks of [open] and [close] *)

Module OpProps.
Import JS Helpers Remodal Spec Frames ListenerProps WorldProps.
Local Open Scope list_scope.

Lemma same_listeners_refl w : same_listeners w w.
Proof. by intros e. Qed.

Lemma same_listeners_trans w1 w2 w3 :
  same_listeners w1 w2 → same_listeners w2 w3 → same_listeners w1 w3.
Proof.
  intros H12 H23 e. destruct (H12 e) as [<- <-], (H23 e) as [<- <-]. done.
Qed.

Lemma same_listeners_quiet w w' e :
  same_listeners w w' → quiet e w → quiet e w'.
Proof. intros H [Hl Hn]. destruct (H e) as [Hl' Hn']. split; congruence. Qed.

Lemma same_listeners_armed w w' b e :
  same_listeners w w' → armed b e w → armed b e w'.
Proof. intros H [Hl Hn]. destruct (H e) as [Hl' Hn']. split; congruence. Qed.

Lemma alive_present i e w : alive i w → is_surface i e = true → present e w.
Proof.
  intros Hi He. destruct e as [| |j|j]; cbn in *; try done;
    apply bool_decide_eq_true in He as ->; by apply lookup_lt_is_Some.
Qed.

Lemma absent_quiet i w : ¬ alive i w → quiet (EWrapper i) w ∧ quiet (EModal i) w.
Proof.
  intros Hi. unfold quiet, alive in *. cbn.
  rewrite (lookup_ge_None_2 (lookup w) i) by lia. done.
Qed.

Lemma keeps_addClasses c : keeps_listeners (addClasses c).
Proof. done. Qed.

Lemma keeps_removeClasses c : keeps_listeners (removeClasses c).
Proof. done. Qed.

Lemma keeps_set_display d : keeps_listeners (set_display d).
Proof. done. Qed.

Lemma keeps_hide : keeps_listeners hide.
Proof. done. Qed.

Lemma keeps_restyle st : keeps_listeners (restyle st).
Proof. done. Qed.

Lemma elem_update_cases e f w :
  elem e (update e f w) = f (elem e w) ∨ elem e (update e f w) = elem e w.
Proof.
  destruct e as [| |i|i]; cbn; try (by left);
    rewrite list_lookup_alter_eq; destruct (lookup w !! i); cbn; auto.
Qed.

Lemma same_listeners_update e f w :
  keeps_listeners f → same_listeners w (update e f w).
Proof.
  intros Hf e0. destruct (decide (e0 = e)) as [->|Hne].
  - destruct (elem_update_cases e f w) as [-> | ->]; [apply Hf|done].
  - by rewrite elem_update_other.
Qed.

Lemma same_listeners_on_surfaces i f w :
  keeps_listeners f → same_listeners w (on_surfaces i f w).
Proof.
  intros Hf. unfold on_surfaces, surfaces. cbn [foldl].
  repeat (eapply same_listeners_trans;
          [|apply same_listeners_update, Hf]).
  apply same_listeners_refl.
Qed.

Lemma elem_set_state e st i w :
  elem e (set_lookup (alter (set_state st) i) w) = elem e w.
Proof.
  destruct e as [| |j|j]; try reflexivity; cbn;
    (destruct (decide (i = j)) as [->|Hne];
     [rewrite list_lookup_alter_eq; by destruct (lookup w !! j)
     |by rewrite list_lookup_alter_ne]).
Qed.

Lemma state_of_set_state j st i w :
  alive i w →
  state_of j (set_lookup (alter (set_state st) i) w)
  = if decide (j = i) then st else state_of j w.
Proof.
  intros Hi. unfold state_of. cbn. destruct (decide (j = i)) as [->|Hne].
  - rewrite list_lookup_alter_eq.
    apply lookup_lt_is_Some in Hi as [x ->]. reflexivity.
  - by rewrite list_lookup_alter_ne.
Qed.

Section WithEnv.
Context (env : Env).

(** *** [setState] *)

Lemma setState_eq i st silent r w :
  setState i st silent r w =
  let w1 :=
    emit (Assigned i st)
      (set_lookup (alter (set_state st) i) (on_surfaces i (restyle st) w)) in
  if silent then w1 else emit (Triggered i st r) w1.
Proof. reflexivity. Qed.

Lemma elem_setState e i st silent r w :
  elem e (setState i st silent r w) = elem e (on_surfaces i (restyle st) w).
Proof.
  rewrite setState_eq. cbv zeta.
  destruct silent; destruct e; cbn [elem emit lookup bg overlay];
    try reflexivity;
    change (lookup (set_lookup ?f ?w)) with (f (lookup w));
    apply (elem_set_state (EWrapper _)) || apply (elem_set_state (EModal _)).
Qed.

Lemma same_listeners_setState i st silent r w :
  same_listeners w (setState i st silent r w).
Proof.
  intros e. rewrite elem_setState.
  apply same_listeners_on_surfaces, keeps_restyle.
Qed.

Lemma length_lookup_setState i st silent r w :
  List.length (lookup (setState i st silent r w)) = List.length (lookup w).
Proof.
  rewrite setState_eq. cbv zeta. destruct silent; cbn;
    rewrite length_alter; apply (length_lookup_on_surfaces i).
Qed.

Lemma state_of_setState j i st silent r w :
  alive i w →
  state_of j (setState i st silent r w)
  = if decide (j = i) then st else state_of j w.
Proof.
  intros Hi. rewrite setState_eq. cbv zeta.
  assert (alive i (on_surfaces i (restyle st) w)) as Hi'.
  { unfold alive. by rewrite length_lookup_on_surfaces. }
  pose proof (state_of_set_state j st i _ Hi') as H.
  rewrite state_of_on_surfaces in H.
  destruct silent; exact H.
Qed.

Lemma barriers_setState i st silent r w :
  barriers (setState i st silent r w) = barriers w.
Proof. rewrite setState_eq. by destruct silent. Qed.

Lemma screen_setState i st silent r w :
  screen (setState i st silent r w) = screen w.
Proof. rewrite setState_eq. by destruct silent. Qed.

Lemma log_setState i st silent r w :
  log (setState i st silent r w)
  = log w ++ Assigned i st :: (if silent then [] else [Triggered i st r]).
Proof.
  rewrite setState_eq. destruct silent; cbn; [reflexivity|].
  by rewrite <- app_assoc.
Qed.

(** *** [screenLockToggle] *)

Lemma lookup_screenLockToggle a w :
  lookup (screenLockToggle env a w) = lookup w.
Proof. unfold screenLockToggle. by split_ifs. Qed.

Lemma elem_screenLockToggle e a w :
  elem e (screenLockToggle env a w) = elem e w.
Proof. unfold screenLockToggle. split_ifs; by destruct e. Qed.

Lemma state_of_screenLockToggle j a w :
  state_of j (screenLockToggle env a w) = state_of j w.
Proof. unfold state_of. by rewrite lookup_screenLockToggle. Qed.

Lemma barriers_screenLockToggle a w :
  barriers (screenLockToggle env a w) = barriers w.
Proof. unfold screenLockToggle. by split_ifs. Qed.

Lemma log_screenLockToggle a w : log (screenLockToggle env a w) = log w.
Proof. unfold screenLockToggle. by split_ifs. Qed.

(** *** The continuations *)

Lemma same_listeners_screenLockToggle a w :
  same_listeners w (screenLockToggle env a w).
Proof. intros e. by rewrite elem_screenLockToggle. Qed.

Lemma length_lookup_screenLockToggle a w :
  List.length (lookup (screenLockToggle env a w)) = List.length (lookup w).
Proof. by rewrite lookup_screenLockToggle. Qed.

Lemma alive_length i w w' :
  List.length (lookup w') = List.length (lookup w) → alive i w → alive i w'.
Proof. unfold alive. lia. Qed.

Lemma same_listeners_run_action a i w :
  same_listeners w (run_action env a i w).
Proof.
  destruct a; cbn [run_action]; try apply same_listeners_setState.
  cbv zeta.
  eapply same_listeners_trans; [|apply same_listeners_setState].
  eapply same_listeners_trans; [|apply same_listeners_screenLockToggle].
  eapply same_listeners_trans; [|apply same_listeners_update, keeps_hide].
  eapply same_listeners_trans; [|apply same_listeners_update, keeps_hide].
  eapply same_listeners_trans;
    [|apply same_listeners_update, keeps_removeClasses].
  apply same_listeners_update, keeps_removeClasses.
Qed.

Lemma length_lookup_run_action a i w :
  List.length (lookup (run_action env a i w)) = List.length (lookup w).
Proof.
  destruct a; cbn [run_action]; cbv zeta;
    rewrite length_lookup_setState; try reflexivity.
  rewrite length_lookup_screenLockToggle.
  by rewrite !length_lookup_update.
Qed.

Lemma state_of_run_action j a i w :
  alive i w →
  state_of j (run_action env a i w)
  = if decide (j = i) then action_state a else state_of j w.
Proof.
  intros Hi.
  destruct a; cbn [run_action action_state]; cbv zeta;
    try (by apply state_of_setState).
  rewrite state_of_setState.
  - rewrite state_of_screenLockToggle. by rewrite !state_of_update.
  - eapply alive_length; [|exact Hi].
    rewrite length_lookup_screenLockToggle.
    by rewrite !length_lookup_update.
Qed.

Lemma barriers_run_action a i w :
  barriers (run_action env a i w) = barriers w.
Proof.
  destruct a; cbn [run_action]; cbv zeta; rewrite barriers_setState;
    try reflexivity.
  rewrite barriers_screenLockToggle. by rewrite !barriers_update.
Qed.

Lemma log_run_action a i w :
  log (run_action env a i w) = log w ++ action_events a i.
Proof.
  destruct a; cbn [run_action action_events]; cbv zeta; rewrite log_setState;
    try reflexivity.
  rewrite log_screenLockToggle. by rewrite !log_update.
Qed.

(** *** Attaching and detaching *)

Lemma attach_eq b i w :
  attach b i w
  = on_surfaces i
      (fun el =>
         addNSEventListener ANIMATIONEND_EVENTS (handleAnimationEnd b)
           (addNSEventListener ANIMATIONSTART_EVENTS
              (handleAnimationStart b) el)) w.
Proof. reflexivity. Qed.

Lemma detach_eq i w :
  detach i w = on_surfaces i (removeNSEventListener all_events) w.
Proof. reflexivity. Qed.

Lemma attach_idle b i w e :
  alive i w → idle w →
  if is_surface i e then armed b e (attach b i w) else quiet e (attach b i w).
Proof.
  intros Hi Hidle. rewrite attach_eq.
  destruct (is_surface i e) eqn:He.
  - unfold armed. rewrite elem_on_surfaces by eauto using alive_present.
    apply addNS_quiet_armed, Hidle.
  - unfold quiet. rewrite elem_on_surfaces_other by done. apply Hidle.
Qed.

Lemma detach_tidy i w e :
  alive i w → tidy (elem e w) → is_surface i e = true → quiet e (detach i w).
Proof.
  intros Hi Ht He. rewrite detach_eq. unfold quiet.
  rewrite elem_on_surfaces by eauto using alive_present.
  by apply removeNS_all_quiet.
Qed.

Lemma detach_other i w e :
  is_surface i e = false → elem e (detach i w) = elem e w.
Proof. intros He. rewrite detach_eq. by apply elem_on_surfaces_other. Qed.

(** Detaching when every surface is armed or quiet and nothing else
    listens leaves the page without listeners. *)
Lemma detach_idle i w :
  alive i w →
  (∀ e, if is_surface i e then tidy (elem e w) else quiet e w) →
  idle (detach i w).
Proof.
  intros Hi H e. specialize (H e). destruct (is_surface i e) eqn:He.
  - by apply detach_tidy.
  - unfold quiet. by rewrite detach_other.
Qed.

End WithEnv.

End OpProps.

(** ** The animation barrier *)

Module BarrierProps.
Import JS Helpers Remodal Spec Frames ListenerProps WorldProps OpProps.
Local Open Scope list_scope.

Lemma elem_set_barriers e f w : elem e (set_barriers f w) = elem e w.
Proof. by destruct e. Qed.

Lemma elem_emit e ev w : elem e (emit ev w) = elem e w.
Proof. by destruct e. Qed.

Lemma lookup_emit ev w : lookup (emit ev w) = lookup w.
Proof. reflexivity. Qed.

Lemma log_emit ev w : log (emit ev w) = log w ++ [ev].
Proof. reflexivity. Qed.

Lemma state_of_emit j ev w : state_of j (emit ev w) = state_of j w.
Proof. reflexivity. Qed.

Lemma barriers_emit ev w : barriers (emit ev w) = barriers w.
Proof. reflexivity. Qed.

Lemma current_emit ev w : current (emit ev w) = current w.
Proof. reflexivity. Qed.


Lemma same_listeners_elem w w' :
  (∀ e, elem e w' = elem e w) → same_listeners w w'.
Proof. intros H e. by rewrite H. Qed.

Lemma engaged_same b c n a w w' :
  same_listeners w w' →
  List.length (lookup w') = List.length (lookup w) →
  barriers w' = barriers w →
  engaged b c n a w → engaged b c n a w'.
Proof.
  intros Hs Hlen Hb (Hc & Hbar & Hel). split; [|split].
  - by eapply alive_length.
  - by rewrite Hb.
  - intros e. specialize (Hel e). destruct (is_surface c e).
    + by eapply same_listeners_armed.
    + by eapply same_listeners_quiet.
Qed.

Lemma idle_same w w' : same_listeners w w' → idle w → idle w'.
Proof. intros Hs H e. by eapply same_listeners_quiet. Qed.

Section WithEnv.
Context (env : Env).

(** *** Up to the probe *)

Lemma at_probe_engaged a1 a2 i w :
  alive i w → idle w →
  engaged (List.length (barriers w)) i 0 a2 (at_probe env a1 a2 i w).
Proof.
  intros Hi Hidle. unfold at_probe.
  set (w1 := set_barriers _ w).
  assert (alive i w1) as Hi1 by exact Hi.
  assert (idle w1) as Hidle1.
  { intros e. unfold quiet, w1. rewrite elem_set_barriers. apply Hidle. }
  eapply engaged_same.
  - apply same_listeners_run_action.
  - apply length_lookup_run_action.
  - apply barriers_run_action.
  - split; [|split].
    + eapply alive_length; [|exact Hi1]. rewrite attach_eq.
      apply length_lookup_on_surfaces.
    + rewrite attach_eq, barriers_on_surfaces. unfold w1. cbn.
      by rewrite list_lookup_middle.
    + intros e. by apply attach_idle.
Qed.

Lemma state_of_at_probe j a1 a2 i w :
  alive i w →
  state_of j (at_probe env a1 a2 i w)
  = if decide (j = i) then action_state a1 else state_of j w.
Proof.
  intros Hi. unfold at_probe. rewrite state_of_run_action.
  - rewrite attach_eq, state_of_on_surfaces. reflexivity.
  - eapply alive_length; [|exact Hi]. rewrite attach_eq.
    by rewrite length_lookup_on_surfaces.
Qed.

Lemma log_at_probe a1 a2 i w :
  log (at_probe env a1 a2 i w) = log w ++ action_events a1 i.
Proof. unfold at_probe. by rewrite log_run_action. Qed.

Lemma barriers_at_probe a1 a2 i w :
  barriers (at_probe env a1 a2 i w) = barriers w ++ [mkBarrier 0 a2 i].
Proof. unfold at_probe. by rewrite barriers_run_action. Qed.

Lemma length_lookup_at_probe a1 a2 i w :
  List.length (lookup (at_probe env a1 a2 i w)) = List.length (lookup w).
Proof.
  unfold at_probe. rewrite length_lookup_run_action, attach_eq.
  by rewrite length_lookup_on_surfaces.
Qed.

(** *** The barrier closes *)

Lemma engaged_tidy b c n a w e :
  engaged b c n a w →
  if is_surface c e then tidy (elem e w) else quiet e w.
Proof.
  intros (_ & _ & Hel). specialize (Hel e). destruct (is_surface c e).
  - by eapply armed_tidy.
  - exact Hel.
Qed.

Lemma fire_idle b c n a w : engaged b c n a w → idle (fire env b c a w).
Proof.
  intros He. unfold fire.
  eapply idle_same; [apply same_listeners_run_action|].
  eapply idle_same.
  { apply same_listeners_elem. intros e. apply elem_emit. }
  apply detach_idle; [apply He|].
  intros e. by eapply engaged_tidy.
Qed.

Lemma length_lookup_fire b c a w :
  List.length (lookup (fire env b c a w)) = List.length (lookup w).
Proof.
  unfold fire. rewrite length_lookup_run_action, lookup_emit.
  rewrite detach_eq. by rewrite length_lookup_on_surfaces.
Qed.

Lemma state_of_fire j b c a w :
  alive c w →
  state_of j (fire env b c a w)
  = if decide (j = c) then action_state a else state_of j w.
Proof.
  intros Hc. unfold fire. rewrite state_of_run_action.
  - by rewrite state_of_emit, detach_eq, state_of_on_surfaces.
  - eapply alive_length; [|exact Hc]. rewrite lookup_emit, detach_eq.
    by rewrite length_lookup_on_surfaces.
Qed.

Lemma log_fire b c a w :
  log (fire env b c a w) = log w ++ AfterAnimation b :: action_events a c.
Proof.
  unfold fire. rewrite log_run_action, log_emit.
  by rewrite <- app_assoc.
Qed.

Lemma barriers_fire b c a w : barriers (fire env b c a w) = barriers w.
Proof. unfold fire. by rewrite barriers_run_action. Qed.

Lemma page_fire b c a w : page (fire env b c a w) = page w.
Proof. unfold fire. by rewrite page_run_action. Qed.

(** [syncWithAnimation] either closes its barrier at the probe or leaves
    it waiting. *)
Lemma syncWithAnimation_cases a1 a2 i w :
  syncWithAnimation env a1 a2 i w =
  if no_animation env i (at_probe env a1 a2 i w)
  then fire env (List.length (barriers w)) i a2 (at_probe env a1 a2 i w)
  else at_probe env a1 a2 i w.
Proof. reflexivity. Qed.

(** *** The handlers *)

Lemma dispatch_eq ev target w :
  dispatch env ev target w
  = foldl (fun w this => deliver env ev target this w) w (path target).
Proof. reflexivity. Qed.

Lemma deliver_quiet ev target this w :
  quiet this w → deliver env ev target this w = w.
Proof. intros [Hl _]. unfold deliver. by rewrite Hl. Qed.

Lemma filter_armed ph v b :
  filter (fun p : AnimEvent * Handler => p.1 = (ph, v)) (armed_list b)
  = [((ph, v), handler_for ph b)].
Proof. by destruct ph, v. Qed.

Lemma handler_armed ph v b : ((ph, v), handler_for ph b) ∈ armed_list b.
Proof.
  destruct ph, v; cbn;
    repeat first [apply list_elem_of_here | apply list_elem_of_further].
Qed.

Lemma deliver_armed ph v target this b w :
  armed b this w →
  deliver env (ph, v) target this w
  = run_handler env (handler_for ph b) this target w.
Proof.
  intros [Hl _]. unfold deliver. rewrite Hl, filter_armed. cbn [foldl].
  rewrite Hl, bool_decide_eq_true_2 by apply handler_armed. reflexivity.
Qed.

Lemma run_handler_other h this target w :
  target ≠ Self this → run_handler env h this target w = w.
Proof. intros H. unfold run_handler. by rewrite bool_decide_eq_true_2. Qed.

Lemma run_handler_self ph b c n a this w :
  barriers w !! b = Some (mkBarrier n a c) →
  run_handler env (handler_for ph b) this (Self this) w
  = barrier_step env b c a n ph w.
Proof.
  intros Hb. unfold run_handler.
  rewrite bool_decide_eq_false_2 by (intros H; by apply H).
  destruct ph; cbn [handler_for barrier_step]; [reflexivity|].
  cbv zeta. cbn [barriers set_barriers].
  rewrite list_lookup_alter_eq, Hb. cbn.
  replace (n + -1) with (n - 1) by lia. reflexivity.
Qed.

Lemma counted_engaged b c n a d w :
  engaged b c n a w → engaged b c (n + d) a (counted b d w).
Proof.
  intros (Hc & Hb & Hel). split; [exact Hc|]. split.
  - unfold counted. cbn. by rewrite list_lookup_alter_eq, Hb.
  - intros e. specialize (Hel e). unfold armed, quiet, counted in *.
    by rewrite elem_set_barriers.
Qed.

(** After a qualifying event the barrier is closed or still waiting. *)
Lemma barrier_step_cases b c n a ph w :
  engaged b c n a w →
  idle (barrier_step env b c a n ph w)
  ∨ ∃ n', engaged b c n' a (barrier_step env b c a n ph w).
Proof.
  intros He. destruct ph; cbn [barrier_step].
  - right. eexists. by apply counted_engaged.
  - destruct (n - 1 =? 0).
    + left. eapply fire_idle. by apply counted_engaged.
    + right. eexists. by apply counted_engaged.
Qed.

Lemma deliver_elsewhere ev target this b c n a w :
  engaged b c n a w →
  target ≠ Self this ∨ is_surface c this = false →
  deliver env ev target this w = w.
Proof.
  intros (_ & _ & Hel) Hcase. specialize (Hel this). destruct ev as [ph v].
  destruct (is_surface c this) eqn:Hs.
  - destruct Hcase as [Hne|?]; [|done].
    rewrite (deliver_armed _ _ _ _ b) by done. by apply run_handler_other.
  - by apply deliver_quiet.
Qed.

Lemma deliver_here ph v this b c n a w :
  engaged b c n a w → is_surface c this = true →
  deliver env (ph, v) (Self this) this w = barrier_step env b c a n ph w.
Proof.
  intros (Hc & Hb & Hel) Hs. specialize (Hel this). rewrite Hs in Hel.
  rewrite (deliver_armed _ _ _ _ b) by done. by eapply run_handler_self.
Qed.

Lemma idle_dispatch ev target w : idle w → dispatch env ev target w = w.
Proof.
  intros Hidle. rewrite dispatch_eq.
  induction (path target) as [|this l IH]; [reflexivity|].
  cbn [foldl]. by rewrite deliver_quiet.
Qed.

(** An animation event on a page with one waiting barrier: a qualifying
    one steps the barrier, any other one is lost. *)
Lemma engaged_dispatch ph v target b c n a w :
  engaged b c n a w →
  dispatch env (ph, v) target w
  = if qualifies c target then barrier_step env b c a n ph w else w.
Proof.
  intros He. rewrite dispatch_eq.
  destruct target as [e|e]; cbn [qualifies].
  - destruct (is_surface c e) eqn:Hs.
    + destruct e as [| |j|j]; cbn [path foldl];
        try (by eapply deliver_here).
      rewrite (deliver_here _ _ _ b c n a) by done.
      destruct (barrier_step_cases b c n a ph w He) as [Hidle|[n' He']].
      * by apply deliver_quiet.
      * eapply deliver_elsewhere; [exact He'|]. by left.
    + destruct e as [| |j|j]; cbn in Hs; try discriminate; cbn [path foldl].
      * eapply deliver_elsewhere; [exact He|]. by right.
      * rewrite (deliver_elsewhere _ _ _ _ _ _ _ _ He) by (by right).
        eapply deliver_elsewhere; [exact He|]. by left.
  - destruct e as [| |j|j]; cbn [path foldl];
      repeat (rewrite (deliver_elsewhere _ _ _ _ _ _ _ _ He) by (by left));
      reflexivity.
Qed.

End WithEnv.

End BarrierProps.

(** ** A waiting barrier and the events that reach it *)

Module TraceProps.
Import JS Helpers Remodal Spec Frames ListenerProps WorldProps OpProps
  BarrierProps.
Local Open Scope list_scope.

Lemma since_app w w' l : log w' = log w ++ l → since w w' = l.
Proof. intros H. unfold since. rewrite H. apply drop_app_length. Qed.

Lemma since_same w w' : log w' = log w → since w w' = [].
Proof. intros H. apply since_app. by rewrite app_nil_r. Qed.

Lemma calls_action b a i : calls b (action_events a i) = 0%nat.
Proof. by destruct a. Qed.

Lemma calls_fire b a i : calls b (AfterAnimation b :: action_events a i) = 1%nat.
Proof.
  unfold calls. rewrite filter_cons_True by done. cbn [List.length].
  f_equal. apply calls_action.
Qed.

Section WithEnv.
Context (env : Env).

Lemma animate_app tr1 tr2 w :
  animate env (tr1 ++ tr2) w = animate env tr2 (animate env tr1 w).
Proof. unfold animate. apply foldl_app. Qed.

Lemma animate_idle tr w : idle w → animate env tr w = w.
Proof.
  intros Hidle. unfold animate.
  induction tr as [|s tr IH]; [reflexivity|].
  cbn [foldl]. by rewrite idle_dispatch.
Qed.

Lemma log_counted b d w : log (counted b d w) = log w.
Proof. reflexivity. Qed.

Lemma animate_cons s tr w :
  animate env (s :: tr) w = animate env tr (dispatch env s.1 s.2 w).
Proof. reflexivity. Qed.

Lemma fmap_S_Some (o : option nat) k :
  S <$> o = Some k → ∃ k', k = S k' ∧ o = Some k'.
Proof. destruct o as [k'|]; cbn; [|done]. intros [= <-]. eauto. Qed.

Lemma fmap_S_None (o : option nat) : S <$> o = None → o = None.
Proof. by destruct o. Qed.

(** As long as no end event brings the count to zero the barrier waits
    and nothing is logged. *)
Lemma engaged_animate_waiting b c a tr :
  ∀ n w,
    engaged b c n a w →
    closing_signal c n tr = None →
    log (animate env tr w) = log w
    ∧ engaged b c (n + net c tr) a (animate env tr w).
Proof.
  induction tr as [|[[ph v] target] tr IH]; intros n w He Hnone.
  - cbn. split; [reflexivity|]. by rewrite Z.add_0_r.
  - rewrite animate_cons. cbn [fst snd].
    rewrite (engaged_dispatch env ph v target b c n a w He).
    cbn [closing_signal net] in *.
    destruct (qualifies c target) eqn:Hq.
    + destruct ph; cbn [barrier_step].
      * apply fmap_S_None in Hnone.
        destruct (IH (n + 1) _ (counted_engaged b c n a 1 w He) Hnone)
          as [H1 H2].
        split; [exact H1|].
        by replace (n + (1 + net c tr)) with (n + 1 + net c tr) by lia.
      * destruct (n - 1 =? 0) eqn:Hz; [discriminate|].
        apply fmap_S_None in Hnone.
        pose proof (counted_engaged b c n a (-1) w He) as He1.
        replace (n + -1) with (n - 1) in He1 by lia.
        destruct (IH (n - 1) _ He1 Hnone) as [H1 H2].
        split; [exact H1|].
        by replace (n + (-1 + net c tr)) with (n - 1 + net c tr) by lia.
    + apply fmap_S_None in Hnone.
      destruct (IH n w He Hnone) as [H1 H2]. split; [exact H1|].
      by rewrite Z.add_0_l.
Qed.

(** At the closing signal, and not before, the continuation runs and
    the handlers go; the rest of the trace finds no listener. *)
Lemma engaged_animate_closing b c a tr :
  ∀ n w k,
    engaged b c n a w →
    closing_signal c n tr = Some k →
    log (animate env (take k tr) w) = log w
    ∧ idle (animate env (take (S k) tr) w)
    ∧ log (animate env (take (S k) tr) w)
      = log w ++ AfterAnimation b :: action_events a c
    ∧ animate env tr w = animate env (take (S k) tr) w
    ∧ (∃ v target, tr !! k = Some (AnimEnd, v, target)
                   ∧ qualifies c target = true)
    ∧ n + net c (take (S k) tr) = 0.
Proof.
  induction tr as [|[[ph v] target] tr IH]; intros n w k He Hsome;
    [discriminate|].
  cbn [closing_signal] in Hsome.
  pose proof (engaged_dispatch env ph v target b c n a w He) as Hd.
  destruct (qualifies c target) eqn:Hq.
  - destruct ph; cbn [barrier_step] in Hd.
    + apply fmap_S_Some in Hsome as (k' & -> & Hsome).
      destruct (IH (n + 1) _ k' (counted_engaged b c n a 1 w He) Hsome)
        as (H1 & H2 & H3 & H4 & H5 & H6).
      rewrite !firstn_cons, !animate_cons. cbn [fst snd]. rewrite Hd.
      refine (conj H1 (conj H2 (conj H3 (conj H4 (conj H5 _))))).
      cbn [net]. rewrite Hq. lia.
    + destruct (n - 1 =? 0) eqn:Hz.
      * injection Hsome as <-. apply Z.eqb_eq in Hz.
        pose proof (counted_engaged b c n a (-1) w He) as He1.
        pose proof (fire_idle env b c _ a _ He1) as Hidle.
        rewrite firstn_cons, !animate_cons. cbn [fst snd take].
        rewrite Hd, ?take_0.
        change (animate env [] ?x) with x.
        refine (conj eq_refl (conj Hidle (conj _ (conj _ (conj _ _))))).
        -- by rewrite log_fire.
        -- by apply animate_idle.
        -- exists v, target. by split.
        -- cbn [net]. rewrite Hq. lia.
      * apply fmap_S_Some in Hsome as (k' & -> & Hsome).
        pose proof (counted_engaged b c n a (-1) w He) as He1.
        replace (n + -1) with (n - 1) in He1 by lia.
        destruct (IH (n - 1) _ k' He1 Hsome)
          as (H1 & H2 & H3 & H4 & H5 & H6).
        rewrite !firstn_cons, !animate_cons. cbn [fst snd]. rewrite Hd.
        refine (conj H1 (conj H2 (conj H3 (conj H4 (conj H5 _))))).
        cbn [net]. rewrite Hq. lia.
  - apply fmap_S_Some in Hsome as (k' & -> & Hsome).
    destruct (IH n w k' He Hsome) as (H1 & H2 & H3 & H4 & H5 & H6).
    rewrite !firstn_cons, !animate_cons. cbn [fst snd]. rewrite Hd.
    refine (conj H1 (conj H2 (conj H3 (conj H4 (conj H5 _))))).
    cbn [net]. rewrite Hq. lia.
Qed.

End WithEnv.

Lemma one_dialog_idle : idle one_dialog.
Proof. intros [| |[|i]|[|i]]; split; reflexivity. Defined.

Lemma one_dialog_alive : alive 0 one_dialog.
Proof. unfold alive. vm_compute. lia. Defined.

(** The claim at two runs. On a page without animations the probe
    branch calls the continuation before any signal, and the start and
    the end signal that follow call nothing: the call is not on an end
    signal. Under a fading dialog an end signal that comes before its
    start signal takes the count to -1 and the start signal back to 0,
    where nothing is tested: the continuation is never called. *)
Lemma continuation_not_on_the_end_signal :
  closing_signal 0 0 start_end = Some 1%nat
  ∧ calls 0
      (since one_dialog
         (syncWithAnimation still SetOpening SetOpened 0 one_dialog))
    = 1%nat
  ∧ animate still start_end
      (syncWithAnimation still SetOpening SetOpened 0 one_dialog)
    = syncWithAnimation still SetOpening SetOpened 0 one_dialog
  ∧ net 0 end_start = 0
  ∧ calls 0
      (log (animate fading end_start
              (syncWithAnimation fading SetOpening SetOpened 0 one_dialog)))
    = 0%nat
  ∧ state_of 0
      (animate fading end_start
         (syncWithAnimation fading SetOpening SetOpened 0 one_dialog))
    = OPENING.
Proof. vm_compute. by repeat split. Qed.

(** C1. [syncWithAnimation] is called on a page without animation
    listeners and the probe finds an animation, so the barrier waits. For
    every trace of animation events that follows, only the events that
    come from one of the four surfaces itself count. If no end event
    brings the count of running animations to zero, the continuation has
    not been called and the barrier still waits with that count. Otherwise
    the continuation is called at the first such end event, not before,
    and once in the whole trace; at that event the page has no animation
    listener left on any element. *)
Theorem afterAction_once_at_closing_signal :
  ∀ (env : Env) (doBefore doAfter : Action) (i : nat) (w : World)
    (tr : list Signal),
    alive i w →
    idle w →
    no_animation env i (at_probe env doBefore doAfter i w) = false →
    let b := List.length (barriers w) in
    let w0 := syncWithAnimation env doBefore doAfter i w in
    let called t := calls b (since w0 (animate env t w0)) in
    match closing_signal i 0 tr with
    | None =>
        called tr = 0%nat
        ∧ engaged b i (net i tr) doAfter (animate env tr w0)
    | Some k =>
        (∃ v target, tr !! k = Some (AnimEnd, v, target)
                     ∧ qualifies i target = true)
        ∧ net i (take (S k) tr) = 0
        ∧ called (take k tr) = 0%nat
        ∧ called (take (S k) tr) = 1%nat
        ∧ idle (animate env (take (S k) tr) w0)
        ∧ called tr = 1%nat
    end.
Proof.
  intros env a1 a2 i w tr Hi Hidle Hprobe b w0 called.
  assert (w0 = at_probe env a1 a2 i w) as Hw0.
  { unfold w0. by rewrite syncWithAnimation_cases, Hprobe. }
  pose proof (at_probe_engaged env a1 a2 i w Hi Hidle) as He.
  fold b in He. rewrite <- Hw0 in He.
  destruct (closing_signal i 0 tr) as [k|] eqn:Hk.
  - destruct (engaged_animate_closing env b i a2 tr 0 w0 k He Hk)
      as (H1 & H2 & H3 & H4 & H5 & H6).
    refine (conj H5 (conj _ (conj _ (conj _ (conj H2 _))))).
    + lia.
    + unfold called. by rewrite (since_same _ _ H1).
    + unfold called. rewrite (since_app _ _ _ H3). apply calls_fire.
    + unfold called. rewrite H4, (since_app _ _ _ H3). apply calls_fire.
  - destruct (engaged_animate_waiting env b i a2 tr 0 w0 He Hk) as [H1 H2].
    split; [|exact H2].
    unfold called. by rewrite (since_same _ _ H1).
Qed.

Lemma afterAction_once_at_closing_signal_witness :
  calls 0
    (since (syncWithAnimation fading SetOpening SetOpened 0 one_dialog)
       (animate fading
          [((AnimStart, Std), Self EOverlay);
           ((AnimStart, Std), Self (EModal 0));
           ((AnimStart, Std), Inside (EModal 0));
           ((AnimEnd, Std), Self EOverlay);
           ((AnimEnd, Std), Self (EModal 0));
           ((AnimEnd, Std), Self (EWrapper 0))]
          (syncWithAnimation fading SetOpening SetOpened 0 one_dialog)))
  = 1%nat.
Proof.
  apply (afterAction_once_at_closing_signal fading SetOpening SetOpened 0
           one_dialog
           [((AnimStart, Std), Self EOverlay);
            ((AnimStart, Std), Self (EModal 0));
            ((AnimStart, Std), Inside (EModal 0));
            ((AnimEnd, Std), Self EOverlay);
            ((AnimEnd, Std), Self (EModal 0));
            ((AnimEnd, Std), Self (EWrapper 0))]
           one_dialog_alive one_dialog_idle).
  reflexivity.
Defined.

End TraceProps.

(** ** The invariant of the page *)

Module InvariantProps.
Import JS Helpers Remodal Spec Frames ListenerProps WorldProps OpProps
  BarrierProps TraceProps.
Local Open Scope list_scope.

Lemma current_page w w' : page w' = page w → current w' = current w.
Proof. unfold page. congruence. Qed.

Lemma waiting_same b c w w' :
  same_listeners w w' →
  (∀ j, state_of j w' = state_of j w) →
  List.length (lookup w') = List.length (lookup w) →
  barriers w' = barriers w →
  current w' = current w →
  waiting b c w → waiting b c w'.
Proof.
  intros Hs Hst Hlen Hb Hc (H1 & H2 & H3 & H4 & H5).
  refine (conj _ (conj _ (conj _ (conj _ _)))).
  - congruence.
  - by eapply alive_length.
  - by rewrite Hst.
  - by rewrite Hb.
  - intros e. specialize (H5 e). destruct (is_surface c e).
    + destruct H5 as [H5|H5]; [left|right];
        eauto using same_listeners_armed, same_listeners_quiet.
    + eauto using same_listeners_quiet.
Qed.

Lemma Inv_same w w' :
  same_listeners w w' →
  (∀ j, state_of j w' = state_of j w) →
  List.length (lookup w') = List.length (lookup w) →
  barriers w' = barriers w →
  current w' = current w →
  Inv w → Inv w'.
Proof.
  intros Hs Hst Hlen Hb Hc [H1 H2]. split.
  - intros i Hi. rewrite Hst. apply H1. congruence.
  - destruct H2 as [H2|(b & c & H2)].
    + left. by eapply idle_same.
    + right. exists b, c. by eapply waiting_same.
Qed.

Lemma engaged_waiting b c n a w :
  engaged b c n a w → current w = Some c →
  state_of c w = OPENING ∨ state_of c w = CLOSING →
  waiting b c w.
Proof.
  intros (Hc & Hb & Hel) Hcur Hst.
  refine (conj Hcur (conj Hc (conj Hst (conj _ _)))).
  - eexists. split; [exact Hb|reflexivity].
  - intros e. specialize (Hel e). destruct (is_surface c e); auto.
Qed.

Lemma waiting_tidy b c w e :
  waiting b c w → if is_surface c e then tidy (elem e w) else quiet e w.
Proof.
  intros (_ & _ & _ & _ & Hel). specialize (Hel e).
  destruct (is_surface c e); [|exact Hel].
  destruct Hel; eauto using armed_tidy, quiet_tidy.
Qed.

Lemma idle_tidy c w e :
  idle w → if is_surface c e then tidy (elem e w) else quiet e w.
Proof.
  intros H. destruct (is_surface c e); [|apply H]. apply quiet_tidy, H.
Qed.

Lemma state_alive i w : state_of i w ≠ CLOSED → alive i w.
Proof.
  unfold state_of, alive. intros H.
  destruct (lookup w !! i) eqn:Hi; [|done].
  by apply lookup_lt_Some in Hi.
Qed.

Section WithEnv.
Context (env : Env).

(** *** [syncWithAnimation] from a page without listeners *)

Lemma state_of_syncWithAnimation j a1 a2 i w :
  alive i w →
  state_of j (syncWithAnimation env a1 a2 i w)
  = if decide (j = i)
    then (if no_animation env i (at_probe env a1 a2 i w)
          then action_state a2 else action_state a1)
    else state_of j w.
Proof.
  intros Hi. rewrite syncWithAnimation_cases.
  destruct (no_animation env i _).
  - rewrite state_of_fire, state_of_at_probe by
      (try (eapply alive_length; [apply length_lookup_at_probe|]); done).
    by destruct (decide (j = i)).
  - by rewrite state_of_at_probe.
Qed.

Lemma length_lookup_syncWithAnimation a1 a2 i w :
  List.length (lookup (syncWithAnimation env a1 a2 i w))
  = List.length (lookup w).
Proof.
  rewrite syncWithAnimation_cases. destruct (no_animation env i _).
  - by rewrite length_lookup_fire, length_lookup_at_probe.
  - apply length_lookup_at_probe.
Qed.

Lemma syncWithAnimation_Inv a1 a2 i w :
  alive i w → idle w → current w = Some i →
  (∀ j, j ≠ i → state_of j w = CLOSED) →
  action_state a1 = OPENING ∨ action_state a1 = CLOSING →
  Inv (syncWithAnimation env a1 a2 i w).
Proof.
  intros Hi Hidle Hcur Hothers Ha1.
  assert (current (syncWithAnimation env a1 a2 i w) = Some i) as Hcur'.
  { rewrite <- Hcur. apply current_page, page_syncWithAnimation. }
  split.
  - intros j Hj. rewrite state_of_syncWithAnimation by done.
    destruct (decide (j = i)) as [->|Hne]; [congruence|]. by apply Hothers.
  - pose proof (at_probe_engaged env a1 a2 i w Hi Hidle) as He.
    pose proof (state_of_syncWithAnimation i a1 a2 i w Hi) as Hst.
    rewrite decide_True in Hst by done.
    rewrite syncWithAnimation_cases in Hcur', Hst |- *.
    destruct (no_animation env i _).
    + left. by eapply fire_idle.
    + right. exists (List.length (barriers w)), i.
      apply (engaged_waiting _ _ _ _ _ He Hcur'). by rewrite Hst.
Qed.

(** *** [halt] *)

Lemma halt_closed i w : state_of i w = CLOSED → halt env i w = w.
Proof. intros H. unfold halt. by rewrite decide_True. Qed.

Lemma halt_eq i w :
  state_of i w ≠ CLOSED →
  halt env i w = setState i CLOSED true None (put_away env i (detach i w)).
Proof. intros H. unfold halt. by rewrite decide_False. Qed.

Lemma same_listeners_put_away i w : same_listeners w (put_away env i w).
Proof.
  unfold put_away. cbv zeta.
  eapply same_listeners_trans; [|apply same_listeners_screenLockToggle].
  eapply same_listeners_trans; [|apply same_listeners_update, keeps_hide].
  eapply same_listeners_trans; [|apply same_listeners_update, keeps_hide].
  eapply same_listeners_trans;
    [|apply same_listeners_update, keeps_removeClasses].
  apply same_listeners_update, keeps_removeClasses.
Qed.

Lemma length_lookup_put_away i w :
  List.length (lookup (put_away env i w)) = List.length (lookup w).
Proof.
  unfold put_away. cbv zeta. rewrite length_lookup_screenLockToggle.
  by rewrite !length_lookup_update.
Qed.

Lemma state_of_put_away j i w : state_of j (put_away env i w) = state_of j w.
Proof.
  unfold put_away. cbv zeta. rewrite state_of_screenLockToggle.
  by rewrite !state_of_update.
Qed.

Lemma barriers_put_away i w : barriers (put_away env i w) = barriers w.
Proof.
  unfold put_away. cbv zeta. rewrite barriers_screenLockToggle.
  by rewrite !barriers_update.
Qed.

Lemma log_put_away i w : log (put_away env i w) = log w.
Proof.
  unfold put_away. cbv zeta. rewrite log_screenLockToggle.
  by rewrite !log_update.
Qed.

Lemma length_lookup_detach i w :
  List.length (lookup (detach i w)) = List.length (lookup w).
Proof. rewrite detach_eq. apply length_lookup_on_surfaces. Qed.

Lemma state_of_detach j i w : state_of j (detach i w) = state_of j w.
Proof. rewrite detach_eq. apply state_of_on_surfaces. Qed.

Lemma length_lookup_halt i w :
  List.length (lookup (halt env i w)) = List.length (lookup w).
Proof.
  destruct (decide (state_of i w = CLOSED)) as [H|H].
  - by rewrite halt_closed.
  - rewrite halt_eq by done.
    by rewrite length_lookup_setState, length_lookup_put_away,
      length_lookup_detach.
Qed.

Lemma state_of_halt j i w :
  state_of j (halt env i w)
  = if decide (j = i) then CLOSED else state_of j w.
Proof.
  destruct (decide (state_of i w = CLOSED)) as [H|H].
  - rewrite halt_closed by done. by destruct (decide (j = i)) as [->|].
  - rewrite halt_eq by done. rewrite state_of_setState.
    + by rewrite state_of_put_away, state_of_detach.
    + eapply alive_length; [|apply (state_alive _ _ H)].
      by rewrite length_lookup_put_away, length_lookup_detach.
Qed.

Lemma barriers_halt i w : barriers (halt env i w) = barriers w.
Proof.
  destruct (decide (state_of i w = CLOSED)) as [H|H].
  - by rewrite halt_closed.
  - rewrite halt_eq by done. by rewrite barriers_setState, barriers_put_away.
Qed.

Lemma log_halt i w :
  log (halt env i w)
  = log w ++ (if decide (state_of i w = CLOSED) then []
              else [Assigned i CLOSED]).
Proof.
  destruct (decide (state_of i w = CLOSED)) as [H|H].
  - rewrite halt_closed by done. by rewrite app_nil_r.
  - rewrite halt_eq by done. by rewrite log_setState, log_put_away.
Qed.

(** [halt] leaves no animation listener when the only ones were those of
    the halted instance. *)
Lemma halt_idle i w :
  state_of i w ≠ CLOSED →
  (∀ e, if is_surface i e then tidy (elem e w) else quiet e w) →
  idle (halt env i w).
Proof.
  intros Hst Hel. rewrite halt_eq by done.
  eapply idle_same; [apply same_listeners_setState|].
  eapply idle_same; [apply same_listeners_put_away|].
  apply detach_idle; [by apply state_alive|exact Hel].
Qed.

(** *** [open] and [close] in stages *)

Lemma open_eq i this w :
  lookup w !! i = Some this →
  ¬ (state this = OPENING ∨ state this = CLOSING) →
  open env i w
  = syncWithAnimation env SetOpening SetOpened i
      (show env i (displace env i (note_fragment this w))).
Proof.
  intros Hi Hst. unfold open. rewrite Hi, decide_False by done.
  reflexivity.
Qed.

Lemma open_guarded i this w :
  lookup w !! i = Some this →
  state this = OPENING ∨ state this = CLOSING →
  open env i w = w.
Proof. intros Hi Hst. unfold open. by rewrite Hi, decide_True. Qed.

Lemma close_eq i reason this w :
  lookup w !! i = Some this →
  state this = OPENED →
  close env i reason w
  = syncWithAnimation env (SetClosing reason) (FinishClose reason) i
      (clear_fragment this w).
Proof.
  intros Hi Hst. unfold close. rewrite Hi, decide_False; [reflexivity|].
  rewrite Hst. intros [|[|]]; discriminate.
Qed.

Lemma close_guarded i reason this w :
  lookup w !! i = Some this →
  state this ≠ OPENED →
  close env i reason w = w.
Proof.
  intros Hi Hst. unfold close. rewrite Hi, decide_True; [reflexivity|].
  destruct (state this); auto. done.
Qed.

Lemma close_absent i reason w :
  lookup w !! i = None → close env i reason w = w.
Proof. intros Hi. unfold close. by rewrite Hi. Qed.

Lemma open_absent i w : lookup w !! i = None → open env i w = w.
Proof. intros Hi. unfold open. by rewrite Hi. Qed.

Lemma state_of_lookup i this w :
  lookup w !! i = Some this → state_of i w = state this.
Proof. intros H. unfold state_of. by rewrite H. Qed.

Lemma elem_note_fragment e this w : elem e (note_fragment this w) = elem e w.
Proof. unfold note_fragment. split_ifs; by destruct e. Qed.

Lemma lookup_note_fragment this w :
  lookup (note_fragment this w) = lookup w.
Proof. unfold note_fragment. by split_ifs. Qed.

Lemma barriers_note_fragment this w :
  barriers (note_fragment this w) = barriers w.
Proof. unfold note_fragment. by split_ifs. Qed.

Lemma current_note_fragment this w :
  current (note_fragment this w) = current w.
Proof. unfold note_fragment. by split_ifs. Qed.

Lemma elem_clear_fragment e this w :
  elem e (clear_fragment this w) = elem e w.
Proof. unfold clear_fragment. split_ifs; by destruct e. Qed.

Lemma lookup_clear_fragment this w :
  lookup (clear_fragment this w) = lookup w.
Proof. unfold clear_fragment. by split_ifs. Qed.

Lemma barriers_clear_fragment this w :
  barriers (clear_fragment this w) = barriers w.
Proof. unfold clear_fragment. by split_ifs. Qed.

Lemma current_clear_fragment this w :
  current (clear_fragment this w) = current w.
Proof. unfold clear_fragment. by split_ifs. Qed.

Lemma same_listeners_show i w : same_listeners w (show env i w).
Proof.
  unfold show. cbv zeta.
  eapply same_listeners_trans;
    [|apply same_listeners_elem; intros e; apply elem_emit].
  eapply same_listeners_trans;
    [|apply same_listeners_elem; intros e; apply elem_emit].
  eapply same_listeners_trans;
    [|apply same_listeners_update, keeps_set_display].
  eapply same_listeners_trans;
    [|apply same_listeners_update, keeps_set_display].
  eapply same_listeners_trans;
    [|apply same_listeners_update, keeps_addClasses].
  eapply same_listeners_trans;
    [|apply same_listeners_update, keeps_addClasses].
  eapply same_listeners_trans; [|apply same_listeners_screenLockToggle].
  apply same_listeners_elem. intros e. by destruct e.
Qed.

Lemma state_of_show j i w : state_of j (show env i w) = state_of j w.
Proof.
  unfold show. cbv zeta. rewrite !state_of_emit.
  rewrite !state_of_update. by rewrite state_of_screenLockToggle.
Qed.

Lemma length_lookup_show i w :
  List.length (lookup (show env i w)) = List.length (lookup w).
Proof.
  unfold show. cbv zeta. rewrite !lookup_emit, !length_lookup_update.
  by rewrite lookup_screenLockToggle.
Qed.

Lemma barriers_show i w : barriers (show env i w) = barriers w.
Proof.
  unfold show. cbv zeta. rewrite !barriers_emit.
  rewrite !barriers_update. by rewrite barriers_screenLockToggle.
Qed.

Lemma current_show i w : current (show env i w) = Some i.
Proof.
  unfold show. cbv zeta. rewrite !current_emit.
  rewrite !(current_page _ _ (page_update _ _ _)).
  by rewrite (current_page _ _ (page_screenLockToggle env _ _)).
Qed.

Lemma log_show i w :
  log (show env i w) = log w ++ [WrapperScrolled i; Focused i].
Proof.
  unfold show. cbv zeta. rewrite !log_emit, !log_update.
  rewrite log_screenLockToggle. cbn. by rewrite <- app_assoc.
Qed.

(** The invariant says who may hold listeners: when the instance about
    to move is not in transit, only another current instance can. *)
Lemma Inv_listeners i w :
  Inv w →
  ¬ (state_of i w = OPENING ∨ state_of i w = CLOSING) →
  idle w ∨ ∃ b c, c ≠ i ∧ waiting b c w.
Proof.
  intros [_ [H|(b & c & H)]] Hst; [by left|].
  right. exists b, c. split; [|done].
  intros ->. by destruct H as (_ & _ & H & _).
Qed.

Lemma displace_spec i w :
  Inv w →
  ¬ (state_of i w = OPENING ∨ state_of i w = CLOSING) →
  idle (displace env i w)
  ∧ (∀ j, j ≠ i → state_of j (displace env i w) = CLOSED)
  ∧ state_of i (displace env i w) = state_of i w.
Proof.
  intros HInv Hst.
  pose proof (Inv_listeners i w HInv Hst) as Hmode.
  destruct HInv as [Hothers _]. unfold displace.
  destruct (current w) as [c|] eqn:Hcur.
  - destruct (decide (c ≠ i)) as [Hne|Heq].
    + refine (conj _ (conj _ _)).
      * destruct (decide (state_of c w = CLOSED)) as [Hc|Hc].
        -- rewrite halt_closed by done.
           destruct Hmode as [H|(b & c' & _ & H)]; [done|].
           destruct H as (Hcur' & _ & H & _).
           assert (c' = c) as -> by congruence.
           destruct H; congruence.
        -- apply halt_idle; [done|]. intros e.
           destruct Hmode as [H|(b & c' & _ & H)].
           ++ by apply idle_tidy.
           ++ assert (c' = c) as ->
                by (destruct H as (Hcur' & _); congruence).
              by eapply waiting_tidy.
      * intros j Hj. rewrite state_of_halt.
        destruct (decide (j = c)) as [->|Hjc]; [done|].
        apply Hothers. congruence.
      * rewrite state_of_halt. by rewrite decide_False.
    + assert (c = i) as -> by (destruct (decide (c = i)); tauto).
      refine (conj _ (conj _ eq_refl)).
      * destruct Hmode as [H|(b & c' & Hne & H)]; [done|].
        destruct H as (Hcur' & _). congruence.
      * intros j Hj. apply Hothers. congruence.
  - refine (conj _ (conj _ eq_refl)).
    + destruct Hmode as [H|(b & c' & Hne & H)]; [done|].
      destruct H as (Hcur' & _). congruence.
    + intros j Hj. apply Hothers. congruence.
Qed.

Lemma length_lookup_displace i w :
  List.length (lookup (displace env i w)) = List.length (lookup w).
Proof.
  unfold displace. destruct (current w); [|done].
  destruct (decide _); [|done]. apply length_lookup_halt.
Qed.

(** [open] keeps the invariant. *)
Lemma open_Inv i w : Inv w → Inv (open env i w).
Proof.
  intros HInv. destruct (lookup w !! i) as [this|] eqn:Hi;
    [|by rewrite open_absent].
  destruct (decide (state this = OPENING ∨ state this = CLOSING))
    as [Hst|Hst]; [by rewrite (open_guarded i this)|].
  rewrite (open_eq i this) by done.
  set (w1 := note_fragment this w).
  assert (Inv w1) as HInv1.
  { eapply Inv_same; [| | | | |exact HInv].
    - apply same_listeners_elem. intros e. apply elem_note_fragment.
    - intros j. unfold state_of, w1. by rewrite lookup_note_fragment.
    - unfold w1. by rewrite lookup_note_fragment.
    - apply barriers_note_fragment.
    - apply current_note_fragment. }
  assert (state_of i w1 = state this) as Hst1.
  { unfold state_of, w1. by rewrite lookup_note_fragment, Hi. }
  assert (alive i w1) as Hi1.
  { unfold alive, w1. rewrite lookup_note_fragment.
    by apply lookup_lt_Some in Hi. }
  destruct (displace_spec i w1 HInv1) as (Hidle & Hothers & Hsame).
  { by rewrite Hst1. }
  apply syncWithAnimation_Inv.
  - eapply alive_length; [|exact Hi1].
    by rewrite length_lookup_show, length_lookup_displace.
  - eapply idle_same; [apply same_listeners_show|exact Hidle].
  - apply current_show.
  - intros j Hj. rewrite state_of_show. by apply Hothers.
  - by left.
Qed.

(** [close] keeps the invariant. *)
Lemma close_Inv i reason w : Inv w → Inv (close env i reason w).
Proof.
  intros HInv. destruct (lookup w !! i) as [this|] eqn:Hi;
    [|by rewrite close_absent].
  destruct (decide (state this = OPENED)) as [Hst|Hst];
    [|by rewrite (close_guarded i reason this)].
  rewrite (close_eq i reason this) by done.
  pose proof (state_of_lookup i this w Hi) as Hsi. rewrite Hst in Hsi.
  destruct HInv as [Hothers Hmode].
  assert (current w = Some i) as Hcur.
  { destruct (decide (current w = Some i)) as [|Hne]; [done|].
    apply Hothers in Hne. congruence. }
  assert (idle w) as Hidle.
  { destruct Hmode as [H|(b & c & Hc & _ & H & _)]; [done|].
    assert (c = i) as -> by congruence. destruct H; congruence. }
  apply syncWithAnimation_Inv.
  - unfold alive. rewrite lookup_clear_fragment.
    by apply lookup_lt_Some in Hi.
  - eapply idle_same; [|exact Hidle].
    apply same_listeners_elem. intros e. apply elem_clear_fragment.
  - by rewrite current_clear_fragment.
  - intros j Hj. unfold state_of. rewrite lookup_clear_fragment.
    apply Hothers. congruence.
  - by right.
Qed.

(** *** The constructor *)

Lemma construct_lookup id opts w :
  ∃ this, lookup (construct id opts w) = lookup w ++ [this]
          ∧ state this = CLOSED ∧ remodal_id this = id
          ∧ quiet_element (wrapper this) ∧ quiet_element (modal this).
Proof.
  unfold construct. cbv zeta.
  destruct (hasClass _ _); eexists; (split; [reflexivity|done]).
Qed.

Lemma state_of_construct j id opts w :
  state_of j (construct id opts w) = state_of j w.
Proof.
  destruct (construct_lookup id opts w) as (this & Hl & Hst & _).
  unfold state_of. rewrite Hl.
  destruct (decide (j < List.length (lookup w))%nat) as [Hlt|Hge].
  - by rewrite lookup_app_l.
  - rewrite (lookup_ge_None_2 (lookup w) j) by lia.
    rewrite lookup_app_r by lia.
    by destruct (j - List.length (lookup w))%nat as [|k].
Qed.

Lemma barriers_construct id opts w :
  barriers (construct id opts w) = barriers w.
Proof. unfold construct. cbv zeta. by destruct (hasClass _ _). Qed.

Lemma current_construct id opts w :
  current (construct id opts w) = current w.
Proof. unfold construct. cbv zeta. by destruct (hasClass _ _). Qed.

(** Every element keeps its listeners through a construction, or has
    none after it. *)
Lemma construct_listeners id opts w e :
  (listeners (elem e (construct id opts w)) = listeners (elem e w)
   ∧ namespaces (elem e (construct id opts w)) = namespaces (elem e w))
  ∨ quiet e (construct id opts w).
Proof.
  destruct (construct_lookup id opts w) as (this & Hl & _ & _ & Hw & Hm).
  destruct e as [| |j|j].
  - left. unfold construct. cbv zeta. by destruct (hasClass _ _).
  - unfold construct. cbv zeta. destruct (hasClass _ _); [by left|].
    right. by split.
  - unfold quiet. cbn [elem]. rewrite Hl.
    destruct (decide (j < List.length (lookup w))%nat) as [Hlt|Hge].
    + left. by rewrite lookup_app_l.
    + right. rewrite lookup_app_r by lia.
      by destruct (j - List.length (lookup w))%nat as [|k].
  - unfold quiet. cbn [elem]. rewrite Hl.
    destruct (decide (j < List.length (lookup w))%nat) as [Hlt|Hge].
    + left. by rewrite lookup_app_l.
    + right. rewrite lookup_app_r by lia.
      by destruct (j - List.length (lookup w))%nat as [|k].
Qed.

Lemma construct_Inv id opts w : Inv w → Inv (construct id opts w).
Proof.
  intros [Hothers Hmode]. split.
  - intros i Hi. rewrite state_of_construct. apply Hothers.
    by rewrite <- (current_construct id opts).
  - destruct Hmode as [Hidle|(b & c & H1 & H2 & H3 & H4 & H5)].
    + left. intros e.
      destruct (construct_listeners id opts w e) as [[Hl Hn]|Hq]; [|done].
      destruct (Hidle e) as [Hl' Hn']. split; congruence.
    + right. exists b, c. refine (conj _ (conj _ (conj _ (conj _ _)))).
      * by rewrite current_construct.
      * destruct (construct_lookup id opts w) as (this & Hl & _).
        unfold alive in *. rewrite Hl, length_app. lia.
      * by rewrite state_of_construct.
      * by rewrite barriers_construct.
      * intros e. specialize (H5 e).
        destruct (construct_listeners id opts w e) as [[Hl Hn]|Hq].
        -- destruct (is_surface c e).
           ++ destruct H5 as [[Ha Ha']|[Hq Hq']]; [left|right];
                split; congruence.
           ++ destruct H5 as [Hq Hq']. split; congruence.
        -- destruct (is_surface c e); auto.
Qed.

(** *** Animation events *)

Lemma armed_list_handler b p :
  p ∈ armed_list b →
  p.2 = handleAnimationStart b ∨ p.2 = handleAnimationEnd b.
Proof.
  unfold armed_list. rewrite elem_of_app, !list_elem_of_fmap.
  intros [(ev & -> & _)|(ev & -> & _)]; auto.
Qed.

Lemma run_handler_end b this br w :
  barriers w !! b = Some br →
  run_handler env (handleAnimationEnd b) this (Self this) w
  = if runningAnimationsCount br + -1 =? 0
    then fire env b (owner br) (doAfterAnimation br) (counted b (-1) w)
    else counted b (-1) w.
Proof.
  intros Hb. unfold run_handler.
  rewrite bool_decide_eq_false_2 by (intros H; by apply H).
  cbv zeta. cbn [barriers set_barriers].
  by rewrite list_lookup_alter_eq, Hb.
Qed.

Lemma run_handler_start b this w :
  run_handler env (handleAnimationStart b) this (Self this) w
  = counted b 1 w.
Proof.
  unfold run_handler.
  by rewrite bool_decide_eq_false_2 by (intros H; by apply H).
Qed.

Lemma waiting_counted b c d w : waiting b c w → waiting b c (counted b d w).
Proof.
  intros (H1 & H2 & H3 & (br & Hb & Ho) & H5).
  refine (conj H1 (conj H2 (conj H3 (conj _ _)))).
  - exists (add_count d br). split; [|exact Ho].
    unfold counted. cbn. by rewrite list_lookup_alter_eq, Hb.
  - intros e. specialize (H5 e). unfold armed, quiet, counted in *.
    by rewrite elem_set_barriers.
Qed.

Lemma fire_idle_tidy b c a w :
  alive c w →
  (∀ e, if is_surface c e then tidy (elem e w) else quiet e w) →
  idle (fire env b c a w).
Proof.
  intros Hc Hel. unfold fire.
  eapply idle_same; [apply same_listeners_run_action|].
  eapply idle_same.
  { apply same_listeners_elem. intros e. apply elem_emit. }
  by apply detach_idle.
Qed.

Lemma run_handler_Inv p this target w :
  Inv w → p ∈ listeners (elem this w) →
  Inv (run_handler env p.2 this target w).
Proof.
  intros HInv Hp.
  destruct (decide (target = Self this)) as [->|Hne];
    [|by rewrite run_handler_other].
  destruct HInv as [Hothers [Hidle|(b & c & Hw)]].
  { destruct (Hidle this) as [Hl _]. rewrite Hl in Hp. by inversion Hp. }
  pose proof Hw as (Hcur & Hc & Hst & (br & Hb & Ho) & Hel).
  assert (p ∈ armed_list b) as Hp'.
  { specialize (Hel this). destruct (is_surface c this).
    - destruct Hel as [[Hl _]|[Hl _]]; rewrite Hl in Hp;
        [done|by inversion Hp].
    - destruct Hel as [Hl _]. rewrite Hl in Hp. by inversion Hp. }
  assert (Inv (counted b (-1) w) ∧ Inv (counted b 1 w)) as [Hm Hp1].
  { split; (split; [exact Hothers|right; exists b, c;
                                  by apply waiting_counted]). }
  destruct (armed_list_handler b p Hp') as [-> | ->].
  - by rewrite run_handler_start.
  - rewrite (run_handler_end b this br w Hb).
    destruct (_ =? 0); [|exact Hm].
    rewrite Ho. split.
    + intros j Hj.
      rewrite (current_page _ _ (page_fire env b c _ _)) in Hj.
      rewrite state_of_fire by exact Hc.
      destruct (decide (j = c)) as [->|Hjc]; [by cbn in Hj|].
      by apply Hothers.
    + left. apply fire_idle_tidy; [exact Hc|].
      intros e. apply (waiting_tidy b c (counted b (-1) w)).
      by apply waiting_counted.
Qed.

Lemma deliver_Inv ev target this w :
  Inv w → Inv (deliver env ev target this w).
Proof.
  unfold deliver.
  generalize (filter (λ p : AnimEvent * Handler, p.1 = ev)
                (listeners (elem this w))).
  intros l. revert w. induction l as [|p l IH]; intros w HInv; [done|].
  cbn [foldl]. apply IH.
  destruct (bool_decide_reflect (p ∈ listeners (elem this w))); [|done].
  by apply run_handler_Inv.
Qed.

Lemma dispatch_Inv ev target w : Inv w → Inv (dispatch env ev target w).
Proof.
  rewrite dispatch_eq. revert w.
  induction (path target) as [|this l IH]; intros w HInv; [done|].
  cbn [foldl]. by apply IH, deliver_Inv.
Qed.

(** *** Every operation *)

Lemma remodal_Inv id opts w : Inv w → Inv (remodal env id opts w).
Proof.
  intros HInv. unfold remodal. cbv zeta.
  destruct (_ && _); [apply open_Inv|]; by apply construct_Inv.
Qed.

Lemma set_hash_Inv h w : Inv w → Inv (set_hash h w).
Proof. apply Inv_same; try done. Qed.

Lemma emit_Inv ev w : Inv w → Inv (emit ev w).
Proof. apply Inv_same; try done. Qed.

Lemma run_op_Inv o w : Inv w → Inv (run_op env o w).
Proof.
  intros HInv. destruct o; cbn [run_op].
  - by apply remodal_Inv.
  - by apply open_Inv.
  - by apply close_Inv.
  - by apply close_Inv.
  - unfold click_cancel. cbv zeta.
    destruct (truthy _); [apply close_Inv|]; by apply emit_Inv.
  - unfold click_confirm. cbv zeta.
    destruct (truthy _); [apply close_Inv|]; by apply emit_Inv.
  - unfold click_wrapper. destruct (negb _); [done|].
    destruct (truthy _); [by apply close_Inv|done].
  - unfold keydown. destruct (current w); [|done].
    destruct (_ && _); [by apply close_Inv|done].
  - unfold handleHashChangeEvent. cbv zeta.
    pose proof (set_hash_Inv h w HInv) as HInv'.
    destruct (String.eqb h "").
    + destruct (current _); [|done].
      destruct (_ && _); [by apply close_Inv|done].
    + destruct (find_id _ _); [|done].
      destruct (truthy _); [by apply open_Inv|done].
  - by apply dispatch_Inv.
Qed.

Lemma initial_Inv locked padding h y : Inv (initial locked padding h y).
Proof.
  split; [done|]. left. intros e. split; by destruct e.
Qed.

Lemma run_ops_Inv ops w : Inv w → Inv (run_ops env ops w).
Proof.
  unfold run_ops. revert w.
  induction ops as [|o ops IH]; intros w HInv; [done|].
  cbn [foldl]. by apply IH, run_op_Inv.
Qed.

Lemma reachable_Inv w : reachable env w → Inv w.
Proof.
  intros (locked & padding & y & h & ops & ->).
  apply run_ops_Inv, initial_Inv.
Qed.

Lemma reachable_step o w : reachable env w → reachable env (run_op env o w).
Proof.
  intros (locked & padding & y & h & ops & ->).
  exists locked, padding, y, h, (ops ++ [o]).
  unfold run_ops. by rewrite foldl_app.
Qed.

End WithEnv.

End InvariantProps.

(** ** One dialog at a time *)

Module SingletonProps.
Import JS Helpers Remodal Spec Frames ListenerProps WorldProps OpProps
  BarrierProps TraceProps InvariantProps.
Local Open Scope list_scope.

Section WithEnv.
Context (env : Env).

Lemma log_syncWithAnimation a1 a2 i w :
  log (syncWithAnimation env a1 a2 i w)
  = log w ++ action_events a1 i
      ++ (if no_animation env i (at_probe env a1 a2 i w)
          then AfterAnimation (List.length (barriers w))
                 :: action_events a2 i
          else []).
Proof.
  rewrite syncWithAnimation_cases. destruct (no_animation env i _).
  - by rewrite log_fire, log_at_probe, <- app_assoc.
  - by rewrite log_at_probe, app_nil_r.
Qed.

Lemma log_note_fragment this w :
  ∃ frag, log (note_fragment this w) = log w ++ frag
          ∧ ∀ ev, ev ∈ frag → ∃ id, ev = HashWritten id.
Proof.
  unfold note_fragment. destruct (remodal_id this) as [id|].
  - destruct (_ && _).
    + exists [HashWritten id]. split; [done|].
      intros ev ->%list_elem_of_singleton. eauto.
    + exists []. split; [by rewrite app_nil_r|]. intros ev H. by inversion H.
  - exists []. split; [by rewrite app_nil_r|]. intros ev H. by inversion H.
Qed.

Lemma state_of_note_fragment j this w :
  state_of j (note_fragment this w) = state_of j w.
Proof. unfold state_of. by rewrite lookup_note_fragment. Qed.


End WithEnv.


(** With listeners that only observe, the operations that run the
    listeners are the operations of the model. *)
Lemma open_notify_observers env i w :
  open_notify env observers i w = open env i w.
Proof. reflexivity. Qed.

Lemma close_notify_observers env i reason w :
  close_notify env observers i reason w = close env i reason w.
Proof. reflexivity. Qed.




End SingletonProps.

(** ** The guards of [open] and [close] *)

Module GuardProps.
Import JS Helpers Remodal Spec Frames ListenerProps WorldProps OpProps
  BarrierProps TraceProps InvariantProps SingletonProps.
Local Open Scope list_scope.




Section WithEnv.
Context (env : Env).



Lemma log_displace i w :
  ∃ halted, log (displace env i w) = log w ++ halted
            ∧ ∀ s r, Triggered i s r ∉ halted.
Proof.
  unfold displace. destruct (current w) as [c|].
  - destruct (decide (c ≠ i)) as [Hne|_].
    + rewrite log_halt. eexists. split; [reflexivity|].
      intros s r Hin. destruct (decide _); [by inversion Hin|].
      apply list_elem_of_singleton in Hin. discriminate.
    + exists []. split; [by rewrite app_nil_r|].
      intros s r Hin. by inversion Hin.
  - exists []. split; [by rewrite app_nil_r|].
    intros s r Hin. by inversion Hin.
Qed.



Lemma log_clear_fragment this w :
  ∃ frag, log (clear_fragment this w) = log w ++ frag
          ∧ ∀ i st, notified i st frag = 0%nat.
Proof.
  unfold clear_fragment. destruct (_ && _).
  - exists [HashWritten ""; WindowScrolled 0]. split; [|done].
    cbn. by rewrite <- app_assoc.
  - exists []. split; [by rewrite app_nil_r|done].
Qed.


Lemma reachable_opened_idle i w :
  reachable env w → state_of i w = OPENED → idle w ∧ current w = Some i.
Proof.
  intros [Hothers Hmode]%reachable_Inv Hst.
  assert (current w = Some i) as Hcur.
  { destruct (decide (current w = Some i)) as [|Hne]; [done|].
    apply Hothers in Hne. congruence. }
  split; [|done].
  destruct Hmode as [H|(b & c & Hc & _ & H & _)]; [done|].
  assert (c = i) as -> by congruence. destruct H; congruence.
Qed.

End WithEnv.








End GuardProps.

(** ** [halt] *)

Module HaltProps.
Import JS Helpers Remodal Spec Frames ListenerProps WorldProps OpProps
  BarrierProps TraceProps InvariantProps SingletonProps GuardProps.
Local Open Scope list_scope.

Section WithEnv.
Context (env : Env).

Lemma modifier_detach i w : modifier (detach i w) = modifier w.
Proof. reflexivity. Qed.








End WithEnv.





End HaltProps.

(** ** The duration probe *)

Module ProbeProps.
Import JS Helpers Remodal Spec Frames ListenerProps WorldProps OpProps
  BarrierProps TraceProps InvariantProps SingletonProps GuardProps.
Local Open Scope list_scope.

Section WithEnv.
Context (env : Env).

(** The probe branch is taken when each of the four durations is zero. *)
Lemma no_animation_spec i w :
  no_animation env i w = true
  ↔ ∀ s : Surface,
      num_is0 (getAnimationDuration env w (surface_elem i s)) = true.
Proof.
  unfold no_animation, surfaces. cbn [forallb].
  rewrite !andb_true_iff. split.
  - intros (H1 & H2 & H3 & H4 & _) []; assumption.
  - intros H. repeat split; apply H.
Qed.

(** A single animation: its duration times its iteration count plus its
    delay, provided that is a number above minus infinity. *)
Lemma getAnimationDuration_single w el duration delay count :
  getPrefixedStyles env w el "animation-name" ≠ Some "none" →
  split_comma_space
    (or_default (getPrefixedStyles env w el "animation-duration") "0s")
  = [duration] →
  split_comma_space
    (or_default (Some (getStyle env w el "animation-delay")) "0s")
  = [delay] →
  split_comma_space
    (or_default (Some (getStyle env w el "animation-iteration-count")) "1")
  = [count] →
  let num :=
    num_add (num_mul (parseFloat duration) (parseInt10 count))
      (parseFloat delay) in
  getAnimationDuration env w el
  = if num_gt num (Inf true) then num else Inf true.
Proof.
  intros Hname Hd Hde Hc num. unfold getAnimationDuration.
  rewrite bool_decide_eq_false_2 by done. rewrite andb_false_r.
  cbv zeta. by rewrite Hd, Hde, Hc.
Qed.

(** Opening and closing from a reachable page: the page before the
    barrier has no listeners. *)
Lemma open_stage_idle i this w :
  reachable env w → lookup w !! i = Some this →
  ¬ (state this = OPENING ∨ state this = CLOSING) →
  let w3 := show env i (displace env i (note_fragment this w)) in
  idle w3 ∧ alive i w3.
Proof.
  intros Hreach Hi Hst w3.
  pose proof (reachable_Inv env w Hreach) as HInv.
  assert (Inv (note_fragment this w)) as HInv1.
  { eapply Inv_same; [| | | | |exact HInv].
    - apply same_listeners_elem. intros e. apply elem_note_fragment.
    - intros j. apply state_of_note_fragment.
    - by rewrite lookup_note_fragment.
    - apply barriers_note_fragment.
    - apply current_note_fragment. }
  destruct (displace_spec env i _ HInv1) as (Hidle & _).
  { rewrite state_of_note_fragment. by rewrite (state_of_lookup i this). }
  split.
  - eapply idle_same; [apply same_listeners_show|exact Hidle].
  - unfold alive, w3.
    rewrite length_lookup_show, length_lookup_displace,
      lookup_note_fragment.
    by apply lookup_lt_Some in Hi.
Qed.

Lemma close_stage_idle i this w :
  reachable env w → lookup w !! i = Some this → state this = OPENED →
  idle (clear_fragment this w) ∧ alive i (clear_fragment this w).
Proof.
  intros Hreach Hi Hst.
  pose proof (state_of_lookup i this w Hi) as Hsi. rewrite Hst in Hsi.
  destruct (reachable_opened_idle env i w Hreach Hsi) as [Hidle _].
  split.
  - eapply idle_same; [|exact Hidle].
    apply same_listeners_elem. intros e. apply elem_clear_fragment.
  - unfold alive. rewrite lookup_clear_fragment.
    by apply lookup_lt_Some in Hi.
Qed.

End WithEnv.

(** C4. When the four surfaces probe to a zero duration right after the
    action before the animation, [syncWithAnimation] leaves no animation
    listener on the page and has called the continuation, once, before it
    returns. So [open] on a reachable page returns with the instance
    opened and notified, and [close] with it closed and notified. *)
Theorem zero_durations_complete_at_once :
  ∀ (env : Env) (i : nat),
    (∀ (doBefore doAfter : Action) (w : World),
        alive i w → idle w →
        (∀ s : Surface,
            num_is0
              (getAnimationDuration env (at_probe env doBefore doAfter i w)
                 (surface_elem i s)) = true) →
        let w' := syncWithAnimation env doBefore doAfter i w in
        idle w'
        ∧ since w w'
          = action_events doBefore i
              ++ AfterAnimation (List.length (barriers w))
              :: action_events doAfter i
        ∧ calls (List.length (barriers w)) (since w w') = 1%nat
        ∧ state_of i w' = action_state doAfter)
    ∧ (∀ (w : World) (this : Instance),
          reachable env w → lookup w !! i = Some this →
          state this = CLOSED ∨ state this = OPENED →
          (∀ s : Surface,
              num_is0
                (getAnimationDuration env
                   (at_probe env SetOpening SetOpened i
                      (show env i (displace env i (note_fragment this w))))
                   (surface_elem i s)) = true) →
          idle (open env i w)
          ∧ state_of i (open env i w) = OPENED
          ∧ Triggered i OPENED None ∈ since w (open env i w))
    ∧ (∀ (w : World) (this : Instance) (reason : option STATE_CHANGE_REASONS),
          reachable env w → lookup w !! i = Some this →
          state this = OPENED →
          (∀ s : Surface,
              num_is0
                (getAnimationDuration env
                   (at_probe env (SetClosing reason) (FinishClose reason) i
                      (clear_fragment this w))
                   (surface_elem i s)) = true) →
          idle (close env i reason w)
          ∧ state_of i (close env i reason w) = CLOSED
          ∧ Triggered i CLOSED reason ∈ since w (close env i reason w)).
Proof.
  intros env i.
  assert (∀ a1 a2 w,
             alive i w → idle w →
             (∀ s : Surface,
                 num_is0
                   (getAnimationDuration env (at_probe env a1 a2 i w)
                      (surface_elem i s)) = true) →
             idle (syncWithAnimation env a1 a2 i w)
             ∧ log (syncWithAnimation env a1 a2 i w)
               = log w ++ action_events a1 i
                   ++ AfterAnimation (List.length (barriers w))
                   :: action_events a2 i
             ∧ state_of i (syncWithAnimation env a1 a2 i w)
               = action_state a2) as Hsync.
  { intros a1 a2 w Hi Hidle Hzero.
    apply no_animation_spec in Hzero.
    refine (conj _ (conj _ _)).
    - rewrite syncWithAnimation_cases, Hzero.
      eapply fire_idle. by apply at_probe_engaged.
    - by rewrite log_syncWithAnimation, Hzero.
    - rewrite state_of_syncWithAnimation, Hzero by done.
      by rewrite decide_True. }
  refine (conj _ (conj _ _)).
  - intros a1 a2 w Hi Hidle Hzero w'.
    destruct (Hsync a1 a2 w Hi Hidle Hzero) as (H1 & H2 & H3).
    refine (conj H1 (conj _ (conj _ H3))).
    + by apply since_app.
    + unfold w'. rewrite (since_app _ _ _ H2).
      unfold calls. rewrite filter_app, length_app.
      fold (calls (List.length (barriers w)) (action_events a1 i)).
      rewrite calls_action.
      apply calls_fire.
  - intros w this Hreach Hi Hst Hzero.
    assert (¬ (state this = OPENING ∨ state this = CLOSING)) as Hg.
    { destruct Hst as [-> | ->]; intros [|]; discriminate. }
    destruct (open_stage_idle env i this w Hreach Hi Hg) as [Hidle3 Hi3].
    destruct (Hsync _ _ _ Hi3 Hidle3 Hzero) as (H1 & H2 & H3).
    rewrite (open_eq env i this w Hi Hg).
    refine (conj H1 (conj H3 _)).
    destruct (log_note_fragment this w) as (frag & Hfrag & _).
    destruct (log_displace env i (note_fragment this w))
      as (halted & Hh & _).
    erewrite since_app; cycle 1.
    { rewrite H2, log_show, Hh, Hfrag. rewrite <- !app_assoc.
      reflexivity. }
    repeat (apply elem_of_app; right).
    do 2 apply list_elem_of_further. apply list_elem_of_here.
  - intros w this reason Hreach Hi Hst Hzero.
    destruct (close_stage_idle env i this w Hreach Hi Hst)
      as [Hidlec Hic].
    destruct (Hsync _ _ _ Hic Hidlec Hzero) as (H1 & H2 & H3).
    rewrite (close_eq env i reason this w Hi Hst).
    refine (conj H1 (conj H3 _)).
    destruct (log_clear_fragment this w) as (frag & Hfrag & _).
    erewrite since_app; cycle 1.
    { rewrite H2, Hfrag. rewrite <- !app_assoc. reflexivity. }
    repeat (apply elem_of_app; right).
    do 2 apply list_elem_of_further. apply list_elem_of_here.
Qed.

Lemma zero_durations_complete_at_once_witness :
  state_of 0 (syncWithAnimation still SetOpening SetOpened 0 one_dialog)
  = OPENED.
Proof.
  apply (proj1 (zero_durations_complete_at_once still 0%nat)
           SetOpening SetOpened one_dialog one_dialog_alive
           one_dialog_idle).
  intros []; reflexivity.
Defined.

(** Durations are binary64 numbers: 0.1 times 3 less 0.3 is not zero,
    so under such a background the barrier waits. *)
Lemma rounded_duration_is_not_zero :
  num_is0 (getAnimationDuration pulsing one_dialog EBg) = false
  ∧ state_of 0 (open pulsing 0 one_dialog) = OPENING.
Proof. vm_compute. by split. Qed.

Lemma is_surface_surface_elem i s : is_surface i (surface_elem i s) = true.
Proof. destruct s; cbn; try reflexivity; by apply bool_decide_eq_true. Qed.

(** C5, as stated: whatever the probe says, a start event from a surface
    is counted and the continuation waits. It fails when every probe is
    zero: the dialog is opened through the probe branch, and the start
    event that follows finds no handler. *)
Lemma start_after_zero_probe_is_lost :
  ¬ (∀ (env : Env) (doBefore doAfter : Action) (i : nat) (w : World)
       (s : Surface) (v : Vendor),
        alive i w → idle w →
        let b := List.length (barriers w) in
        let w0 := syncWithAnimation env doBefore doAfter i w in
        let w1 := dispatch env (AnimStart, v) (Self (surface_elem i s)) w0 in
        count_of b w1 = Some 1 ∧ calls b (since w w1) = 0%nat).
Proof.
  intros H.
  destruct (H still SetOpening SetOpened 0%nat one_dialog Modal Std
              one_dialog_alive one_dialog_idle) as [Hcount _].
  vm_compute in Hcount. discriminate.
Qed.

(** C5, amended. When the probe finds an animation on at least one
    surface, a start event from any of the four surfaces, whatever the
    probed duration of that surface, is counted, the continuation has not
    run after it, and it runs, once, at the end event that follows, which
    leaves the page without animation listener. *)
Theorem handlers_count_when_probe_waits :
  ∀ (env : Env) (doBefore doAfter : Action) (i : nat) (w : World)
    (s : Surface) (v v' : Vendor),
    alive i w → idle w →
    no_animation env i (at_probe env doBefore doAfter i w) = false →
    let b := List.length (barriers w) in
    let w0 := syncWithAnimation env doBefore doAfter i w in
    let w1 := dispatch env (AnimStart, v) (Self (surface_elem i s)) w0 in
    let w2 := dispatch env (AnimEnd, v') (Self (surface_elem i s)) w1 in
    count_of b w0 = Some 0
    ∧ count_of b w1 = Some 1
    ∧ calls b (since w w1) = 0%nat
    ∧ calls b (since w w2) = 1%nat
    ∧ idle w2.
Proof.
  intros env a1 a2 i w s v v' Hi Hidle Hprobe b w0 w1 w2.
  assert (w0 = at_probe env a1 a2 i w) as Hw0.
  { unfold w0. by rewrite syncWithAnimation_cases, Hprobe. }
  pose proof (at_probe_engaged env a1 a2 i w Hi Hidle) as He0.
  fold b in He0. rewrite <- Hw0 in He0.
  assert (w1 = counted b 1 w0) as Hw1.
  { unfold w1. rewrite (engaged_dispatch env _ _ _ _ _ _ _ _ He0).
    cbn [qualifies]. by rewrite is_surface_surface_elem. }
  pose proof (counted_engaged b i 0 a2 1 w0 He0) as He1.
  rewrite <- Hw1 in He1. cbn in He1.
  assert (w2 = fire env b i a2 (counted b (-1) w1)) as Hw2.
  { unfold w2. rewrite (engaged_dispatch env _ _ _ _ _ _ _ _ He1).
    cbn [qualifies]. by rewrite is_surface_surface_elem. }
  assert (log w1 = log w ++ action_events a1 i) as Hlog1.
  { by rewrite Hw1, Hw0, log_counted, log_at_probe. }
  refine (conj _ (conj _ (conj _ (conj _ _)))).
  - destruct He0 as (_ & Hb & _).
    exact (f_equal (fmap runningAnimationsCount) Hb).
  - destruct He1 as (_ & Hb & _).
    exact (f_equal (fmap runningAnimationsCount) Hb).
  - rewrite (since_app _ _ _ Hlog1). apply calls_action.
  - rewrite (since_app w w2
               (action_events a1 i ++ AfterAnimation b
                  :: action_events a2 i)).
    + unfold calls. rewrite filter_app, length_app.
      fold (calls b (action_events a1 i)). rewrite calls_action.
      apply calls_fire.
    + rewrite Hw2, log_fire, log_counted, Hlog1. by rewrite <- app_assoc.
  - rewrite Hw2. eapply fire_idle. by apply counted_engaged.
Qed.

Lemma handlers_count_when_probe_waits_witness :
  count_of 0
    (dispatch fading (AnimStart, Std) (Self EBg)
       (syncWithAnimation fading SetOpening SetOpened 0 one_dialog))
  = Some 1
  ∧ num_is0
      (getAnimationDuration fading
         (at_probe fading SetOpening SetOpened 0 one_dialog) EBg) = true.
Proof.
  split; [|reflexivity].
  apply (handlers_count_when_probe_waits fading SetOpening SetOpened 0%nat
           one_dialog Bg Std Std one_dialog_alive one_dialog_idle).
  reflexivity.
Defined.

End ProbeProps.

(** * Further properties *)

(** ** [parseOptions]: keys, missing values, white space *)

Module OptionsMore.
Import JS Helpers Remodal Spec OptionsProps.
Local Open Scope list_scope.

(** *** The object that comes out *)

Lemma parse_token_proto obj tok :
  obj !! "__proto__" = None → parse_token obj tok !! "__proto__" = None.
Proof.
  intros H. unfold parse_token, obj_set.
  destruct (String.eqb_spec (first_field (split ":" tok)) "__proto__")
    as [_|Hne]; [exact H|].
  by rewrite lookup_insert_ne.
Qed.

(** X1. The parsed object never has an own property [__proto__]. *)
Theorem parseOptions_never_proto (str : string) :
  parseOptions str !! "__proto__" = None.
Proof.
  unfold parseOptions.
  assert (∀ toks obj, obj !! "__proto__" = None →
                      foldl parse_token obj toks !! "__proto__" = None)
    as H.
  { induction toks as [|t toks IH]; intros obj Hobj; [exact Hobj|].
    cbn [foldl]. by apply IH, parse_token_proto. }
  by apply H.
Qed.

Lemma parse_token_same obj tok :
  token_key tok ≠ "__proto__" →
  parse_token obj tok !! token_key tok = Some (token_value tok).
Proof. intros H. unfold parse_token. by apply obj_set_same. Qed.

Lemma foldl_parse_lookup toks :
  ∀ obj k,
    k ≠ "__proto__" →
    foldl parse_token obj toks !! k
    = match last (filter (fun t => token_key t = k) toks) with
      | Some tok => Some (token_value tok)
      | None => obj !! k
      end.
Proof.
  induction toks as [|t toks IH] using rev_ind; intros obj k Hk;
    [reflexivity|].
  rewrite foldl_app, filter_app. cbn [foldl].
  rewrite filter_cons, filter_nil.
  destruct (decide (token_key t = k)) as [<-|Hne].
  - rewrite last_snoc. by apply parse_token_same.
  - rewrite app_nil_r, parse_token_other by done. by apply IH.
Qed.

(** X2. What [parseOptions] holds under a key: the value of the last token
    with that key, nothing when no token has it. *)
Theorem parseOptions_lookup (str k : string) :
  k ≠ "__proto__" →
  parseOptions str !! k
  = token_value <$> last (filter (fun t => token_key t = k) (tokens str)).
Proof.
  intros Hk. unfold parseOptions. rewrite foldl_parse_lookup by done.
  by destruct (last _).
Qed.

Lemma parseOptions_lookup_witness :
  parseOptions "a:1,b:2,a:x" !! "a" = Some (VString "x").
Proof.
  rewrite (parseOptions_lookup "a:1,b:2,a:x" "a"); [reflexivity|].
  discriminate.
Defined.

End OptionsMore.

(** ** The two replacements of [parseOptions] *)

Module StripProps.
Import JS Helpers Remodal Spec OptionsProps OptionsMore.

Lemma append_assoc (a b c : string) : (a ++ b) ++ c = a ++ b ++ c.
Proof.
  induction a as [|x a IH]; [reflexivity|].
  change (String x ((a ++ b) ++ c) = String x (a ++ b ++ c)).
  by rewrite IH.
Qed.

Lemma append_cons x (a b : string) : String x a ++ b = String x (a ++ b).
Proof. reflexivity. Qed.

Lemma append_nil_r (a : string) : a ++ "" = a.
Proof.
  induction a as [|x a IH]; [reflexivity|].
  change (String x (a ++ "") = String x a). by rewrite IH.
Qed.

Lemma rev_string_app acc s : rev_string acc s = rev_string "" s ++ acc.
Proof.
  revert acc. induction s as [|c s IH]; intros acc; [reflexivity|].
  cbn [rev_string]. rewrite (IH (String c acc)), (IH (String c "")).
  by rewrite append_assoc.
Qed.

Lemma rev_string_cons c p s :
  rev_string "" (String c p) ++ s = rev_string "" p ++ String c s.
Proof.
  cbn [rev_string]. rewrite (rev_string_app (String c "")).
  by rewrite append_assoc.
Qed.

Lemma all_ws_app a b : all_ws (a ++ b) = all_ws a && all_ws b.
Proof.
  induction a as [|c a IH]; [reflexivity|].
  simpl. rewrite IH. by rewrite andb_assoc.
Qed.

Lemma all_ws_rev p : all_ws (rev_string "" p) = all_ws p.
Proof.
  induction p as [|c p IH]; [reflexivity|].
  cbn [rev_string]. rewrite rev_string_app, all_ws_app, IH. simpl.
  rewrite andb_true_r. apply andb_comm.
Qed.

Lemma ascii_eqb_eq a b : ascii_eqb a b = true ↔ a = b.
Proof. apply Ascii.eqb_eq. Qed.

Lemma ascii_eqb_refl a : ascii_eqb a a = true.
Proof. by apply ascii_eqb_eq. Qed.

Lemma ascii_eqb_ws a d :
  is_ws a = true → is_ws d = false → ascii_eqb a d = false.
Proof.
  intros Ha Hd. destruct (ascii_eqb a d) eqn:H; [|reflexivity].
  apply ascii_eqb_eq in H. congruence.
Qed.

Section Strip.
Context (d : ascii) (Hd : is_ws d = false).

Lemma clean_cons a t :
  clean d (String a t)
  = match t with
    | String b _ =>
        negb ((is_ws a && ascii_eqb b d) || (ascii_eqb a d && is_ws b))
        && clean d t
    | EmptyString => true
    end.
Proof. reflexivity. Qed.

Lemma clean_all_ws w : all_ws w = true → clean d w = true.
Proof.
  induction w as [|a w IH]; [reflexivity|].
  cbn [all_ws]. intros [Ha Hw]%andb_true_iff. rewrite clean_cons.
  destruct w as [|b w']; [reflexivity|].
  rewrite (IH Hw), andb_true_r.
  cbn [all_ws] in Hw. apply andb_true_iff in Hw as [Hb _].
  by rewrite (ascii_eqb_ws a d), (ascii_eqb_ws b d), andb_false_r.
Qed.

(** White space in front of a character that is neither white space nor
    the delimiter. *)
Lemma clean_ws_prefix w c t :
  all_ws w = true → is_ws c = false → ascii_eqb c d = false →
  clean d (String c t) = true → clean d (w ++ String c t) = true.
Proof.
  intros Hw Hc Hcd Ht. induction w as [|a w IH]; [exact Ht|].
  cbn [all_ws] in Hw. apply andb_true_iff in Hw as [Ha Hw].
  rewrite append_cons, clean_cons. specialize (IH Hw).
  destruct (w ++ String c t) as [|b u] eqn:Hu.
  { destruct w; [discriminate Hu|].
    rewrite append_cons in Hu. discriminate. }
  rewrite IH, andb_true_r.
  rewrite (ascii_eqb_ws a d) by done. cbn [andb orb].
  rewrite orb_false_r. apply negb_true_iff, andb_false_iff. right.
  destruct w as [|b' w']; [|rewrite append_cons in Hu];
    injection Hu as <- _.
  - exact Hcd.
  - cbn [all_ws] in Hw. apply andb_true_iff in Hw as [Hb _].
    by apply ascii_eqb_ws.
Qed.

Lemma clean_app_r a b : clean d (a ++ b) = true → clean d b = true.
Proof.
  induction a as [|c a IH]; [done|].
  rewrite append_cons, clean_cons.
  destruct (a ++ b) as [|x u] eqn:Hu.
  - intros _. destruct a as [|y a'].
    + change (b = "") in Hu. by rewrite Hu.
    + rewrite append_cons in Hu. discriminate.
  - intros [_ H]%andb_true_iff. by apply IH.
Qed.

(** The head of a stripped string. *)
Lemma head_ws_strip_after s : head_ws (strip_go d true "" s) = false.
Proof.
  induction s as [|c s IH]; [reflexivity|]. cbn [strip_go].
  destruct (ascii_eqb c d) eqn:Hcd; [exact Hd|].
  destruct (is_ws c) eqn:Hc; [exact IH|]. exact Hc.
Qed.

Lemma strip_go_clean s :
  (∀ p, all_ws p = true → clean d (strip_go d false p s) = true)
  ∧ clean d (strip_go d true "" s) = true.
Proof.
  induction s as [|c s [IH1 IH2]].
  - split; [|reflexivity]. intros p Hp. cbn [strip_go].
    apply clean_all_ws. by rewrite all_ws_rev.
  - assert (clean d (String d (strip_go d true "" s)) = true) as Hdelim.
    { rewrite clean_cons. pose proof (head_ws_strip_after s) as Hh.
      destruct (strip_go d true "" s) as [|b u]; [reflexivity|].
      cbn [head_ws] in Hh. rewrite IH2, Hh, Hd. cbn.
      by rewrite andb_false_r. }
    assert (is_ws c = false → ascii_eqb c d = false →
            clean d (String c (strip_go d false "" s)) = true) as Hplain.
    { intros Hc Hcd. rewrite clean_cons.
      destruct (strip_go d false "" s) as [|b u] eqn:Hu; [reflexivity|].
      rewrite <- Hu, IH1 by reflexivity. by rewrite Hc, Hcd. }
    split.
    + intros p Hp. cbn [strip_go].
      destruct (ascii_eqb c d) eqn:Hcd; [exact Hdelim|].
      destruct (is_ws c) eqn:Hc.
      * apply IH1. cbn [all_ws]. by rewrite Hc, Hp.
      * apply clean_ws_prefix; auto. by rewrite all_ws_rev.
    + cbn [strip_go].
      destruct (ascii_eqb c d) eqn:Hcd; [exact Hdelim|].
      destruct (is_ws c) eqn:Hc; [exact IH2|]. by apply Hplain.
Qed.

(** After the replacement no white space touches the delimiter. *)
Lemma strip_around_clean s : clean d (strip_around d s) = true.
Proof. by apply (proj1 (strip_go_clean s)). Qed.

Lemma clean_tail c t : clean d (String c t) = true → clean d t = true.
Proof. apply (clean_app_r (String c "") t). Qed.

Lemma clean_head_after t :
  clean d (String d t) = true → head_ws t = false.
Proof.
  rewrite clean_cons. destruct t as [|b u]; [reflexivity|].
  rewrite ascii_eqb_refl. cbn [head_ws andb].
  intros [H _]%andb_true_iff. apply negb_true_iff, orb_false_iff in H.
  apply H.
Qed.

Lemma clean_ws_before x t :
  is_ws x = true → clean d (String x (String d t)) = true → False.
Proof.
  intros Hx. rewrite clean_cons, Hx, ascii_eqb_refl. cbn. discriminate.
Qed.

(** A string in which no white space touches the delimiter is left as it
    is. *)
Lemma strip_go_fixed s :
  (∀ p, all_ws p = true →
        clean d (rev_string "" p ++ s) = true →
        strip_go d false p s = rev_string "" p ++ s)
  ∧ (head_ws s = false → clean d s = true → strip_go d true "" s = s).
Proof.
  induction s as [|c s [IH1 IH2]].
  - split; [|reflexivity]. intros p _ _. cbn [strip_go].
    by rewrite append_nil_r.
  - split.
    + intros p Hp Hclean. cbn [strip_go].
      destruct (ascii_eqb c d) eqn:Hcd.
      * apply ascii_eqb_eq in Hcd as ->. destruct p as [|x p'].
        -- change (String d (strip_go d true "" s) = String d s).
           rewrite IH2; [reflexivity| |].
           ++ by apply clean_head_after.
           ++ by apply clean_tail in Hclean.
        -- exfalso. rewrite rev_string_cons in Hclean.
           apply clean_app_r in Hclean.
           cbn [all_ws] in Hp. apply andb_true_iff in Hp as [Hx _].
           by apply (clean_ws_before x s).
      * destruct (is_ws c) eqn:Hc.
        -- rewrite IH1.
           ++ apply rev_string_cons.
           ++ cbn [all_ws]. by rewrite Hc, Hp.
           ++ by rewrite rev_string_cons.
        -- f_equal. f_equal. apply (IH1 ""); [reflexivity|].
           apply clean_app_r in Hclean. by apply clean_tail in Hclean.
    + intros Hh Hclean. cbn [head_ws] in Hh. cbn [strip_go]. rewrite Hh.
      destruct (ascii_eqb c d) eqn:Hcd.
      * apply ascii_eqb_eq in Hcd as ->. f_equal. apply IH2.
        -- by apply clean_head_after.
        -- by apply clean_tail in Hclean.
      * change (String c (strip_go d false "" s) = String c s).
        f_equal. apply (IH1 ""); [reflexivity|].
        by apply clean_tail in Hclean.
Qed.

Lemma strip_around_fixed s : clean d s = true → strip_around d s = s.
Proof. intros H. by apply (proj1 (strip_go_fixed s) ""). Qed.

(** A string without the delimiter is left as it is, and is one piece. *)
Lemma strip_go_lacks s :
  lacks d s = true → ∀ p, strip_go d false p s = rev_string "" p ++ s.
Proof.
  induction s as [|c s IH]; intros Hl p; cbn [strip_go].
  - by rewrite append_nil_r.
  - cbn [lacks] in Hl. apply andb_true_iff in Hl as [Hc Hl].
    apply negb_true_iff in Hc. rewrite Hc.
    destruct (is_ws c).
    + rewrite IH by done. apply rev_string_cons.
    + by rewrite (IH Hl "").
Qed.

Lemma split_lacks s : lacks d s = true → split d s = [s].
Proof.
  induction s as [|c s IH]; [reflexivity|].
  cbn [lacks split]. intros [Hc Hl]%andb_true_iff.
  apply negb_true_iff in Hc. by rewrite Hc, IH.
Qed.

End Strip.

Section Keep.
Context (d d' : ascii) (Hd : is_ws d = false) (Hd' : is_ws d' = false)
  (Hne : ascii_eqb d d' = false).

Lemma head_ws_strip s :
  head_ws (strip_go d false "" s) = true → head_ws s = true.
Proof.
  destruct s as [|c s]; [done|]. cbn [strip_go].
  destruct (ascii_eqb c d).
  - cbn [head_ws]. rewrite Hd. discriminate.
  - cbn [head_ws]. destruct (is_ws c) eqn:Hc; [done|].
    change (is_ws c = true → false = true). by rewrite Hc.
Qed.

Lemma clean_junction c t :
  clean d' t = true →
  (ascii_eqb c d' = true → head_ws t = false) →
  is_ws c = false →
  clean d' (String c t) = true.
Proof.
  intros Ht Hhead Hc. rewrite (clean_cons d'). destruct t as [|b u];
    [reflexivity|].
  rewrite Ht, Hc, andb_true_r. cbn [andb orb].
  destruct (ascii_eqb c d'); [|reflexivity].
  cbn [head_ws] in Hhead. by rewrite Hhead.
Qed.

Lemma clean_replace_tail w c r t :
  clean d' (w ++ String c r) = true →
  clean d' (String c t) = true →
  clean d' (w ++ String c t) = true.
Proof.
  intros Hw Ht. induction w as [|a w IH]; [exact Ht|].
  rewrite append_cons in Hw |- *. rewrite (clean_cons d') in Hw |- *.
  destruct w as [|b w'].
  - change ("" ++ String c r) with (String c r) in Hw.
    change ("" ++ String c t) with (String c t).
    apply andb_true_iff in Hw as [Hpair _]. by rewrite Hpair, Ht.
  - rewrite !append_cons in *.
    apply andb_true_iff in Hw as [Hpair Hrest]. rewrite Hpair.
    by apply IH.
Qed.

(** The replacement for [d] keeps a string free of white space next to
    another delimiter [d']. *)
Lemma strip_go_keeps s :
  (∀ p, all_ws p = true →
        clean d' (rev_string "" p ++ s) = true →
        clean d' (strip_go d false p s) = true)
  ∧ (clean d' s = true → clean d' (strip_go d true "" s) = true).
Proof.
  induction s as [|c s [IH1 IH2]].
  - split; [|reflexivity]. intros p _ H. cbn [strip_go].
    by rewrite append_nil_r in H.
  - assert (clean d' (String c s) = true →
            clean d' (String d (strip_go d true "" s)) = true) as Hdelim.
    { intros H. apply clean_junction.
      - apply IH2. by apply (clean_tail d') in H.
      - rewrite Hne. discriminate.
      - exact Hd. }
    assert (is_ws c = false → clean d' (String c s) = true →
            clean d' (String c (strip_go d false "" s)) = true) as Hplain.
    { intros Hc H. apply clean_junction; [| |exact Hc].
      - apply (IH1 ""); [reflexivity|]. by apply (clean_tail d') in H.
      - intros Hcd'. apply ascii_eqb_eq in Hcd' as ->.
        destruct (head_ws (strip_go d false "" s)) eqn:Hh; [|reflexivity].
        apply head_ws_strip in Hh.
        by rewrite (clean_head_after d' s H) in Hh. }
    split.
    + intros p Hp Hclean. cbn [strip_go].
      destruct (ascii_eqb c d) eqn:Hcd.
      * apply Hdelim. by apply (clean_app_r d') in Hclean.
      * destruct (is_ws c) eqn:Hc.
        -- apply IH1; [cbn [all_ws]; by rewrite Hc, Hp|].
           by rewrite rev_string_cons.
        -- eapply clean_replace_tail; [exact Hclean|].
           apply Hplain; [done|]. by apply (clean_app_r d') in Hclean.
    + intros Hclean. cbn [strip_go].
      destruct (ascii_eqb c d) eqn:Hcd; [by apply Hdelim|].
      destruct (is_ws c) eqn:Hc.
      * apply IH2. by apply (clean_tail d') in Hclean.
      * by apply Hplain.
Qed.

Lemma strip_around_keeps s :
  clean d' s = true → clean d' (strip_around d s) = true.
Proof. intros H. by apply (proj1 (strip_go_keeps s) ""). Qed.

End Keep.

(** X3. After the two replacements of [parseOptions] no white space is left
    next to a colon or a comma; replacing again changes nothing, so an
    options string and its normal form parse to the same object. *)
Theorem normalise_strips_delimiters (str : string) :
  clean ":" (normalise str) = true
  ∧ clean "," (normalise str) = true
  ∧ normalise (normalise str) = normalise str
  ∧ parseOptions (normalise str) = parseOptions str.
Proof.
  assert (clean ":" (normalise str) = true) as Hcolon.
  { apply strip_around_keeps; try reflexivity.
    by apply strip_around_clean. }
  assert (clean "," (normalise str) = true) as Hcomma
    by (by apply strip_around_clean).
  assert (normalise (normalise str) = normalise str) as Hfix.
  { unfold normalise at 1.
    rewrite (strip_around_fixed ":") by done.
    by rewrite (strip_around_fixed ",") by done. }
  refine (conj Hcolon (conj Hcomma (conj Hfix _))).
  unfold parseOptions, tokens. fold (normalise (normalise str)).
  fold (normalise str). by rewrite Hfix.
Qed.

(** X4. A string without colon and comma is one key whose value is missing:
    it is stored as [undefined], under the string as it is. *)
Theorem parseOptions_bare_key (str : string) :
  lacks ":" str = true → lacks "," str = true →
  parseOptions str = obj_set str VUndefined ∅.
Proof.
  intros Hcolon Hcomma. unfold parseOptions, tokens, strip_around.
  rewrite (strip_go_lacks ":") by done.
  change (rev_string "" "" ++ str) with str.
  rewrite (strip_go_lacks ",") by done.
  change (rev_string "" "" ++ str) with str.
  rewrite (split_lacks ",") by done. cbn [foldl]. unfold parse_token.
  by rewrite (split_lacks ":") by done.
Qed.

Lemma parseOptions_bare_key_witness :
  parseOptions " closeOnEscape " = {[" closeOnEscape " := VUndefined]}.
Proof.
  rewrite (parseOptions_bare_key " closeOnEscape "); reflexivity.
Defined.

End StripProps.

(** ** The class helpers *)

Module ClassProps.
Import JS Helpers Remodal Spec.

Lemma plain_app a b : plain (a ++ b) = plain a && plain b.
Proof.
  induction a as [|c a IH]; [reflexivity|].
  change (plain (String c (a ++ b)) = plain (String c a) && plain b).
  cbn [plain]. rewrite IH. by rewrite andb_assoc.
Qed.

Lemma plain_rev acc s :
  plain (rev_string acc s) = plain s && plain acc.
Proof.
  revert acc. induction s as [|c s IH]; intros acc; [reflexivity|].
  cbn [rev_string plain]. rewrite IH. cbn [plain].
  destruct (negb _), (plain s), (plain acc); reflexivity.
Qed.

Lemma rev_string_empty acc s : rev_string acc s = "" → s = "" ∧ acc = "".
Proof.
  revert acc. induction s as [|c s IH]; intros acc; [done|].
  cbn [rev_string]. intros H. apply IH in H as [_ H]. discriminate.
Qed.

Local Open Scope list_scope.

Lemma class_names_go_ok s :
  ∀ cur c, plain cur = true →
           c ∈ class_names_go cur s → class_name_ok c.
Proof.
  induction s as [|x s IH]; intros cur c Hcur; cbn [class_names_go].
  - destruct cur as [|y cur']; [by intros H; inversion H|].
    intros ->%list_elem_of_singleton. split.
    + intros H. apply rev_string_empty in H as [H _]. discriminate.
    + rewrite plain_rev. by rewrite Hcur.
  - destruct (is_ws x || ascii_eqb x ",") eqn:Hx.
    + rewrite elem_of_app. intros [Hc|Hc]; [|by apply (IH "" c)].
      destruct cur as [|y cur']; [by inversion Hc|].
      apply list_elem_of_singleton in Hc as ->. split.
      * intros H. apply rev_string_empty in H as [H _]. discriminate.
      * rewrite plain_rev. by rewrite Hcur.
    + apply IH. cbn [plain]. by rewrite Hx, Hcur.
Qed.

(** X5. The helpers hand to [classList] only names that are not empty and
    hold neither white space nor a comma. *)
Theorem class_names_ok (classes c : string) :
  c ∈ class_names classes → class_name_ok c.
Proof. by apply class_names_go_ok. Qed.

Lemma class_names_ok_witness : class_name_ok "b".
Proof.
  apply (class_names_ok " a, b  c" "b").
  do 1 apply list_elem_of_further. apply list_elem_of_here.
Defined.

Lemma element_eq (a b : Element) :
  classList a = classList b → display a = display b →
  listeners a = listeners b → namespaces a = namespaces b → a = b.
Proof. destruct a, b. cbn. by intros -> -> -> ->. Qed.

(** X6. Adding and removing classes: every name added is on the element,
    every name removed is off it; removing after adding is removing; on
    an element that had none of the names it gives the element back. *)
Theorem add_then_remove_classes (classes : string) (el : Element) :
  (∀ c, c ∈ class_names classes →
        hasClass (classList (addClasses classes el)) c = true
        ∧ hasClass (classList (removeClasses classes el)) c = false)
  ∧ removeClasses classes (addClasses classes el)
    = removeClasses classes el
  ∧ addClasses classes (addClasses classes el) = addClasses classes el
  ∧ ((∀ c, c ∈ class_names classes → c ∉ classList el) →
     removeClasses classes (addClasses classes el) = el).
Proof.
  refine (conj _ (conj _ (conj _ _))).
  - intros c Hc. split.
    + apply bool_decide_eq_true. cbn [addClasses classList].
      apply elem_of_union. right. by apply elem_of_list_to_set.
    + apply bool_decide_eq_false. cbn [removeClasses classList].
      rewrite elem_of_difference, elem_of_list_to_set. tauto.
  - apply element_eq; try reflexivity. cbn [addClasses removeClasses classList].
    apply set_eq. intros x.
    rewrite !elem_of_difference, elem_of_union. tauto.
  - apply element_eq; try reflexivity. cbn [addClasses classList].
    apply set_eq. intros x. rewrite !elem_of_union. tauto.
  - intros Hfresh. apply element_eq; try reflexivity.
    cbn [addClasses removeClasses classList].
    apply set_eq. intros x.
    rewrite elem_of_difference, elem_of_union, elem_of_list_to_set.
    split; [tauto|]. intros Hx. split; [by left|].
    intros Hin. by apply (Hfresh x).
Qed.

Lemma add_then_remove_classes_witness :
  removeClasses "dark wide" (addClasses "dark wide" blank) = blank.
Proof.
  apply (proj2 (proj2 (proj2 (add_then_remove_classes "dark wide" blank)))).
  intros c _. apply not_elem_of_empty.
Defined.

End ClassProps.

(** ** The namespaced listeners *)

Module OnOffProps.
Import JS Helpers Remodal Spec ListenerProps ClassProps.
Local Open Scope list_scope.

Lemma ns_get_None_fresh ev ns :
  ns_get ev ns = None ↔ ∀ p, p ∈ ns → p.1 ≠ ev.
Proof.
  split; [apply ns_get_None|].
  induction ns as [|[e c] ns IH]; intros H; [reflexivity|].
  cbn [ns_get]. destruct (decide (e = ev)) as [->|Hne].
  - exfalso. by apply (H (ev, c) (list_elem_of_here _ _)).
  - apply IH. intros p Hp. by apply H, list_elem_of_further.
Qed.

Lemma ns_get_app_fresh ev ev' cb ns :
  ev ≠ ev' → ns_get ev ns = None → ns_get ev (ns ++ [(ev', cb)]) = None.
Proof.
  intros Hne H. apply ns_get_None_fresh. intros p Hp.
  apply elem_of_app in Hp as [Hp|Hp].
  - by apply (ns_get_None ev ns).
  - apply list_elem_of_singleton in Hp as ->. cbn. congruence.
Qed.

(** Subscribing under a name the table does not hold yet. *)
Lemma addSingle_fresh cb el ev :
  tidy el → ns_get ev (namespaces el) = None →
  listeners (addSingleNSEvent cb el ev) = listeners el ++ [(ev, cb)]
  ∧ namespaces (addSingleNSEvent cb el ev) = namespaces el ++ [(ev, cb)].
Proof.
  intros [Heq Hnd] Hfresh. cbn [addSingleNSEvent listeners namespaces].
  pose proof (ns_get_None ev _ Hfresh) as Hkeys. split.
  - unfold addEventListener. rewrite bool_decide_eq_false_2; [done|].
    rewrite Heq. intros Hin. by apply (Hkeys _ Hin).
  - unfold ns_set, ns_delete. by rewrite filter_all.
Qed.

Lemma addNS_fresh cb evs :
  ∀ el, tidy el → NoDup evs →
        (∀ ev, ev ∈ evs → ns_get ev (namespaces el) = None) →
        listeners (addNSEventListener evs cb el)
        = listeners el ++ ((fun ev => (ev, cb)) <$> evs)
        ∧ namespaces (addNSEventListener evs cb el)
          = namespaces el ++ ((fun ev => (ev, cb)) <$> evs).
Proof.
  unfold addNSEventListener.
  induction evs as [|ev evs IH]; intros el Htidy Hnd Hfresh.
  - cbn. by rewrite !app_nil_r.
  - apply NoDup_cons in Hnd as [Hev Hnd]. cbn [foldl fmap list_fmap].
    destruct (addSingle_fresh cb el ev Htidy) as [Hl Hn].
    { apply Hfresh, list_elem_of_here. }
    destruct (IH (addSingleNSEvent cb el ev)) as [Hl' Hn'].
    + destruct Htidy as [Heq Hkeys]. split; [congruence|].
      rewrite Hn, fmap_app. apply NoDup_app. split; [done|]. split.
      * intros k Hk Hk'.
        apply list_elem_of_fmap in Hk as (p & Hpk & Hp).
        apply list_elem_of_fmap in Hk' as (q & Hqk & Hq).
        apply list_elem_of_singleton in Hq. subst q. cbn in Hqk.
        apply (ns_get_None ev _ (Hfresh ev (list_elem_of_here _ _)) p Hp).
        congruence.
      * apply NoDup_singleton.
    + exact Hnd.
    + intros ev' Hev'. rewrite Hn. apply ns_get_app_fresh.
      * intros ->. by apply Hev.
      * by apply Hfresh, list_elem_of_further.
    + rewrite Hl', Hn', Hl, Hn. by rewrite <- !app_assoc.
Qed.

(** X7. [on] then [off] with the same names, none of which the element had
    in its table, gives the element back. *)
Theorem on_then_off_restores (evs : list AnimEvent) (cb : Handler)
    (el : Element) :
  tidy el → NoDup evs →
  (∀ ev, ev ∈ evs → ns_get ev (namespaces el) = None) →
  removeNSEventListener evs (addNSEventListener evs cb el) = el.
Proof.
  intros Htidy Hnd Hfresh.
  destruct (addNS_fresh cb evs el Htidy Hnd Hfresh) as [Hl Hn].
  set (el' := addNSEventListener evs cb el) in *.
  assert (tidy el') as Htidy'.
  { destruct Htidy as [Heq Hkeys]. split; [congruence|].
    rewrite Hn, fmap_app. apply NoDup_app. split; [done|]. split.
    - intros k Hk Hk'.
      apply list_elem_of_fmap in Hk as (p & Hpk & Hp).
      apply list_elem_of_fmap in Hk' as (q & Hqk & Hq).
      apply list_elem_of_fmap in Hq as (ev & Hqev & Hev).
      subst q. cbn in Hqk.
      apply (ns_get_None ev _ (Hfresh ev Hev) p Hp). congruence.
    - rewrite <- list_fmap_compose.
      replace (fst ∘ (λ ev : AnimEvent, (ev, cb))) with (@id AnimEvent)
        by done.
      by rewrite list_fmap_id. }
  assert (namespaces (removeNSEventListener evs el') = namespaces el)
    as Hns.
  { rewrite namespaces_removeNS, Hn, filter_app.
    rewrite filter_all, filter_none; [by rewrite app_nil_r| |].
    - intros p Hp Hnot. apply Hnot.
      apply list_elem_of_fmap in Hp as (ev & -> & Hev). exact Hev.
    - intros p Hp Hin.
      by apply (ns_get_None p.1 _ (Hfresh _ Hin) p Hp). }
  apply element_eq.
  - rewrite (proj1 (classList_removeNS _ _)).
    apply (proj1 (classList_addNS _ _ _)).
  - rewrite (proj2 (classList_removeNS _ _)).
    apply (proj2 (classList_addNS _ _ _)).
  - rewrite (proj1 (tidy_removeNS evs el' Htidy')), Hns.
    symmetry. apply Htidy.
  - exact Hns.
Qed.

Lemma on_then_off_restores_witness :
  removeNSEventListener ANIMATIONSTART_EVENTS
    (addNSEventListener ANIMATIONSTART_EVENTS (handleAnimationStart 7)
       blank)
  = blank.
Proof.
  apply (on_then_off_restores ANIMATIONSTART_EVENTS
           (handleAnimationStart 7) blank).
  - split; [reflexivity|constructor].
  - apply (bool_decide_unpack _). by vm_compute.
  - reflexivity.
Defined.

(** X8. Two subscriptions under one name with different callbacks, then one
    [off]: the table knows the second callback only, so the first stays
    attached, and the table has nothing left to remove it by. *)
Theorem second_on_orphans_the_first (ev : AnimEvent) (cb1 cb2 : Handler)
    (el : Element) :
  cb1 ≠ cb2 → quiet_element el →
  let el' :=
    removeNSEventListener [ev]
      (addNSEventListener [ev] cb2 (addNSEventListener [ev] cb1 el)) in
  listeners el' = [(ev, cb1)] ∧ namespaces el' = [].
Proof.
  intros Hne [Hl Hn] el'. unfold el', removeNSEventListener,
    addNSEventListener. cbn [foldl].
  cbn [removeSingleNSEvent addSingleNSEvent listeners namespaces].
  rewrite Hl, Hn.
  unfold addEventListener at 2. cbn [bool_decide decide_rel].
  rewrite bool_decide_eq_false_2 by (intros H; inversion H).
  rewrite app_nil_l.
  unfold addEventListener. rewrite bool_decide_eq_false_2.
  2:{ intros H. apply list_elem_of_singleton in H. congruence. }
  unfold ns_set, ns_delete. cbn [filter list_filter app].
  rewrite !decide_False by (cbn; intros H; by apply H).
  cbn [app ns_get]. rewrite decide_True by done.
  unfold removeEventListener. cbn [filter list_filter app].
  rewrite decide_True by congruence.
  rewrite (decide_False (P := (ev, cb2) ≠ (ev, cb2))) by (intros H; by apply H).
  rewrite (decide_False (P := (ev, cb2).1 ≠ ev)) by (intros H; by apply H).
  done.
Qed.

Lemma second_on_orphans_the_first_witness :
  listeners
    (removeNSEventListener [(AnimEnd, Std)]
       (addNSEventListener [(AnimEnd, Std)] (handleAnimationEnd 2)
          (addNSEventListener [(AnimEnd, Std)] (handleAnimationEnd 1)
             blank)))
  = [((AnimEnd, Std), handleAnimationEnd 1)].
Proof.
  apply (second_on_orphans_the_first (AnimEnd, Std) (handleAnimationEnd 1)
           (handleAnimationEnd 2) blank).
  - discriminate.
  - by split.
Defined.

End OnOffProps.

(** ** The state machine between operations *)

Module MachineProps.
Import JS Helpers Remodal Spec Frames ListenerProps WorldProps OpProps
  BarrierProps TraceProps InvariantProps SingletonProps GuardProps.
Local Open Scope list_scope.

Lemma state_class_inj s s' : state_class s = state_class s' → s = s'.
Proof. destruct s, s'; (reflexivity || discriminate). Qed.

Lemma class_names_allStates :
  class_names allStates = state_class <$> all_states.
Proof. reflexivity. Qed.

Lemma class_names_state_class st :
  class_names (namespacify ["is"; state_name st]) = [state_class st].
Proof. by destruct st. Qed.

(** X9. After [setState] each of the four surfaces carries the class of the
    new state and none of the other three state classes. *)
Theorem setState_one_state_class :
  ∀ (i : nat) (st st' : STATES) (silent : bool)
    (reason : option STATE_CHANGE_REASONS) (w : World) (e : Elem),
    alive i w → is_surface i e = true →
    hasClass (classList (elem e (setState i st silent reason w)))
      (state_class st')
    = bool_decide (st' = st).
Proof.
  intros i st st' silent reason w e Hi He.
  rewrite elem_setState, elem_on_surfaces by eauto using alive_present.
  unfold restyle. cbn [addClasses removeClasses classList].
  rewrite class_names_allStates, class_names_state_class.
  unfold hasClass. apply bool_decide_ext.
  rewrite elem_of_union, elem_of_difference, !elem_of_list_to_set.
  rewrite list_elem_of_singleton. split.
  - intros [[_ Hno]|Heq]; [|by apply state_class_inj].
    exfalso. apply Hno. apply list_elem_of_fmap. exists st'. split; [done|].
    destruct st'; unfold all_states;
      repeat first [apply list_elem_of_here | apply list_elem_of_further].
  - intros ->. by right.
Qed.

Lemma setState_one_state_class_witness :
  hasClass
    (classList (elem EBg (setState 0 OPENING false None one_dialog)))
    (state_class CLOSED)
  = false.
Proof.
  apply (setState_one_state_class 0%nat OPENING CLOSED false None
           one_dialog EBg one_dialog_alive).
  reflexivity.
Defined.

Section WithEnv.
Context (env : Env).

Lemma state_of_close c reason w :
  state_of c w = OPENED →
  state_of c (close env c reason w) ≠ OPENED
  ∧ ∀ j, j ≠ c → state_of j (close env c reason w) = state_of j w.
Proof.
  intros Hc. destruct (lookup w !! c) as [this|] eqn:Hi.
  2:{ unfold state_of in Hc. rewrite Hi in Hc. discriminate. }
  pose proof (state_of_lookup c this w Hi) as Hst. rewrite Hc in Hst.
  rewrite (close_eq env c reason this w Hi) by done.
  assert (alive c (clear_fragment this w)) as Ha.
  { unfold alive. rewrite lookup_clear_fragment.
    by apply lookup_lt_Some in Hi. }
  split.
  - rewrite state_of_syncWithAnimation by done.
    rewrite decide_True by done.
    destruct (no_animation env c _); discriminate.
  - intros j Hne. rewrite state_of_syncWithAnimation by done.
    rewrite decide_False by done. unfold state_of.
    by rewrite lookup_clear_fragment.
Qed.

Lemma current_close i reason w :
  current (close env i reason w) = current w.
Proof.
  destruct (lookup w !! i) as [this|] eqn:Hi; [|by rewrite close_absent].
  destruct (decide (state this = OPENED)) as [Hst|Hst];
    [|by rewrite (close_guarded env i reason this)].
  rewrite (close_eq env i reason this w Hi Hst).
  rewrite (current_page _ _ (page_syncWithAnimation env _ _ _ _)).
  apply current_clear_fragment.
Qed.

Lemma current_open i w :
  current (open env i w) = current w ∨ current (open env i w) = Some i.
Proof.
  destruct (lookup w !! i) as [this|] eqn:Hi;
    [|left; by rewrite open_absent].
  destruct (decide (state this = OPENING ∨ state this = CLOSING))
    as [Hst|Hst]; [left; by rewrite (open_guarded env i this)|].
  right. rewrite (open_eq env i this w Hi Hst).
  rewrite (current_page _ _ (page_syncWithAnimation env _ _ _ _)).
  apply current_show.
Qed.

Lemma current_kept_open i w :
  is_Some (current w) → is_Some (current (open env i w)).
Proof.
  intros H. destruct (current_open i w) as [-> | ->]; [done|eauto].
Qed.

Lemma current_kept_run_op o w :
  is_Some (current w) → is_Some (current (run_op env o w)).
Proof.
  intros H. destruct o; cbn [run_op].
  - unfold remodal. cbv zeta.
    destruct (_ && _); [apply current_kept_open|];
      by rewrite current_construct.
  - by apply current_kept_open.
  - by rewrite current_close.
  - unfold click_close. by rewrite current_close.
  - unfold click_cancel. cbv zeta.
    destruct (truthy _); [rewrite current_close|]; exact H.
  - unfold click_confirm. cbv zeta.
    destruct (truthy _); [rewrite current_close|]; exact H.
  - unfold click_wrapper. destruct (negb _); [done|].
    destruct (truthy _); [by rewrite current_close|done].
  - unfold keydown. destruct (current w) eqn:Hc; [|by rewrite Hc].
    destruct (_ && _); [rewrite current_close|]; by rewrite Hc.
  - unfold handleHashChangeEvent. cbv zeta.
    assert (is_Some (current (set_hash h w))) as H' by exact H.
    destruct (String.eqb h "").
    + destruct (current (set_hash h w)) eqn:Hc; [|by rewrite Hc].
      destruct (_ && _); [rewrite current_close|]; by rewrite Hc.
    + destruct (find_id _ _); [|done].
      destruct (truthy _); [by apply current_kept_open|done].
  - by rewrite (current_page _ _ (page_dispatch env _ _ _)).
Qed.

End WithEnv.

(** X10. The escape key, with [closeOnEscape] on, and the change of the
    fragment to the empty one, with [hashTracking] on, on a page with a
    current instance and listeners that only observe: the current
    instance is not opened afterwards (if it was, it is now closing or
    closed), and every other instance is in the state it was in. *)
Theorem escape_and_empty_fragment_close :
  ∀ (env : Env) (w : World) (c : nat),
    current w = Some c →
    (truthy (setting "closeOnEscape" w) = true →
     state_of c (keydown env 27 w) ≠ OPENED
     ∧ ∀ j, j ≠ c → state_of j (keydown env 27 w) = state_of j w)
    ∧ (truthy (setting "hashTracking" w) = true →
       state_of c (handleHashChangeEvent env "" w) ≠ OPENED
       ∧ ∀ j, j ≠ c →
              state_of j (handleHashChangeEvent env "" w) = state_of j w).
Proof.
  intros env w c Hcur. split.
  - intros Hopt. unfold keydown. rewrite Hcur, Hopt, Z.eqb_refl.
    destruct (bool_decide_reflect (state_of c w = OPENED)) as [Hc|Hc];
      cbn [andb]; [by apply state_of_close|done].
  - intros Hopt. unfold handleHashChangeEvent. cbv zeta.
    change (String.eqb "" "") with true. cbv iota.
    change (current (set_hash "" w)) with (current w).
    change (setting "hashTracking" (set_hash "" w))
      with (setting "hashTracking" w).
    rewrite Hcur, Hopt, andb_true_r.
    destruct (bool_decide_reflect (state_of c (set_hash "" w) = OPENED))
      as [Hc|Hc]; [|done].
    exact (state_of_close env c None (set_hash "" w) Hc).
Qed.

Lemma escape_and_empty_fragment_close_witness :
  state_of 0 (keydown still 27 opened_dialog) ≠ OPENED
  ∧ state_of 0 (handleHashChangeEvent still "" opened_dialog) ≠ OPENED.
Proof.
  destruct (escape_and_empty_fragment_close still opened_dialog 0%nat
              eq_refl) as [H1 H2].
  split; [apply H1 | apply H2]; vm_compute; reflexivity.
Defined.

(** X11. Once some instance is the current one, some instance stays the
    current one whatever happens to the page next: only [open] assigns
    [current], and nothing clears it. *)
Theorem current_is_never_cleared :
  ∀ (env : Env) (ops : list Op) (w : World),
    is_Some (current w) → is_Some (current (run_ops env ops w)).
Proof.
  intros env ops. unfold run_ops.
  induction ops as [|o ops IH]; intros w H; [done|].
  cbn [foldl]. by apply IH, current_kept_run_op.
Qed.

Lemma current_is_never_cleared_witness :
  is_Some (current (run_ops still [OpClose 0 None; OpKeydown 27]
                      opened_dialog)).
Proof.
  apply (current_is_never_cleared still [OpClose 0%nat None; OpKeydown 27]
           opened_dialog).
  vm_compute. eauto.
Defined.



(** X13. [halt] on an instance it has just halted does nothing more: the
    instance is closed by then, whatever state it was in. *)
Theorem halt_twice :
  ∀ (env : Env) (i : nat) (w : World),
    state_of i (halt env i w) = CLOSED
    ∧ halt env i (halt env i w) = halt env i w.
Proof.
  intros env i w.
  assert (state_of i (halt env i w) = CLOSED) as H
    by (rewrite state_of_halt; by rewrite decide_True).
  split; [exact H|]. by apply halt_closed.
Qed.

End MachineProps.

(** ** The duration probe *)

Module DurationProps.
Import JS Helpers Remodal Spec.
Local Open Scope list_scope.

(** The order of [SFcompare] on the finite numbers of one sign. *)
Lemma finite_compare_trans e1 m1 e2 m2 e3 m3 c :
  match (e1 ?= e2)%Z with
  | Lt => Lt | Gt => Gt | Eq => Pos.compare_cont Eq m1 m2
  end = c →
  match (e2 ?= e3)%Z with
  | Lt => Lt | Gt => Gt | Eq => Pos.compare_cont Eq m2 m3
  end = c →
  c ≠ Eq →
  match (e1 ?= e3)%Z with
  | Lt => Lt | Gt => Gt | Eq => Pos.compare_cont Eq m1 m3
  end = c.
Proof.
  change (Pos.compare_cont Eq) with Pos.compare.
  destruct (Z.compare_spec e1 e2) as [H12 | H12 | H12],
    (Z.compare_spec e2 e3) as [H23 | H23 | H23];
    intros H1 H2 Hc; subst; try congruence.
  - rewrite Z.compare_refl.
    destruct (Pos.compare_spec m1 m2) as [Hm12 | Hm12 | Hm12];
      destruct (Pos.compare_spec m2 m3) as [Hm23 | Hm23 | Hm23];
      subst; try congruence.
    + apply Pos.compare_lt_iff. lia.
    + apply Pos.compare_gt_iff. lia.
  - rewrite (proj2 (Z.compare_lt_iff _ _) H23). congruence.
  - rewrite (proj2 (Z.compare_gt_iff _ _)) by lia. congruence.
  - by rewrite (proj2 (Z.compare_lt_iff _ _) H12).
  - by rewrite (proj2 (Z.compare_lt_iff e1 e3)) by lia.
  - by rewrite (proj2 (Z.compare_gt_iff _ _)) by lia.
  - by rewrite (proj2 (Z.compare_gt_iff e1 e3)) by lia.
Qed.

Lemma num_gt_irrefl x : num_gt x x = false.
Proof.
  unfold num_gt, SFltb.
  destruct x as [s|s| |s m e]; cbn [SFcompare]; [done|by destruct s|done|].
  change (Pos.compare_cont Eq) with Pos.compare.
  rewrite Z.compare_refl, Pos.compare_refl. by destruct s.
Qed.

Lemma flip_gt (e1 e2 : Z) (m1 m2 : positive) :
  match (e1 ?= e2)%Z with
  | Lt => Gt | Gt => Lt | Eq => CompOpp (Pos.compare_cont Eq m1 m2)
  end = Lt →
  match (e1 ?= e2)%Z with
  | Lt => Lt | Gt => Gt | Eq => Pos.compare_cont Eq m1 m2
  end = Gt.
Proof.
  destruct (e1 ?= e2)%Z; try done. by destruct (Pos.compare_cont Eq m1 m2).
Qed.

Lemma lt_case (c : comparison) :
  match c with Lt => true | _ => false end = true → c = Lt.
Proof. by destruct c. Qed.

Lemma num_gt_trans x y z :
  num_gt x y = true → num_gt y z = true → num_gt x z = true.
Proof.
  unfold num_gt, SFltb.
  destruct x as [sx|sx| |sx mx ex], y as [sy|sy| |sy my ey],
    z as [sz|sz| |sz mz ez]; cbn [SFcompare];
    try discriminate;
    try (destruct sx; discriminate); try (destruct sy; discriminate);
    try (destruct sz; discriminate);
    try (destruct sx, sy; discriminate);
    try (destruct sy, sz; discriminate);
    try (destruct sx, sz; discriminate);
    try (destruct sx, sy, sz; (discriminate || done)).
  all: try (destruct sx, sy; (discriminate || done)).
  all: try (destruct sz, sy; (discriminate || done)).
  destruct sx, sy, sz; try (discriminate || done).
  - intros H1%lt_case%flip_gt H2%lt_case%flip_gt.
    pose proof (finite_compare_trans _ _ _ _ _ _ Gt H2 H1 ltac:(done)) as F.
    destruct (ez ?= ex)%Z; try done. by rewrite F.
  - intros H1%lt_case H2%lt_case.
    by rewrite (finite_compare_trans _ _ _ _ _ _ Lt H2 H1).
Qed.

Lemma num_gt_not_NaN x y : num_gt x y = true → x ≠ NaN.
Proof.
  unfold num_gt, SFltb, NaN. intros H ->.
  by destruct y as [s|s| |s m e].
Qed.

(** The loop of [getAnimationDuration] over any list of numbers. *)
Lemma max_loop (l : list number) (init : number) :
  init ≠ NaN →
  ∃ r, r = foldl (fun max num => if num_gt num max then num else max)
             init l
       ∧ r ≠ NaN
       ∧ (r = init ∨ (r ∈ l ∧ num_gt r init = true))
       ∧ Forall (fun n => num_gt n r = false) l.
Proof.
  revert init. induction l as [|n l IH]; intros init Hinit; cbn [foldl].
  { eexists. split; [reflexivity|]. split; [done|].
    split; [by left|constructor]. }
  destruct (num_gt n init) eqn:Hgt.
  - destruct (IH n (num_gt_not_NaN _ _ Hgt)) as (r & Heq & Hr & Hin & Hall).
    exists r. split; [done|]. clear Heq. split; [done|]. split.
    + right. destruct Hin as [->|[Hin Hrn]].
      * split; [apply list_elem_of_here|done].
      * split; [by apply list_elem_of_further|].
        by apply (num_gt_trans _ n).
    + constructor; [|done].
      destruct Hin as [->|[_ Hrn]]; [apply num_gt_irrefl|].
      destruct (num_gt n r) eqn:Hn; [|done].
      pose proof (num_gt_trans _ _ _ Hn Hrn) as Hnn.
      by rewrite num_gt_irrefl in Hnn.
  - destruct (IH init Hinit) as (r & Heq & Hr & Hin & Hall).
    exists r. split; [done|]. clear Heq. split; [done|]. split.
    + destruct Hin as [->|[Hin Hri]]; [by left|].
      right. split; [by apply list_elem_of_further|done].
    + constructor; [|done].
      destruct Hin as [->|[_ Hri]]; [done|].
      destruct (num_gt n r) eqn:Hn; [|done].
      pose proof (num_gt_trans _ _ _ Hn Hri) as Hni.
      by rewrite Hgt in Hni.
Qed.

Lemma foldl_over_fmap {A B C} (g : A → B → A) (f : C → B) a l :
  foldl g a (f <$> l) = foldl (fun a i => g a (f i)) a l.
Proof. revert a. induction l as [|x l IH]; intros a; [done|]. apply IH. Qed.

(** X14. [getAnimationDuration] returns 0 when the animation is named
    [none]; otherwise it returns the greatest of the numbers it
    computes, one for each listed duration: a number, never NaN, that
    none of them exceeds, and that is one of them unless none of them
    exceeds [-Infinity]. *)
Theorem getAnimationDuration_is_the_maximum :
  ∀ (env : Env) (w : World) (el : Elem),
    let r := getAnimationDuration env w el in
    if IS_ANIMATION env
       && bool_decide
            (getPrefixedStyles env w el "animation-name" = Some "none")
    then r = Dec 0 0
    else
      r ≠ NaN
      ∧ (r = Inf true
         ∨ (r ∈ animation_times env w el ∧ num_gt r (Inf true) = true))
      ∧ Forall (fun n => num_gt n r = false) (animation_times env w el).
Proof.
  intros env w el. cbv zeta. unfold getAnimationDuration.
  destruct (IS_ANIMATION env && _); [reflexivity|].
  cbv zeta. unfold animation_times. cbv zeta.
  rewrite <- (foldl_over_fmap
                (fun max num => if num_gt num max then num else max)).
  match goal with
  | |- context [foldl ?g (Inf true) ?l] =>
      destruct (max_loop l (Inf true)) as (r & <- & H); [done|exact H]
  end.
Qed.

Lemma last_nonempty_wins (l : list string) (acc : option string) :
  foldl (fun matchingStyle style =>
           if String.eqb style "" then matchingStyle else Some style)
        acc l
  = match last (filter (fun s => s ≠ "") l) with
    | Some s => Some s
    | None => acc
    end.
Proof.
  revert acc. induction l as [|x l IH]; intros acc; [done|].
  cbn [foldl]. rewrite IH. destruct (String.eqb_spec x "") as [->|Hx].
  - by rewrite filter_cons_False by (intros H; by apply H).
  - rewrite filter_cons_True by done. rewrite last_cons.
    by destruct (last _).
Qed.

(** X15. [getPrefixedStyles] returns the value under the last of the five
    prefixed names whose value is not empty, and [undefined] when all
    five are empty; it never returns the empty string. *)
Theorem getPrefixedStyles_last_wins :
  ∀ (env : Env) (w : World) (el : Elem) (styleName : string),
    getPrefixedStyles env w el styleName
    = last (filter (fun s => s ≠ "")
              ((fun prefix => getStyle env w el (prefix ++ styleName)%string)
               <$> prefixes))
    ∧ getPrefixedStyles env w el styleName ≠ Some "".
Proof.
  intros env w el styleName.
  assert (getPrefixedStyles env w el styleName
          = last (filter (fun s => s ≠ "")
              ((fun prefix => getStyle env w el (prefix ++ styleName)%string)
               <$> prefixes))) as Heq.
  { unfold getPrefixedStyles.
    rewrite <- (foldl_over_fmap
                  (fun matchingStyle style =>
                     if String.eqb style "" then matchingStyle
                     else Some style)
                  (fun prefix =>
                     getStyle env w el (prefix ++ styleName)%string)).
    rewrite last_nonempty_wins. by destruct (last _). }
  split; [exact Heq|]. rewrite Heq. intros Hlast.
  apply last_Some_elem_of, list_elem_of_filter in Hlast as [Hne _].
  by apply Hne.
Qed.

End DurationProps.

(** ** The screen lock over whole runs *)

Module LockProps.
Import JS Helpers Remodal Spec Frames ListenerProps WorldProps OpProps
  BarrierProps InvariantProps.
Local Open Scope list_scope.

Lemma unlocked_screen w w' : screen w' = screen w → unlocked w → unlocked w'.
Proof. unfold screen, unlocked. intros [= -> _]. done. Qed.

Section WithEnv.
Context (env : Env).

Lemma screen_lock_unlocked a w :
  unlocked w → screen (screenLockToggle env a w) = screen w.
Proof. intros H. by rewrite ScreenProps.unlock_without_marker. Qed.

Lemma screen_run_action_unlocked a i w :
  unlocked w → screen (run_action env a i w) = screen w.
Proof.
  intros Hu. destruct a; cbn [run_action]; cbv zeta;
    rewrite screen_setState; [done..|].
  rewrite screen_lock_unlocked; [by rewrite !screen_update|].
  apply (unlocked_screen w); [by rewrite !screen_update|done].
Qed.

Lemma screen_at_probe_unlocked a1 a2 i w :
  unlocked w → screen (at_probe env a1 a2 i w) = screen w.
Proof.
  intros Hu. unfold at_probe.
  rewrite screen_run_action_unlocked; [by rewrite attach_eq|].
  apply (unlocked_screen w); [by rewrite attach_eq|done].
Qed.

Lemma screen_syncWithAnimation_unlocked a1 a2 i w :
  unlocked w → screen (syncWithAnimation env a1 a2 i w) = screen w.
Proof.
  intros Hu. rewrite syncWithAnimation_eq. cbv zeta.
  pose proof (screen_at_probe_unlocked a1 a2 i w Hu) as Hp.
  destruct (no_animation env i _); [|done].
  rewrite screen_run_action_unlocked; [by rewrite detach_eq|].
  apply (unlocked_screen w); [by rewrite detach_eq|done].
Qed.

Lemma screen_halt_unlocked i w :
  unlocked w → screen (halt env i w) = screen w.
Proof.
  intros Hu. destruct (decide (state_of i w = CLOSED)) as [H|H].
  - by rewrite halt_closed.
  - rewrite halt_eq, screen_setState by done.
    unfold put_away. cbv zeta.
    rewrite screen_lock_unlocked; [by rewrite !screen_update, detach_eq|].
    apply (unlocked_screen w); [by rewrite !screen_update, detach_eq|done].
Qed.

Lemma screen_emit ev w : screen (emit ev w) = screen w.
Proof. reflexivity. Qed.

Lemma screen_note_fragment this w : screen (note_fragment this w) = screen w.
Proof. unfold note_fragment. by split_ifs. Qed.

Lemma screen_clear_fragment this w :
  screen (clear_fragment this w) = screen w.
Proof. unfold clear_fragment. by split_ifs. Qed.

Lemma screen_displace_unlocked i w :
  unlocked w → screen (displace env i w) = screen w.
Proof.
  intros Hu. unfold displace. destruct (current w); [|done].
  destruct (decide _); [by apply screen_halt_unlocked|done].
Qed.

Lemma screen_show_unlocked i w :
  unlocked w → screen (show env i w) = screen w.
Proof.
  intros Hu. unfold show. cbv zeta.
  rewrite !screen_emit, !screen_update. by rewrite screen_lock_unlocked.
Qed.

Lemma screen_open_unlocked i w :
  unlocked w → screen (open env i w) = screen w.
Proof.
  intros Hu. destruct (lookup w !! i) as [this|] eqn:Hi;
    [|by rewrite open_absent].
  destruct (decide (state this = OPENING ∨ state this = CLOSING))
    as [Hst|Hst]; [by rewrite (open_guarded env i this)|].
  rewrite (open_eq env i this w Hi Hst).
  assert (screen (displace env i (note_fragment this w)) = screen w) as H1.
  { rewrite screen_displace_unlocked; [apply screen_note_fragment|].
    apply (unlocked_screen w); [apply screen_note_fragment|done]. }
  assert (screen (show env i (displace env i (note_fragment this w)))
          = screen w) as H2.
  { rewrite screen_show_unlocked; [done|]. by apply (unlocked_screen w). }
  rewrite screen_syncWithAnimation_unlocked; [done|].
  by apply (unlocked_screen w).
Qed.

Lemma screen_close_unlocked i reason w :
  unlocked w → screen (close env i reason w) = screen w.
Proof.
  intros Hu. destruct (lookup w !! i) as [this|] eqn:Hi;
    [|by rewrite close_absent].
  destruct (decide (state this = OPENED)) as [Hst|Hst];
    [|by rewrite (close_guarded env i reason this)].
  rewrite (close_eq env i reason this w Hi Hst).
  rewrite screen_syncWithAnimation_unlocked; [apply screen_clear_fragment|].
  apply (unlocked_screen w); [apply screen_clear_fragment|done].
Qed.

Lemma screen_construct id opts w : screen (construct id opts w) = screen w.
Proof. unfold construct. cbv zeta. by destruct (hasClass _ _). Qed.

Lemma screen_run_handler_unlocked h this target w :
  unlocked w → screen (run_handler env h this target w) = screen w.
Proof.
  intros Hu. unfold run_handler. destruct h; split_ifs; try reflexivity.
  rewrite screen_run_action_unlocked; [by rewrite detach_eq|].
  apply (unlocked_screen w); [by rewrite detach_eq|done].
Qed.

Lemma screen_dispatch_unlocked ev target w :
  unlocked w → screen (dispatch env ev target w) = screen w.
Proof.
  unfold dispatch. revert w.
  induction (path target) as [|this l IH]; intros w Hu; [reflexivity|].
  cbn [foldl].
  assert (∀ hs w0, unlocked w0 →
            screen (foldl (fun w p =>
                      if bool_decide (p ∈ listeners (elem this w))
                      then run_handler env p.2 this target w
                      else w) w0 hs) = screen w0) as Hin.
  { clear. intros hs. induction hs as [|p hs IH]; intros w Hu; [done|].
    cbn [foldl].
    assert (screen (if bool_decide (p ∈ listeners (elem this w))
                    then run_handler env p.2 this target w else w)
            = screen w) as H1.
    { destruct (bool_decide _); [by apply screen_run_handler_unlocked|done]. }
    rewrite IH; [done|]. by apply (unlocked_screen w). }
  rewrite IH; [by apply Hin|].
  apply (unlocked_screen w); [by apply Hin|done].
Qed.

Lemma screen_run_op_unlocked o w :
  unlocked w → screen (run_op env o w) = screen w.
Proof.
  intros Hu. destruct o; cbn [run_op].
  - unfold remodal. cbv zeta.
    destruct (_ && _); [|apply screen_construct].
    rewrite screen_open_unlocked; [apply screen_construct|].
    apply (unlocked_screen w); [apply screen_construct|done].
  - by apply screen_open_unlocked.
  - by apply screen_close_unlocked.
  - by apply screen_close_unlocked.
  - unfold click_cancel. cbv zeta.
    destruct (truthy _); [|done]. by rewrite screen_close_unlocked.
  - unfold click_confirm. cbv zeta.
    destruct (truthy _); [|done]. by rewrite screen_close_unlocked.
  - unfold click_wrapper. destruct (negb _); [done|].
    destruct (truthy _); [by apply screen_close_unlocked|done].
  - unfold keydown. destruct (current w); [|done].
    destruct (_ && _); [by apply screen_close_unlocked|done].
  - unfold handleHashChangeEvent. cbv zeta.
    assert (unlocked (set_hash h w)) as Hu' by exact Hu.
    destruct (String.eqb h "").
    + destruct (current _); [|done].
      destruct (_ && _); [by rewrite screen_close_unlocked|done].
    + destruct (find_id _ _); [|done].
      destruct (truthy _); [by rewrite screen_open_unlocked|done].
  - by apply screen_dispatch_unlocked.
Qed.

End WithEnv.

(** X16. On a page that starts without the marker of the screen lock no
    sequence of operations ever locks the screen: the classes of the
    root element and the padding of the body stay what they were. *)
Theorem screen_is_never_locked :
  ∀ (env : Env) (ops : list Op) (w : World),
    unlocked w → screen (run_ops env ops w) = screen w.
Proof.
  intros env ops. unfold run_ops.
  induction ops as [|o ops IH]; intros w Hu; [done|].
  cbn [foldl]. rewrite IH.
  - by apply screen_run_op_unlocked.
  - apply (unlocked_screen w); [by apply screen_run_op_unlocked|done].
Qed.

Lemma screen_is_never_locked_witness :
  screen (run_ops fading [OpRemodal (Some "a") ∅; OpOpen 0%nat]
            (initial false 0 "" 0))
  = screen (initial false 0 "" 0).
Proof.
  apply (screen_is_never_locked fading
           [OpRemodal (Some "a") ∅; OpOpen 0%nat] (initial false 0 "" 0)).
  reflexivity.
Defined.

End LockProps.

(** ** The constructor and the shared background *)

Module ConstructProps.
Import JS Helpers Remodal Spec Frames ListenerProps WorldProps OpProps
  BarrierProps InvariantProps GuardProps.
Local Open Scope list_scope.

Lemma bg_construct id opts w :
  classList (bg (construct id opts w)) = classList (bg w) ∪ {[closedClass]}.
Proof.
  unfold construct. cbv zeta.
  destruct (hasClass _ _); cbn [bg set_lookup update set_bg set_overlay
    set_DEFAULTS addClasses classList];
    change (class_names (namespacify ["is"; state_name CLOSED]))
      with [closedClass];
    cbn [list_to_set]; by rewrite (right_id_L ∅ (∪)).
Qed.

(** X17. The constructor puts the class of the closed state on the shared
    background and takes nothing off it, whatever the other instances
    are doing: their states are as before, so the background of a page
    with an opened dialog carries the classes of two states from then
    on. *)
Theorem construct_marks_the_background_closed :
  ∀ (id : option string) (opts : gmap string value) (w : World)
    (c : string),
    hasClass (classList (bg w)) c = true →
    let w' := construct id opts w in
    hasClass (classList (bg w')) c = true
    ∧ hasClass (classList (bg w')) closedClass = true
    ∧ (∀ j, state_of j w' = state_of j w)
    ∧ current w' = current w.
Proof.
  intros id opts w c Hc. cbv zeta. unfold hasClass in *.
  apply bool_decide_eq_true in Hc. rewrite !bool_decide_eq_true.
  rewrite bg_construct. split; [by apply elem_of_union_l|].
  split; [by apply elem_of_union_r, elem_of_singleton|].
  split; [intros j; apply state_of_construct|apply current_construct].
Qed.

Lemma construct_marks_the_background_closed_witness :
  hasClass (classList (bg (construct None ∅ opened_dialog)))
    (state_class OPENED) = true
  ∧ hasClass (classList (bg (construct None ∅ opened_dialog)))
      closedClass = true
  ∧ state_of 0 (construct None ∅ opened_dialog) = OPENED.
Proof.
  destruct (construct_marks_the_background_closed None ∅ opened_dialog
              (state_class OPENED)) as (H1 & H2 & H3 & _).
  - vm_compute. reflexivity.
  - split; [exact H1|]. split; [exact H2|].
    rewrite H3. vm_compute. reflexivity.
Defined.

End ConstructProps.

(** ** The tokens of the options string *)

Module TokenProps.
Import JS Helpers Remodal Spec OptionsProps OptionsMore StripProps.

(** *** Trimming *)

Lemma ltrim_all_ws s : all_ws s = true → ltrim s = "".
Proof.
  unfold ltrim. induction s as [|c s IH]; [reflexivity|].
  cbn [all_ws drop_ws]. intros [Hc Hs]%andb_true_iff. rewrite Hc. by apply IH.
Qed.

Lemma rtrim_all_ws s : all_ws s = true → rtrim s = "".
Proof.
  destruct s as [|c s]; [reflexivity|]. cbn [all_ws rtrim].
  by intros ->.
Qed.

Lemma ltrim_head c s : is_ws c = false → ltrim (String c s) = String c s.
Proof. intros H. unfold ltrim. cbn [drop_ws]. by rewrite H. Qed.

Lemma rtrim_head c s :
  is_ws c = false → rtrim (String c s) = String c (rtrim s).
Proof. intros H. cbn [rtrim]. by rewrite H. Qed.

Lemma ltrim_app c a b :
  is_ws c = false → ltrim (a ++ String c b) = ltrim a ++ String c b.
Proof.
  intros Hc. unfold ltrim. induction a as [|x a IH].
  - change ("" ++ String c b) with (String c b). cbn [drop_ws].
    by rewrite Hc.
  - rewrite append_cons. cbn [drop_ws].
    destruct (is_ws x); [exact IH|by rewrite append_cons].
Qed.

Lemma rtrim_app c a b :
  is_ws c = false → rtrim (a ++ String c b) = a ++ String c (rtrim b).
Proof.
  intros Hc. induction a as [|x a IH].
  - change ("" ++ String c b) with (String c b).
    change ("" ++ String c (rtrim b)) with (String c (rtrim b)).
    by apply rtrim_head.
  - rewrite !append_cons. cbn [rtrim].
    rewrite all_ws_app. cbn [all_ws]. rewrite Hc.
    rewrite andb_false_r, andb_false_r. by rewrite IH.
Qed.

Lemma trim_commute s : ltrim (rtrim s) = rtrim (ltrim s).
Proof.
  induction s as [|c s IH]; [reflexivity|].
  destruct (is_ws c) eqn:Hc.
  - change (ltrim (String c s)) with (drop_ws (String c s)).
    cbn [drop_ws rtrim]. rewrite Hc. fold (ltrim s).
    destruct (all_ws s) eqn:Hs; cbn [andb].
    + by rewrite (ltrim_all_ws s Hs).
    + rewrite <- IH. unfold ltrim. cbn [drop_ws]. by rewrite Hc.
  - rewrite (ltrim_head c s Hc), (rtrim_head c s Hc).
    by apply ltrim_head.
Qed.

(** *** Cutting and joining *)

Lemma join_cons d x y l :
  join d (x :: y :: l) = x ++ String d (join d (y :: l)).
Proof. reflexivity. Qed.

Lemma join_cons_ne d x l :
  l ≠ [] → join d (x :: l) = x ++ String d (join d l).
Proof. destruct l; [done|reflexivity]. Qed.

Lemma trim_pieces_cons l r x y xs :
  trim_pieces l r (x :: y :: xs)
  = trim_sides l true x :: trim_pieces true r (y :: xs).
Proof. reflexivity. Qed.

Lemma trim_pieces_cons_ne l r x xs :
  xs ≠ [] →
  trim_pieces l r (x :: xs) = trim_sides l true x :: trim_pieces true r xs.
Proof. destruct xs; [done|reflexivity]. Qed.

Lemma split_cons d s : ∃ h t, split d s = h :: t.
Proof.
  induction s as [|c s (h & t & IH)]; [by exists "", []|].
  cbn [split]. destruct (ascii_eqb c d); [by eexists _, _|].
  rewrite IH. by eexists _, _.
Qed.

Lemma join_split d s : join d (split d s) = s.
Proof.
  induction s as [|c s IH]; [reflexivity|].
  cbn [split]. destruct (split_cons d s) as (h & t & Hs).
  rewrite Hs in IH |- *.
  destruct (ascii_eqb c d) eqn:Hc.
  - apply ascii_eqb_eq in Hc as ->. rewrite join_cons, IH. reflexivity.
  - destruct t as [|y t]; [by rewrite <- IH|].
    rewrite join_cons, append_cons. rewrite join_cons in IH. by rewrite IH.
Qed.

Lemma split_app d x r :
  lacks d x = true → split d (x ++ String d r) = x :: split d r.
Proof.
  induction x as [|c x IH].
  - intros _. change ("" ++ String d r) with (String d r).
    cbn [split]. by rewrite ascii_eqb_refl.
  - cbn [lacks]. intros [Hc Hx]%andb_true_iff.
    apply negb_true_iff in Hc. rewrite append_cons. cbn [split].
    by rewrite Hc, (IH Hx).
Qed.

Lemma split_join d l :
  l ≠ [] → Forall (fun x => lacks d x = true) l → split d (join d l) = l.
Proof.
  induction l as [|x l IH]; [done|]. intros _ Hl.
  apply Forall_cons in Hl as [Hx Hl].
  destruct l as [|y l]; [by apply split_lacks|].
  rewrite join_cons, split_app by done. by rewrite IH.
Qed.

Lemma lacks_app d a b : lacks d (a ++ b) = lacks d a && lacks d b.
Proof.
  induction a as [|c a IH]; [reflexivity|].
  rewrite append_cons. cbn [lacks]. rewrite IH. by rewrite andb_assoc.
Qed.

Lemma lacks_split d s : Forall (fun x => lacks d x = true) (split d s).
Proof.
  induction s as [|c s IH]; [by repeat constructor|].
  cbn [split]. destruct (ascii_eqb c d) eqn:Hc; [by constructor|].
  destruct (split d s) as [|h t]; [repeat constructor; cbn; by rewrite Hc|].
  apply Forall_cons in IH as [Hh Ht]. constructor; [|done].
  cbn [lacks]. by rewrite Hc, Hh.
Qed.

Lemma lacks_split_other d d' s :
  lacks d' s = true → Forall (fun x => lacks d' x = true) (split d s).
Proof.
  induction s as [|c s IH]; [by repeat constructor|].
  cbn [lacks split]. intros [Hc Hs]%andb_true_iff.
  destruct (ascii_eqb c d); [constructor; [done|by apply IH]|].
  specialize (IH Hs). destruct (split d s) as [|h t].
  - repeat constructor. cbn [lacks]. by rewrite Hc.
  - apply Forall_cons in IH as [Hh Ht]. constructor; [|done].
    cbn [lacks]. by rewrite Hc, Hh.
Qed.

Lemma lacks_ltrim d s : lacks d s = true → lacks d (ltrim s) = true.
Proof.
  unfold ltrim. induction s as [|c s IH]; [done|].
  cbn [lacks drop_ws]. intros [Hc Hs]%andb_true_iff.
  destruct (is_ws c); [by apply IH|]. cbn [lacks]. by rewrite Hc, Hs.
Qed.

Lemma lacks_rtrim d s : lacks d s = true → lacks d (rtrim s) = true.
Proof.
  induction s as [|c s IH]; [done|].
  cbn [lacks rtrim]. intros [Hc Hs]%andb_true_iff.
  destruct (_ && _); [done|]. cbn [lacks]. by rewrite Hc, IH.
Qed.

Lemma lacks_trim_sides d l r s :
  lacks d s = true → lacks d (trim_sides l r s) = true.
Proof.
  intros H. unfold trim_sides.
  destruct l, r; cbn [id]; auto using lacks_ltrim, lacks_rtrim.
Qed.

Lemma lacks_trim_pieces d l r xs :
  Forall (fun x => lacks d x = true) xs →
  Forall (fun x => lacks d x = true) (trim_pieces l r xs).
Proof.
  revert l. induction xs as [|x xs IH]; intros l H; [constructor|].
  apply Forall_cons in H as [Hx Hxs]. cbn [trim_pieces].
  destruct xs as [|y xs].
  - repeat constructor. by apply lacks_trim_sides.
  - constructor; [by apply lacks_trim_sides|]. by apply IH.
Qed.

Lemma trim_pieces_nil l r xs : xs ≠ [] → trim_pieces l r xs ≠ [].
Proof. destruct xs as [|x [|y xs]]; done. Qed.

Lemma lacks_join d d' xs :
  ascii_eqb d d' = false →
  Forall (fun x => lacks d' x = true) xs → lacks d' (join d xs) = true.
Proof.
  intros Hne. induction xs as [|x xs IH]; [done|].
  intros [Hx Hxs]%Forall_cons. destruct xs as [|y xs]; [done|].
  rewrite join_cons, lacks_app. cbn [lacks].
  by rewrite Hx, Hne, (IH Hxs).
Qed.

(** *** One replacement, piece by piece *)

Section Pieces.
Context (d : ascii).

(** A piece before a delimiter loses the white space at its right end,
    and the one at its left end when a delimiter stands before it. *)
Lemma strip_go_piece x rest :
  lacks d x = true →
  ∀ p, all_ws p = true →
    strip_go d false p (x ++ String d rest)
    = rtrim (rev_string "" p ++ x) ++ String d (strip_go d true "" rest).
Proof.
  induction x as [|c x IH]; intros Hx p Hp.
  - rewrite append_nil_r. change ("" ++ String d rest) with (String d rest).
    cbn [strip_go]. rewrite ascii_eqb_refl.
    rewrite rtrim_all_ws by (by rewrite all_ws_rev). reflexivity.
  - cbn [lacks] in Hx. apply andb_true_iff in Hx as [Hc Hx].
    apply negb_true_iff in Hc. rewrite append_cons. cbn [strip_go].
    rewrite Hc. destruct (is_ws c) eqn:Hw.
    + rewrite IH by (try done; cbn [all_ws]; by rewrite Hw, Hp).
      by rewrite rev_string_cons.
    + rewrite (IH Hx "" eq_refl).
      change (rev_string "" "" ++ x) with x.
      rewrite (rtrim_app c _ x Hw). by rewrite append_assoc, append_cons.
Qed.

Lemma strip_go_piece_after x rest :
  lacks d x = true →
  strip_go d true "" (x ++ String d rest)
  = rtrim (ltrim x) ++ String d (strip_go d true "" rest).
Proof.
  induction x as [|c x IH]; intros Hx.
  - change ("" ++ String d rest) with (String d rest).
    cbn [strip_go]. by rewrite ascii_eqb_refl.
  - cbn [lacks] in Hx. apply andb_true_iff in Hx as [Hc Hx].
    apply negb_true_iff in Hc. rewrite append_cons. cbn [strip_go].
    rewrite Hc. destruct (is_ws c) eqn:Hw.
    + rewrite (IH Hx). unfold ltrim. cbn [drop_ws]. by rewrite Hw.
    + rewrite (strip_go_piece x rest Hx "" eq_refl).
      change (rev_string "" "" ++ x) with x.
      rewrite (ltrim_head c x Hw), (rtrim_head c x Hw).
      reflexivity.
Qed.

Lemma strip_go_last x :
  lacks d x = true → strip_go d true "" x = ltrim x.
Proof.
  induction x as [|c x IH]; intros Hx; [reflexivity|].
  cbn [lacks] in Hx. apply andb_true_iff in Hx as [Hc Hx].
  apply negb_true_iff in Hc. cbn [strip_go]. rewrite Hc.
  unfold ltrim. cbn [drop_ws]. destruct (is_ws c) eqn:Hw; [by apply IH|].
  by rewrite (strip_go_lacks d x Hx "").
Qed.

(** The replacement on the pieces of a string. *)
Lemma strip_go_join xs :
  xs ≠ [] → Forall (fun x => lacks d x = true) xs →
  strip_go d false "" (join d xs) = join d (trim_pieces false false xs)
  ∧ strip_go d true "" (join d xs) = join d (trim_pieces true false xs).
Proof.
  induction xs as [|x xs IH]; [done|]. intros _ Hxs.
  apply Forall_cons in Hxs as [Hx Hxs].
  destruct xs as [|y xs].
  - change (strip_go d false "" x = x ∧ strip_go d true "" x = ltrim x).
    split.
    + by rewrite (strip_go_lacks d x Hx "").
    + by apply strip_go_last.
  - destruct (IH ltac:(done) Hxs) as [_ IH2].
    rewrite !trim_pieces_cons.
    rewrite join_cons.
    rewrite (join_cons_ne d (trim_sides false true x))
      by (by apply trim_pieces_nil).
    rewrite (join_cons_ne d (trim_sides true true x))
      by (by apply trim_pieces_nil).
    split.
    + rewrite (strip_go_piece x _ Hx "" eq_refl), IH2. reflexivity.
    + rewrite (strip_go_piece_after x _ Hx), IH2. reflexivity.
Qed.

End Pieces.

(** A character that is neither the delimiter nor white space closes
    what came before it: the replacement works on either side of it
    alone. *)
Section Apart.
Context (d c : ascii) (Hcd : ascii_eqb c d = false) (Hc : is_ws c = false).

Lemma strip_go_apart x y :
  ∀ after p,
    strip_go d after p (x ++ String c y)
    = strip_go d after p x ++ String c (strip_go d false "" y).
Proof.
  induction x as [|a x IH]; intros after p.
  - change ("" ++ String c y) with (String c y).
    cbn [strip_go]. by rewrite Hcd, Hc.
  - rewrite append_cons. cbn [strip_go].
    destruct (ascii_eqb a d); [by rewrite IH, append_cons|].
    destruct (is_ws a).
    + destruct after; apply IH.
    + by rewrite IH, append_assoc, append_cons.
Qed.

Lemma strip_around_join xs :
  strip_around d (join c xs) = join c (strip_around d <$> xs).
Proof.
  unfold strip_around. induction xs as [|x xs IH]; [reflexivity|].
  destruct xs as [|y xs]; [reflexivity|].
  rewrite join_cons, strip_go_apart, IH. reflexivity.
Qed.

End Apart.

(** Trimming a string that is given by its pieces. *)
Section Joined.
Context (d : ascii) (Hd : is_ws d = false).

Lemma ltrim_join b xs :
  xs ≠ [] →
  ltrim (join d (trim_pieces false b xs)) = join d (trim_pieces true b xs).
Proof.
  destruct xs as [|x [|y xs]]; [done| |]; intros _.
  - change (ltrim (trim_sides false b x) = trim_sides true b x).
    unfold trim_sides. destruct b; cbn [id]; [apply trim_commute|done].
  - rewrite !trim_pieces_cons.
    rewrite !join_cons_ne by (by apply trim_pieces_nil).
    rewrite (ltrim_app d _ _ Hd). unfold trim_sides. cbn [id].
    by rewrite trim_commute.
Qed.

Lemma rtrim_join a xs :
  xs ≠ [] →
  rtrim (join d (trim_pieces a false xs)) = join d (trim_pieces a true xs).
Proof.
  revert a. induction xs as [|x xs IH]; [done|]. intros a _.
  destruct xs as [|y xs]; [reflexivity|].
  rewrite !trim_pieces_cons.
  rewrite !join_cons_ne by (by apply trim_pieces_nil).
  rewrite (rtrim_app d _ _ Hd). by rewrite IH.
Qed.

Lemma trim_sides_join l r xs :
  xs ≠ [] →
  trim_sides l r (join d (trim_pieces false false xs))
  = join d (trim_pieces l r xs).
Proof.
  intros Hxs. unfold trim_sides.
  assert ((if l then ltrim else id) (join d (trim_pieces false false xs))
          = join d (trim_pieces l false xs)) as ->
    by (destruct l; [by apply ltrim_join|done]).
  destruct r; [by apply rtrim_join|done].
Qed.

End Joined.

(** *** The tokens and their fields *)

Lemma split_nil d s : split d s ≠ [].
Proof. by destruct (split_cons d s) as (h & t & ->). Qed.

(** The first replacement on a token. *)
Lemma strip_colon_fields tok :
  strip_around ":" tok
  = join ":" (trim_pieces false false (split ":" tok)).
Proof.
  rewrite <- (join_split ":" tok) at 1.
  apply (strip_go_join ":"); [apply split_nil|apply lacks_split].
Qed.

Lemma lacks_comma_colon_stripped tok :
  lacks "," tok = true →
  lacks "," (join ":" (trim_pieces false false (split ":" tok))) = true.
Proof.
  intros H. apply lacks_join; [reflexivity|].
  by apply lacks_trim_pieces, lacks_split_other.
Qed.

Lemma tokens_of_pieces pieces :
  pieces ≠ [] → Forall (fun x => lacks "," x = true) pieces →
  tokens (join "," pieces)
  = trim_pieces false false
      ((fun tok => join ":" (trim_pieces false false (split ":" tok)))
       <$> pieces).
Proof.
  intros Hne Hl. unfold tokens.
  rewrite (strip_around_join ":" "," eq_refl eq_refl).
  rewrite (list_fmap_ext (strip_around ":")
             (fun tok => join ":" (trim_pieces false false (split ":" tok))))
    by (intros; apply strip_colon_fields).
  set (g := fun tok => join ":" (trim_pieces false false (split ":" tok))).
  assert (g <$> pieces ≠ []) as Hne' by (by destruct pieces).
  assert (Forall (fun x => lacks "," x = true) (g <$> pieces)) as Hl'.
  { apply Forall_fmap. eapply Forall_impl; [exact Hl|].
    intros tok Htok. by apply lacks_comma_colon_stripped. }
  unfold strip_around.
  rewrite (proj1 (strip_go_join "," _ Hne' Hl')).
  apply split_join; [by apply trim_pieces_nil|by apply lacks_trim_pieces].
Qed.

Lemma fields_of_token l r tok :
  split ":"
    (trim_sides l r (join ":" (trim_pieces false false (split ":" tok))))
  = trim_pieces l r (split ":" tok).
Proof.
  rewrite (trim_sides_join ":" eq_refl) by apply split_nil.
  apply split_join; [apply trim_pieces_nil, split_nil|].
  apply lacks_trim_pieces, lacks_split.
Qed.

Lemma fields_of_pieces l pieces :
  split ":"
  <$> trim_pieces l false
        ((fun tok => join ":" (trim_pieces false false (split ":" tok)))
         <$> pieces)
  = token_fields l pieces.
Proof.
  revert l. induction pieces as [|p pieces IH]; intros l; [reflexivity|].
  destruct pieces as [|q pieces].
  - cbn [fmap list_fmap trim_pieces token_fields].
    by rewrite fields_of_token.
  - change (token_fields l (p :: q :: pieces))
      with (trim_pieces l true (split ":" p)
              :: token_fields true (q :: pieces)).
    rewrite <- (IH true). rewrite (fmap_cons _ p).
    rewrite trim_pieces_cons_ne by done.
    by rewrite fmap_cons, fields_of_token.
Qed.

(** The tokens the loop of [parseOptions] runs over, cut at their
    colons, are the fields of the specification. *)
Lemma tokens_fields str : split ":" <$> tokens str = option_fields str.
Proof.
  rewrite <- (join_split "," str) at 1.
  rewrite tokens_of_pieces by (apply split_nil || apply lacks_split).
  apply fields_of_pieces.
Qed.

Lemma token_value_fields tok :
  token_value tok = field_value (split ":" tok).
Proof.
  unfold token_value, field_value, second_field.
  destruct (split ":" tok !! 1%nat); [apply coerce_refines|reflexivity].
Qed.

Lemma filter_fields (k : string) (toks : list string) :
  filter (fun fields => first_field fields = k) (split ":" <$> toks)
  = split ":" <$> filter (fun tok => token_key tok = k) toks.
Proof.
  induction toks as [|t toks IH]; [reflexivity|].
  rewrite fmap_cons, !filter_cons, IH. unfold token_key.
  by destruct (decide (first_field (split ":" t) = k)).
Qed.

(** The claim at a key that comes twice and at the key [__proto__]: the
    first of two tokens with one key leaves no pair, and a plain object
    creates no property [__proto__]. *)
Lemma repeated_key_and_proto :
  parseOptions "a:1,a:2" = <["a" := VNumber (Dec 2 0)]> ∅
  ∧ parseOptions "__proto__:1" = ∅.
Proof. split; reflexivity. Qed.

(** C9. The options string is cut at its commas into tokens and every
    token at its colons into fields, less the white space around commas
    and colons. Under every key but [__proto__] the parsed object holds
    the value of the last token with that key, and nothing when no token
    has it; the value of a [key:value] token is its text coerced as the
    specification says: [true] and [false] become the booleans, any
    other text that [ToNumber] accepts becomes that number, anything
    else stays the text. So every [key:value] token whose key is not
    [__proto__] and does not come again after it ends up as the pair of
    its key and its coerced value. The three strings of the
    specification parse as it says. *)
Theorem parseOptions_coerces :
  (∀ (str k : string),
      k ≠ "__proto__" →
      parseOptions str !! k
      = field_value
        <$> last (filter (fun fields => first_field fields = k)
                    (option_fields str)))
  ∧ (∀ (str key text : string) (before after : list (list string)),
        option_fields str = (before ++ [key; text] :: after)%list →
        key ≠ "__proto__" →
        Forall (fun fields => first_field fields ≠ key) after →
        parseOptions str !! key = Some (coerce_spec text))
  ∧ parseOptions "hashTracking:false,modifier:my-class"
    = <["hashTracking" := VBool false]>
        (<["modifier" := VString "my-class"]> ∅)
  ∧ parseOptions "appendTo:1" = <["appendTo" := VNumber (Dec 1 0)]> ∅
  ∧ parseOptions "label:truefoo" = <["label" := VString "truefoo"]> ∅.
Proof.
  assert (∀ (str k : string),
            k ≠ "__proto__" →
            parseOptions str !! k
            = field_value
              <$> last (filter (fun fields => first_field fields = k)
                          (option_fields str))) as Hlookup.
  { intros str k Hk. unfold parseOptions.
    rewrite foldl_parse_lookup by done.
    rewrite <- tokens_fields, filter_fields, fmap_last.
    destruct (last _) as [tok|]; [|reflexivity].
    cbn [fmap option_fmap option_map]. by rewrite token_value_fields. }
  split; [exact Hlookup|]. split; [|split; [|split]].
  - intros str key text before after Hfields Hkey Hafter.
    rewrite Hlookup, Hfields by done.
    rewrite filter_app, filter_cons_True by done.
    assert (filter (fun fields => first_field fields = key) after = [])
      as ->.
    { clear Hfields. induction Hafter as [|x after Hx _ IH]; [reflexivity|].
      rewrite filter_cons_False by done. exact IH. }
    by rewrite last_snoc.
  - apply map_eq; intros k. vm_compute parseOptions.
    reflexivity.
  - reflexivity.
  - reflexivity.
Qed.

Lemma parseOptions_coerces_witness :
  parseOptions " a : 1 , b : true ,c" !! "b" = Some (VBool true).
Proof.
  apply (proj1 (proj2 parseOptions_coerces) " a : 1 , b : true ,c"
           "b" "true" [[" a"; "1"]] [["c"]]).
  - reflexivity.
  - discriminate.
  - repeat constructor. discriminate.
Defined.

End TokenProps.
Module HelpersTests.
Import JS Helpers.

Example strip_colon : strip_around ":" "a  :  b ,c" = "a:b ,c".
Proof. reflexivity. Qed.

Example strip_keeps_inner : strip_around "," " a b , c " = " a b,c ".
Proof. reflexivity. Qed.

Example num_hex : string_to_number " 0x1F " = Dec 31 0.
Proof. reflexivity. Qed.

Example num_frac : string_to_number "-1.50e2" = Dec (-150) 0.
Proof. reflexivity. Qed.

Example num_empty : string_to_number "" = Dec 0 0.
Proof. reflexivity. Qed.

Example num_junk : string_to_number "12px" = NaN.
Proof. reflexivity. Qed.

Example float_prefix : parseFloat "0.3s" = Dec 3 (-1).
Proof. reflexivity. Qed.

Example float_rounds :
  num_is0 (num_add (num_mul (parseFloat "0.1s") (parseInt10 "3"))
             (parseFloat "-0.3s")) = false.
Proof. reflexivity. Qed.

Example float_tiny : string_to_number "1e-400" = Dec 0 0.
Proof. reflexivity. Qed.

Example int_infinite : parseInt10 "infinite" = NaN.
Proof. reflexivity. Qed.

Example classes_split : class_names " a, b  c ,, d" = ["a"; "b"; "c"; "d"].
Proof. reflexivity. Qed.

End HelpersTests.
